(* ===================================================================== *)
(* RSS-to-Telegram bot (src/main.py): lifecycle controller, polling      *)
(* worker, de-duplication store and message formatting.                  *)
(*                                                                       *)
(* The program is embedded with explicit state passing.  Everything the  *)
(* worker cannot decide by itself (the feed parser, the Telegram API,    *)
(* the file system, the language-model endpoint, the flags written by    *)
(* the command thread) is read from an environment [Env] of oracles      *)
(* indexed by a logical clock; every theorem quantifies over all         *)
(* environments.                                                         *)
(*                                                                       *)
(* [process_entry], [rss_loop] and the functions between them describe   *)
(* a worker that no other thread interrupts: they hold of a process in   *)
(* which one worker is alive at a time.  What two workers do to the      *)
(* shared [sent_entries] when both are alive is described by [Pass] and  *)
(* [interleave].                                                         *)
(* ===================================================================== *)

From Stdlib Require Import ZArith Ascii String.
From stdpp Require Import gmap strings list pretty.

Local Open Scope string_scope.
Local Open Scope list_scope.
Local Open Scope nat_scope.

(* --------------------------------------------------------------------- *)
(* Python strings                                                        *)
(* --------------------------------------------------------------------- *)

(* A Python [str] is a sequence of characters; [String.length] is [len]. *)

Definition nl : string := String (ascii_of_nat 10) EmptyString.

(* [bool(s)] of a string *)
Definition nonempty (s : string) : bool :=
  match s with EmptyString => false | String _ _ => true end.

(* [s.find(c)]: index of the first occurrence, -1 when there is none *)
Fixpoint find_from (c : ascii) (s : string) (i : Z) : Z :=
  match s with
  | EmptyString => (-1)%Z
  | String a rest => if Ascii.eqb a c then i else find_from c rest (i + 1)%Z
  end.

Definition find (c : ascii) (s : string) : Z := find_from c s 0%Z.

(* [s.rfind(c)]: index of the last occurrence, -1 when there is none *)
Fixpoint rfind_from (c : ascii) (s : string) (i last : Z) : Z :=
  match s with
  | EmptyString => last
  | String a rest =>
      rfind_from c rest (i + 1)%Z (if Ascii.eqb a c then i else last)
  end.

Definition rfind (c : ascii) (s : string) : Z := rfind_from c s 0%Z (-1)%Z.

(* [s[a:b]] for non-negative [a] and [b] *)
Definition slice (a b : Z) (s : string) : string :=
  substring (Z.to_nat a) (Z.to_nat (b - a)) s.

(* [s[:n] + "..."] when [len(s) > n], else [s] *)
Definition truncate (n : nat) (s : string) : string :=
  if Nat.ltb n (String.length s) then substring 0 n s +:+ "..." else s.

(* --- clean = lambda text: re.sub(r'<[^>]+>', '', text) if text else "" *)

Fixpoint has_gt (s : string) : bool :=
  match s with
  | EmptyString => false
  | String a rest => if Ascii.eqb a ">" then true else has_gt rest
  end.

(* After a "<": does "[^>]+>" match here?  One character other than ">"
   must follow, and a ">" must come somewhere after it. *)
Definition opens_tag (rest : string) : bool :=
  match rest with
  | EmptyString => false
  | String a rest' => negb (Ascii.eqb a ">") && has_gt rest'
  end.

(* Left-to-right scan of re.sub: inside a match every character up to and
   including the first ">" is dropped. *)
Fixpoint strip_tags (in_tag : bool) (s : string) : string :=
  match s with
  | EmptyString => EmptyString
  | String a rest =>
      if in_tag then
        (if Ascii.eqb a ">" then strip_tags false rest
         else strip_tags true rest)
      else if Ascii.eqb a "<" && opens_tag rest then strip_tags true rest
      else String a (strip_tags false rest)
  end.

Definition clean (text : string) : string :=
  if nonempty text then strip_tags false text else "".

(* --------------------------------------------------------------------- *)
(* Data model                                                            *)
(* --------------------------------------------------------------------- *)

(* A feed entry; [None] is an attribute the entry does not have
   (hasattr(entry, ...) is False). *)
Record Entry := {
  e_link : option string;
  e_title : option string;
  e_description : option string
}.

(* The global [stats] dictionary.  Timestamps are clock readings; [None]
   is Python's None. *)
Record Stats := {
  start_time : option nat;
  posts_sent : nat;
  last_check : option nat;
  errors : nat;
  last_post : option nat;
  yagpt_used : nat;
  yagpt_errors : nat;
  images_generated : nat
}.

(* The module-level initial value of [stats] *)
Definition stats0 : Stats :=
  {| start_time := None; posts_sent := 0; last_check := None; errors := 0;
     last_post := None; yagpt_used := 0; yagpt_errors := 0;
     images_generated := 0 |}.

(* Configuration read from the process environment at import time *)
Record Config := {
  CHANNEL_ID : string;
  RSS_URLS : list string;
  CHECK_INTERVAL : Z;
  YANDEX_API_KEY : option string;
  YANDEX_FOLDER_ID : string;
  DISABLE_YAGPT : bool
}.

Inductive Level := INFO | WARNING | ERROR | CRITICAL.

(* The log lines of the worker (the text of an exception is left out) *)
Inductive LogMsg :=
| MsgLoopStarted
| MsgLoopStopped
| MsgChecking (n : nat)
| MsgEmptyFeed (url : string)
| MsgImageSent (path : string)
| MsgPhotoError
| MsgPosted (link : string)
| MsgSendError
| MsgFeedError (url : string)
| MsgCycleComplete (interval : Z)
| MsgLoopError
| MsgYagptRequestError
| MsgYagptProcessingError
| MsgYagptFormatError
| MsgYagptJsonError
| MsgYagptApplied
| MsgYagptValidationFailed
| MsgYagptIntegrationError
| MsgImageGenerated (path : string)
| MsgImageNoPath
| MsgImageFailed
| MsgTraceback.

(* What the worker does to the outside: log lines and calls of the
   Telegram API.  [entry_link] is the identifier of the entry the call
   publishes; [ok] tells whether the call returned ([true]) or raised. *)
Inductive Event :=
| Log (lvl : Level) (m : LogMsg)
| SendPhoto (chat_id entry_link caption : string) (ok : bool)
| SendMessage (chat_id entry_link text : string) (ok : bool).

(* The state the worker thread reads and writes: the globals [stats] and
   [sent_entries], the logical clock, and the events so far (newest
   first). *)
Record World := {
  stats : Stats;
  sent_entries : gset string;
  clock : nat;
  events : list Event
}.

Definition world0 : World :=
  {| stats := stats0; sent_entries := ∅; clock := 0; events := [] |}.

(* --- field updates --------------------------------------------------- *)

Definition set_stats (f : Stats → Stats) (w : World) : World :=
  {| stats := f (stats w); sent_entries := sent_entries w;
     clock := clock w; events := events w |}.

Definition emit (e : Event) (w : World) : World :=
  {| stats := stats w; sent_entries := sent_entries w;
     clock := clock w; events := e :: events w |}.

Definition logger (lvl : Level) (m : LogMsg) (w : World) : World :=
  emit (Log lvl m) w.

(* time passes: [d] units *)
Definition advance (d : nat) (w : World) : World :=
  {| stats := stats w; sent_entries := sent_entries w;
     clock := d + clock w; events := events w |}.

(* a call of a collaborator takes one unit *)
Definition tick (w : World) : World := advance 1 w.

(* sent_entries.add(link) *)
Definition add_sent (l : string) (w : World) : World :=
  {| stats := stats w; sent_entries := {[ l ]} ∪ sent_entries w;
     clock := clock w; events := events w |}.

Definition incr_posts_sent (s : Stats) : Stats :=
  {| start_time := start_time s; posts_sent := S (posts_sent s);
     last_check := last_check s; errors := errors s;
     last_post := last_post s; yagpt_used := yagpt_used s;
     yagpt_errors := yagpt_errors s;
     images_generated := images_generated s |}.

Definition incr_errors (s : Stats) : Stats :=
  {| start_time := start_time s; posts_sent := posts_sent s;
     last_check := last_check s; errors := S (errors s);
     last_post := last_post s; yagpt_used := yagpt_used s;
     yagpt_errors := yagpt_errors s;
     images_generated := images_generated s |}.

Definition incr_yagpt_used (s : Stats) : Stats :=
  {| start_time := start_time s; posts_sent := posts_sent s;
     last_check := last_check s; errors := errors s;
     last_post := last_post s; yagpt_used := S (yagpt_used s);
     yagpt_errors := yagpt_errors s;
     images_generated := images_generated s |}.

Definition incr_yagpt_errors (s : Stats) : Stats :=
  {| start_time := start_time s; posts_sent := posts_sent s;
     last_check := last_check s; errors := errors s;
     last_post := last_post s; yagpt_used := yagpt_used s;
     yagpt_errors := S (yagpt_errors s);
     images_generated := images_generated s |}.

Definition incr_images_generated (s : Stats) : Stats :=
  {| start_time := start_time s; posts_sent := posts_sent s;
     last_check := last_check s; errors := errors s;
     last_post := last_post s; yagpt_used := yagpt_used s;
     yagpt_errors := yagpt_errors s;
     images_generated := S (images_generated s) |}.

Definition set_last_check (t : option nat) (s : Stats) : Stats :=
  {| start_time := start_time s; posts_sent := posts_sent s;
     last_check := t; errors := errors s;
     last_post := last_post s; yagpt_used := yagpt_used s;
     yagpt_errors := yagpt_errors s;
     images_generated := images_generated s |}.

Definition set_last_post (t : option nat) (s : Stats) : Stats :=
  {| start_time := start_time s; posts_sent := posts_sent s;
     last_check := last_check s; errors := errors s;
     last_post := t; yagpt_used := yagpt_used s;
     yagpt_errors := yagpt_errors s;
     images_generated := images_generated s |}.

(* --------------------------------------------------------------------- *)
(* The environment                                                       *)
(* --------------------------------------------------------------------- *)

(* A value as json.loads gives it: None, a bool, an int, a float (by its
   64 bits), a str, a list, or a dict (its items in order, the keys
   distinct). *)
#[warnings="-register-all"] Inductive JVal :=
| JNull
| JBool (b : bool)
| JNum (z : Z)
| JFloat (bits : Z)
| JStr (s : string)
| JArr (items : list JVal)
| JObj (members : list (string * JVal)).

(* bool(v); of the floats only 0.0 and -0.0 are false *)
Definition truthy (v : JVal) : bool :=
  match v with
  | JNull => false
  | JBool b => b
  | JNum z => negb (z =? 0)%Z
  | JFloat bits => negb ((bits =? 0)%Z || (bits =? 2 ^ 63)%Z)
  | JStr s => nonempty s
  | JArr items => match items with [] => false | _ :: _ => true end
  | JObj members => match members with [] => false | _ :: _ => true end
  end.

(* len(v): the characters of a str, the items of a list, the keys of a
   dict; None: len(v) raises TypeError. *)
Definition sized (v : JVal) : option nat :=
  match v with
  | JStr s => Some (String.length s)
  | JArr items => Some (length items)
  | JObj members => Some (length members)
  | _ => None
  end.

(* The members of the parsed object that the code reads; None: no such
   key. *)
Record JObject := { j_title : option JVal; j_description : option JVal }.

(* What the completion request comes back with *)
Inductive YagptReply :=
| RequestException   (* requests.exceptions.RequestException *)
| OtherException     (* any other exception while reading the response *)
| ResultText (result_text : string).

(* What json.loads does with the text between the braces *)
Inductive Parsed :=
| Object (data : JObject)
| JSONDecodeError
| ParseException.    (* any other exception: RecursionError on a text
                        that is nested too deep *)

(* Every oracle that depends on the moment it is asked takes the clock
   reading.  For the calls that can raise, [None] or [false] means that
   the call raised. *)
Record Env := {
  (* self.stop_event.is_set() and self.is_running, as the command thread
     has left them at that moment *)
  stop_is_set : nat → bool;
  running_flag : nat → bool;
  (* feedparser.parse(url).entries; None: the call raised *)
  feed_parse : nat → string → option (list Entry);
  (* the time the call of feedparser.parse takes, whatever comes back *)
  fetch_time : nat → string → nat;
  (* requests.post(...) .. result['result'][...]['text'] *)
  yagpt_post : nat → string → string → YagptReply;
  json_loads : string → Parsed;
  (* str(v) of a value that is not a str, as an f-string puts it into the
     text (for a list or a dict, its repr) *)
  str_of : JVal → string;
  (* ImageGenerator.generate_image up to its return: the path of the file
     written, None when anything in it raised *)
  render : nat → string → option string;
  path_exists : nat → string → bool;
  open_ok : nat → string → bool;
  send_photo_ok : nat → bool;
  remove_ok : nat → string → bool;
  send_message_ok : nat → bool;
  (* an exception that escapes the per-feed try of rss_loop *)
  loop_fault : nat → bool;
  (* threading.TIMEOUT_MAX, rounded down: the longest timeout, in whole
     seconds, that a wait accepts on this platform *)
  TIMEOUT_MAX : Z
}.

(* --------------------------------------------------------------------- *)
(* ImageGenerator.generate_image                                         *)
(* --------------------------------------------------------------------- *)

(* The value when it is a str *)
Definition as_str (v : JVal) : option string :=
  match v with JStr s => Some s | _ => None end.

(* The whole body runs inside the try of the function.  [render] answers
   for a title that is a str; on any other value title.split() raises
   AttributeError, when nothing has raised before it. *)
Definition generate_image (env : Env) (title : JVal) (w : World)
  : option string * World :=
  let t := clock w in
  let w := tick w in
  match as_str title ≫= render env t with
  | Some output_path => (Some output_path, set_stats incr_images_generated w)
  | None =>
      (None, logger ERROR MsgTraceback (logger ERROR MsgImageFailed w))
  end.

(* --------------------------------------------------------------------- *)
(* enhance_with_yagpt                                                    *)
(* --------------------------------------------------------------------- *)

(* not DISABLE_YAGPT and YANDEX_API_KEY and YANDEX_FOLDER_ID *)
Definition yagpt_configured (cfg : Config) : bool :=
  negb (DISABLE_YAGPT cfg)
  && match YANDEX_API_KEY cfg with Some k => nonempty k | None => false end
  && nonempty (YANDEX_FOLDER_ID cfg).

Definition MAX_INPUT_LENGTH : nat := 3000.

(* The dict the function returns *)
Record Enhanced := { enh_title : JVal; enh_description : JVal }.

Definition enhance_with_yagpt (env : Env) (cfg : Config)
    (title description : string) (w : World) : option Enhanced * World :=
  if negb (yagpt_configured cfg) then (None, w)
  else
    let description := truncate MAX_INPUT_LENGTH description in
    let t := clock w in
    let w := tick w in
    match yagpt_post env t title description with
    | RequestException =>
        (None, set_stats incr_yagpt_errors (logger ERROR MsgYagptRequestError w))
    | OtherException =>
        (None, set_stats incr_yagpt_errors (logger ERROR MsgYagptProcessingError w))
    | ResultText result_text =>
        let json_start := find "{" result_text in
        let json_end := (rfind "}" result_text + 1)%Z in
        if (json_start =? -1)%Z || (json_end =? 0)%Z then
          (None, logger ERROR MsgYagptFormatError w)
        else
          let json_str := slice json_start json_end result_text in
          match json_loads env json_str with
          | Object data =>
              (Some {| enh_title := default (JStr title) (j_title data);
                       enh_description :=
                         default (JStr description) (j_description data) |},
               w)
          | JSONDecodeError => (None, logger ERROR MsgYagptJsonError w)
          | ParseException =>
              (None,
               set_stats incr_yagpt_errors
                 (logger ERROR MsgYagptProcessingError w))
          end
    end.

(* --------------------------------------------------------------------- *)
(* BotController.format_message                                          *)
(* --------------------------------------------------------------------- *)

(* The quality check of the candidate, evaluated left to right as the
   [and] chain is. *)
Inductive Verdict := Accept | Reject | TypeError.

Definition validate (new_title new_description : JVal) : Verdict :=
  if negb (truthy new_title) then Reject else
  match sized new_title with
  | None => TypeError
  | Some t =>
    if negb (Nat.ltb 10 t) then Reject else
    if negb (truthy new_description) then Reject else
    match sized new_description with
    | None => TypeError
    | Some d =>
      if negb (Nat.ltb 30 d) then Reject else
      if negb (Nat.ltb t 120) then Reject else
      if negb (Nat.ltb d 600) then Reject else
      Accept
    end
  end.

(* The block under "if not DISABLE_YAGPT and ...": the title and the
   description to go on with.  The originals are strs; a candidate that
   is taken over is whatever the reply held. *)
Definition enhance_step (env : Env) (cfg : Config)
    (title description : string) (w : World) : JVal * JVal * World :=
  if yagpt_configured cfg then
    match enhance_with_yagpt env cfg title description w with
    | (Some enhanced, w) =>
        match validate (enh_title enhanced) (enh_description enhanced) with
        | Accept =>
            (enh_title enhanced, enh_description enhanced,
             logger INFO MsgYagptApplied (set_stats incr_yagpt_used w))
        | Reject =>
            (JStr title, JStr description,
             logger WARNING MsgYagptValidationFailed w)
        | TypeError =>
            (JStr title, JStr description,
             set_stats incr_yagpt_errors
               (logger ERROR MsgYagptIntegrationError w))
        end
    | (None, w) => (JStr title, JStr description, w)
    end
  else (JStr title, JStr description, w).

(* "if len(description) > 500: description = description[:500] + ...";
   None: the statement raises, as it does for a list or a dict of more
   than 500 items (and for a value without len()). *)
Definition shorten (description : JVal) : option JVal :=
  match description with
  | JStr s => Some (JStr (truncate 500 s))
  | _ =>
      match sized description with
      | Some n => if Nat.ltb 500 n then None else Some description
      | None => None
      end
  end.

(* The block under "image_path = None" *)
Definition image_step (env : Env) (title : JVal) (original_title : string)
    (w : World) : option string * World :=
  let image_title := if truthy title then title else JStr original_title in
  if truthy image_title then
    match generate_image env image_title w with
    | (Some p, w) =>
        if nonempty p then (Some p, logger INFO (MsgImageGenerated p) w)
        else (Some p, logger WARNING MsgImageNoPath w)
    | (None, w) => (None, logger WARNING MsgImageNoPath w)
    end
  else (None, w).

Definition link_text : string := "🔗 Читать полностью".

Definition render_message (title description link : string) : string :=
  "<b>" +:+ title +:+ "</b>" +:+ nl +:+ nl +:+ description +:+ nl +:+ nl
  +:+ "<a href='" +:+ link +:+ "'>" +:+ link_text +:+ "</a>".

(* The value as an f-string puts it into the text *)
Definition text (env : Env) (v : JVal) : string :=
  match v with JStr s => s | _ => str_of env v end.

(* None: an exception leaves the function (it has no try around the
   statement that shortens the description). *)
Definition format_message (env : Env) (cfg : Config) (entry : Entry)
    (w : World) : option (string * option string) * World :=
  let title := default "No title" (e_title entry) in
  let description := default "" (e_description entry) in
  let link := default "" (e_link entry) in
  let title := clean title in
  let description := clean description in
  let original_title := title in
  let '(title, description, w) := enhance_step env cfg title description w in
  match shorten description with
  | None => (None, w)
  | Some description =>
      let '(image_path, w) := image_step env title original_title w in
      (Some (render_message (text env title) (text env description) link,
             image_path), w)
  end.

(* --------------------------------------------------------------------- *)
(* BotController.rss_loop                                                *)
(* --------------------------------------------------------------------- *)

(* time.sleep(d) *)
Definition sleep (d : nat) (w : World) : World := advance d w.

(* threading.Event.wait(timeout): the time that passes until the flag is
   seen set, at most [timeout]; a timeout below zero is one of zero. *)
Fixpoint wait_elapsed (env : Env) (timeout t : nat) : nat :=
  if stop_is_set env t then 0
  else match timeout with
       | 0 => 0
       | S n => S (wait_elapsed env n (S t))
       end.

(* None: OverflowError.  A flag that is set already is returned at once;
   otherwise the lock is taken with the timeout, which raises when the
   timeout is above TIMEOUT_MAX. *)
Definition stop_event_wait (env : Env) (timeout : Z) (w : World)
  : option World :=
  if negb (stop_is_set env (clock w)) && (TIMEOUT_MAX env <? timeout)%Z
  then None
  else Some (advance (wait_elapsed env (Z.to_nat timeout) (clock w)) w).

(* bot.send_message(chat_id=CHANNEL_ID, text=message, parse_mode='HTML');
   the boolean tells whether the call returned. *)
Definition send_message (env : Env) (cfg : Config) (l message : string)
    (w : World) : bool * World :=
  let ok := send_message_ok env (clock w) in
  (ok, emit (SendMessage (CHANNEL_ID cfg) l message ok) (tick w)).

(* The inner try of the photo branch, up to its except: open the file,
   send it, remove it.  The boolean tells whether the block completed. *)
Definition try_send_photo (env : Env) (cfg : Config)
    (l message image_path : string) (w : World) : bool * World :=
  let opened := open_ok env (clock w) image_path in
  let w := tick w in
  if negb opened then (false, w)
  else
    let sent := send_photo_ok env (clock w) in
    let w := emit (SendPhoto (CHANNEL_ID cfg) l message sent) (tick w) in
    if negb sent then (false, w)
    else
      let removed := remove_ok env (clock w) image_path in
      let w := tick w in
      if negb removed then (false, w)
      else (true, logger INFO (MsgImageSent image_path) w).

(* The sending part of the per-entry try.  The boolean tells whether it
   completed ([false]: an exception reaches "except Exception as e" of
   the entry). *)
Definition publish (env : Env) (cfg : Config) (l message : string)
    (image_path : option string) (w : World) : bool * World :=
  match image_path with
  | Some p =>
      if nonempty p then
        let present := path_exists env (clock w) p in
        let w := tick w in
        if present then
          match try_send_photo env cfg l message p w with
          | (true, w) => (true, w)
          | (false, w) =>
              send_message env cfg l message (logger ERROR MsgPhotoError w)
          end
        else send_message env cfg l message w
      else send_message env cfg l message w
  | None => send_message env cfg l message w
  end.

(* What follows the sending part when it has completed (lines 404-410) *)
Definition record_post (l : string) (w : World) : World :=
  let w := add_sent l w in
  let w := set_stats incr_posts_sent w in
  let w := set_stats (set_last_post (Some (clock w))) w in
  let w := logger INFO (MsgPosted l) w in
  sleep 3 w.

(* The per-entry try with its except (lines 373-414), for an entry that
   has passed the test of line 370 with the link [l]. *)
Definition post_entry (env : Env) (cfg : Config) (l : string) (entry : Entry)
    (w : World) : World :=
  match format_message env cfg entry w with
  | (Some (message, image_path), w) =>
      match publish env cfg l message image_path w with
      | (true, w) => record_post l w
      | (false, w) => set_stats incr_errors (logger ERROR MsgSendError w)
      end
  | (None, w) => set_stats incr_errors (logger ERROR MsgSendError w)
  end.

(* The body of "for entry in reversed(feed.entries[:10])" after the stop
   check, for a worker that no other thread interrupts between the test
   of line 370 and the try. *)
Definition process_entry (env : Env) (cfg : Config) (entry : Entry)
    (w : World) : World :=
  match e_link entry with
  | None => w
  | Some l =>
      if decide (l ∈ sent_entries w) then w
      else post_entry env cfg l entry w
  end.

Fixpoint process_entries (env : Env) (cfg : Config) (entries : list Entry)
    (w : World) : World :=
  match entries with
  | [] => w
  | entry :: rest =>
      if stop_is_set env (clock w) then w
      else process_entries env cfg rest (process_entry env cfg entry w)
  end.

(* --- two workers on the same globals --------------------------------- *)

(* A worker inside "for entry in reversed(feed.entries[:10])": the
   entries still to come and, when it has passed the test of line 370 for
   the first of them and has not entered the try yet, the link it has
   tested.  Between the two another thread can run. *)
Record Pass := { todo : list Entry; tested : option string }.

Definition begin_pass (entries : list Entry) : Pass :=
  {| todo := entries; tested := None |}.

Definition step_pass (env : Env) (cfg : Config) (p : Pass) (w : World)
  : Pass * World :=
  match todo p with
  | [] => (p, w)
  | entry :: rest =>
      match tested p with
      | Some l => (begin_pass rest, post_entry env cfg l entry w)
      | None =>
          if stop_is_set env (clock w) then (begin_pass [], w)
          else
            match e_link entry with
            | None => (begin_pass rest, w)
            | Some l =>
                if decide (l ∈ sent_entries w) then (begin_pass rest, w)
                else ({| todo := entry :: rest; tested := Some l |}, w)
            end
      end
  end.

(* The two workers that are alive after a join has timed out, on the
   globals they share; [schedule] tells whose step comes next ([true]:
   the first worker's). *)
Fixpoint interleave (env : Env) (cfg : Config) (schedule : list bool)
    (a b : Pass) (w : World) : Pass * Pass * World :=
  match schedule with
  | [] => (a, b, w)
  | turn :: rest =>
      if turn then
        let '(a, w) := step_pass env cfg a w in
        interleave env cfg rest a b w
      else
        let '(b, w) := step_pass env cfg b w in
        interleave env cfg rest a b w
  end.

(* The per-feed try with its except *)
Definition process_feed (env : Env) (cfg : Config) (url : string)
    (w : World) : World :=
  let t := clock w in
  let w := advance (fetch_time env t url) w in
  match feed_parse env t url with
  | None => set_stats incr_errors (logger ERROR (MsgFeedError url) w)
  | Some [] => logger WARNING (MsgEmptyFeed url) w
  | Some entries => process_entries env cfg (rev (take 10 entries)) w
  end.

Fixpoint process_feeds (env : Env) (cfg : Config) (urls : list string)
    (w : World) : World :=
  match urls with
  | [] => w
  | url :: rest =>
      if stop_is_set env (clock w) then w
      else process_feeds env cfg rest (process_feed env cfg url w)
  end.

(* except Exception of the while body *)
Definition cooldown (w : World) : World :=
  sleep 30 (set_stats incr_errors (logger CRITICAL MsgLoopError w)).

(* One pass through the body of the while loop.  self.last_check is only
   copied into stats['last_check']. *)
Definition cycle (env : Env) (cfg : Config) (w : World) : World :=
  if loop_fault env (clock w) then cooldown w
  else
    let w := set_stats (set_last_check (Some (clock w))) w in
    let w := logger INFO (MsgChecking (length (RSS_URLS cfg))) w in
    let w := process_feeds env cfg (RSS_URLS cfg) w in
    if loop_fault env (clock w) then cooldown w
    else
      let w := logger INFO (MsgCycleComplete (CHECK_INTERVAL cfg)) w in
      match stop_event_wait env (CHECK_INTERVAL cfg) w with
      | Some w => w
      | None => cooldown w
      end.

(* while self.is_running and not self.stop_event.is_set(); the boolean
   tells whether the loop was left within [fuel] passes. *)
Fixpoint rss_while (env : Env) (cfg : Config) (fuel : nat) (w : World)
  : World * bool :=
  if running_flag env (clock w) && negb (stop_is_set env (clock w)) then
    match fuel with
    | 0 => (w, false)
    | S n => rss_while env cfg n (cycle env cfg w)
    end
  else (logger INFO MsgLoopStopped w, true).

Definition rss_loop (env : Env) (cfg : Config) (fuel : nat) (w : World)
  : World * bool :=
  rss_while env cfg fuel (logger INFO MsgLoopStarted w).

(* --------------------------------------------------------------------- *)
(* BotController: start, stop, status                                    *)
(* --------------------------------------------------------------------- *)

Record BotController := {
  is_running : bool;
  worker_thread : option nat;   (* the thread object, by its number *)
  stop_event : bool
}.

(* What the command thread sees: the controller, the global [stats] and
   the worker threads that are alive. *)
Record Process := {
  controller : BotController;
  p_stats : Stats;
  alive : list nat;
  next_thread : nat
}.

Definition process0 : Process :=
  {| controller :=
       {| is_running := false; worker_thread := None; stop_event := false |};
     p_stats := stats0; alive := []; next_thread := 0 |}.

(* The assignments to [stats] at the end of start() *)
Definition record_start (now : nat) (s : Stats) : Stats :=
  {| start_time := Some now;
     last_check := None;
     posts_sent := 0;
     errors := 0;
     yagpt_used := 0;
     yagpt_errors := 0;
     images_generated := 0;
     last_post := last_post s |}.

Definition start (now : nat) (p : Process) : bool * Process :=
  if is_running (controller p) then (false, p)
  else
    let tid := next_thread p in
    (true,
     {| controller :=
          {| is_running := true; worker_thread := Some tid;
             stop_event := false |};
        p_stats := record_start now (p_stats p);
        alive := tid :: alive p;
        next_thread := S tid |}).

(* worker_thread.join(timeout=5.0): [exits_in_time] tells whether the
   worker leaves rss_loop before the timeout. *)
Definition join (exits_in_time : bool) (tid : nat) (threads : list nat)
  : list nat :=
  if exits_in_time then filter (λ t, t ≠ tid) threads else threads.

Definition stop (exits_in_time : bool) (p : Process) : bool * Process :=
  let c := controller p in
  if negb (is_running c) then (false, p)
  else
    (true,
     {| controller :=
          {| is_running := false; worker_thread := worker_thread c;
             stop_event := true |};
        p_stats := p_stats p;
        alive :=
          match worker_thread c with
          | Some tid =>
              if bool_decide (tid ∈ alive p)
              then join exits_in_time tid (alive p)
              else alive p
          | None => alive p
          end;
        next_thread := next_thread p |}).

Definition status (p : Process) : bool := is_running (controller p).

(* A worker that is alive reads the two flags at the head of its while
   loop and leaves when they tell it to. *)
Definition worker_checks (tid : nat) (p : Process) : Process :=
  let c := controller p in
  if is_running c && negb (stop_event c) then p
  else
    {| controller := c; p_stats := p_stats p;
       alive := filter (λ t, t ≠ tid) (alive p);
       next_thread := next_thread p |}.

Inductive Action :=
| DoStart (now : nat)
| DoStop (exits_in_time : bool)
| WorkerChecks (tid : nat).

Definition act (a : Action) (p : Process) : Process :=
  match a with
  | DoStart now => (start now p).2
  | DoStop exits_in_time => (stop exits_in_time p).2
  | WorkerChecks tid => worker_checks tid p
  end.

Definition run (actions : list Action) (p : Process) : Process :=
  foldl (λ p a, act a p) p actions.

(* --------------------------------------------------------------------- *)
(* Properties as sets of events                                          *)
(* --------------------------------------------------------------------- *)

(* The entries a Telegram call publishes, oldest call first *)
Fixpoint sends (evs : list Event) : list string :=
  match evs with
  | [] => []
  | Log _ _ :: older => sends older
  | SendPhoto _ l _ _ :: older => sends older ++ [l]
  | SendMessage _ l _ _ :: older => sends older ++ [l]
  end.

(* The links of the "Posted" lines, oldest first *)
Fixpoint posted (evs : list Event) : list string :=
  match evs with
  | [] => []
  | Log _ (MsgPosted l) :: older => posted older ++ [l]
  | _ :: older => posted older
  end.

(* The links of a batch that are new when their turn comes, for a worker
   whose posts all go through: an entry without a link, with a link in
   [seen] or with the link of an entry before it is passed over. *)
Fixpoint new_links (seen : gset string) (batch : list Entry) : list string :=
  match batch with
  | [] => []
  | entry :: rest =>
      match e_link entry with
      | Some l =>
          if decide (l ∈ seen) then new_links seen rest
          else l :: new_links ({[ l ]} ∪ seen) rest
      | None => new_links seen rest
      end
  end.

(* The Telegram calls an entry of a batch can give rise to in a feed pass
   that has begun with [seen] recorded: none, or one or two for its own
   link, which is then not in [seen]. *)
Definition calls_of (seen : gset string) (entry : Entry) (c : list string)
  : Prop :=
  c = [] ∨ ∃ l, e_link entry = Some l ∧ (l ∉ seen) ∧ (c = [l] ∨ c = [l; l]).

(* The event is a Telegram call for the entry [l] *)
Definition publishes (l : string) (e : Event) : Prop :=
  match e with
  | Log _ _ => False
  | SendPhoto _ l' _ _ => l' = l
  | SendMessage _ l' _ _ => l' = l
  end.

(* The event touches the record of [l]: a call for it, or its "Posted"
   line *)
Definition concerns (l : string) (e : Event) : Prop :=
  publishes l e ∨ e = Log INFO (MsgPosted l).

(* The event is neither a Telegram call nor a "Posted" line *)
Definition silent (e : Event) : Prop :=
  match e with
  | Log _ (MsgPosted _) => False
  | Log _ _ => True
  | _ => False
  end.

(* The event is a Telegram call for [l] that returned *)
Definition delivered (l : string) (e : Event) : Prop :=
  match e with
  | Log _ _ => False
  | SendPhoto _ l' _ ok => l' = l ∧ ok = true
  | SendMessage _ l' _ ok => l' = l ∧ ok = true
  end.

(* An event and the events before it: nothing concerns an entry whose
   "Posted" line is older, and a "Posted" line has an older call for
   its entry that returned. *)
Definition in_order (e : Event) (older : list Event) : Prop :=
  (∀ l, concerns l e → Log INFO (MsgPosted l) ∉ older)
  ∧ (∀ l, e = Log INFO (MsgPosted l) → Exists (delivered l) older).

(* [events] is newest first *)
Fixpoint well_ordered (evs : list Event) : Prop :=
  match evs with
  | [] => True
  | e :: older => in_order e older ∧ well_ordered older
  end.

(* The de-duplication invariant of the worker's state *)
Definition dedup (w : World) : Prop :=
  (∀ l, l ∈ sent_entries w ↔ Log INFO (MsgPosted l) ∈ events w)
  ∧ well_ordered (events w).

(* [w'] comes from [w] by events that all satisfy [P], with the same
   sent_entries. *)
Definition extends (P : Event → Prop) (w w' : World) : Prop :=
  sent_entries w' = sent_entries w
  ∧ ∃ new, events w' = new ++ events w ∧ Forall P new.

(* A log line other than "Posted", or a Telegram call for [l] *)
Definition attempt (l : string) (e : Event) : Prop :=
  silent e ∨ publishes l e.

(* What holds of the threads when every stop() has seen its worker
   leave: the worker of the controller is the only one. *)
Definition one_worker (p : Process) : Prop :=
  let c := controller p in
  if is_running c
  then stop_event c = false
       ∧ ∃ tid, worker_thread c = Some tid ∧ alive p = [tid]
  else alive p = [].

(* The worker state over the life of a process in which one worker is
   alive at a time: each activation runs rss_loop, in its own
   environment, on the state the previous one has left. *)
Definition lifetime (cfg : Config) (activations : list (Env * nat))
    (w : World) : World :=
  foldl (λ w a, (rss_loop a.1 cfg a.2 w).1) w activations.

(* len() of the value lies strictly between the bounds *)
Definition in_bounds (lo hi : nat) (v : JVal) : Prop :=
  ∃ n, sized v = Some n ∧ lo < n < hi.

(* Every stop() of the list sees its worker leave in time *)
Definition joined (a : Action) : Prop :=
  match a with DoStop exits_in_time => exits_in_time = true | _ => True end.

(* --------------------------------------------------------------------- *)
(* Sample configurations, environments and states                        *)
(* --------------------------------------------------------------------- *)

(* repr() as Python prints it for None, bools and ints, and for the strs,
   lists and dicts made of them when the strs hold only printable ASCII
   characters other than the two quotes and the backslash.  Floats do not
   occur in the examples. *)
Fixpoint sample_repr (v : JVal) : string :=
  match v with
  | JNull => "None"
  | JBool b => if b then "True" else "False"
  | JNum z => pretty z
  | JFloat _ => "nan"
  | JStr s => "'" +:+ s +:+ "'"
  | JArr items =>
      "[" +:+ String.concat ", " (map sample_repr items) +:+ "]"
  | JObj members =>
      "{" +:+ String.concat ", "
                (map (λ m, "'" +:+ m.1 +:+ "': " +:+ sample_repr m.2) members)
      +:+ "}"
  end.

Definition cfg_plain : Config :=
  {| CHANNEL_ID := "@news"; RSS_URLS := ["https://a/rss"; "https://b/rss"];
     CHECK_INTERVAL := 300; YANDEX_API_KEY := None; YANDEX_FOLDER_ID := "";
     DISABLE_YAGPT := false |}.

Definition cfg_yagpt : Config :=
  {| CHANNEL_ID := "@news"; RSS_URLS := ["https://a/rss"];
     CHECK_INTERVAL := 300; YANDEX_API_KEY := Some "key";
     YANDEX_FOLDER_ID := "folder"; DISABLE_YAGPT := false |}.

Definition entry_of (l t d : string) : Entry :=
  {| e_link := Some l; e_title := Some t; e_description := Some d |}.

Definition bare_entry : Entry :=
  {| e_link := None; e_title := None; e_description := None |}.

Definition E1 : Entry := entry_of "https://a/1" "First" "one".
Definition E2 : Entry := entry_of "https://a/2" "Second" "two".
Definition E3 : Entry := entry_of "https://a/3" "Third" "three".

(* Nothing is stopped, no image is produced, every text message goes
   through; the feed and the enhancer are parameters. *)
Definition env_with (feed : nat → string → option (list Entry))
    (reply : YagptReply) (parsed : Parsed) : Env :=
  {| stop_is_set := λ _, false;
     running_flag := λ _, true;
     feed_parse := feed;
     fetch_time := λ _ _, 1;
     yagpt_post := λ _ _ _, reply;
     json_loads := λ _, parsed;
     str_of := sample_repr;
     render := λ _ _, None;
     path_exists := λ _ _, false;
     open_ok := λ _ _, false;
     send_photo_ok := λ _, false;
     remove_ok := λ _ _, false;
     send_message_ok := λ _, true;
     loop_fault := λ _, false;
     TIMEOUT_MAX := 9223372036 |}.

Definition env_feed (feed : nat → string → option (list Entry)) : Env :=
  env_with feed RequestException JSONDecodeError.

Definition env_three : Env := env_feed (λ _ _, Some [E1; E2; E3]).

Definition env_empty_feed : Env := env_feed (λ _ _, Some []).

(* The first feed raises, the second has one entry *)
Definition env_first_fails : Env :=
  env_feed (λ _ url, if String.eqb url "https://a/rss" then None
                     else Some [E1]).

(* An image is made and found, but sending the photo raises *)
Definition env_photo_fails : Env :=
  {| stop_is_set := λ _, false;
     running_flag := λ _, true;
     feed_parse := λ _ _, Some [E1];
     fetch_time := λ _ _, 1;
     yagpt_post := λ _ _ _, RequestException;
     json_loads := λ _, JSONDecodeError;
     str_of := sample_repr;
     render := λ _ _, Some "temp_images/post_1.jpg";
     path_exists := λ _ _, true;
     open_ok := λ _ _, true;
     send_photo_ok := λ _, false;
     remove_ok := λ _ _, true;
     send_message_ok := λ _, true;
     loop_fault := λ _, false;
     TIMEOUT_MAX := 9223372036 |}.

(* The enhancer answers with a five-character title *)
Definition short_candidate : JObject :=
  {| j_title := Some (JStr "Short");
     j_description :=
       Some (JStr "A description that is long enough to pass the check") |}.

Definition good_candidate : JObject :=
  {| j_title := Some (JStr "A better headline");
     j_description :=
       Some (JStr "A description that is long enough to pass the check") |}.

(* The enhancer answers with lists: a title of 11 items and a description
   of 31 items of 100 characters each *)
Definition title_items : JVal := JArr (replicate 11 (JStr "Breaking news")).

Definition description_items : JVal :=
  JArr (replicate 31 (JStr (string_of_list_ascii (replicate 100 "x"%char)))).

Definition env_list_candidate : Env :=
  env_with (λ _ _, Some [E1]) (ResultText "{}")
    (Object {| j_title := Some title_items;
               j_description := Some description_items |}).

(* The enhancer answers with a good title and a description that is a
   list of 501 items *)
Definition env_long_list : Env :=
  env_with (λ _ _, Some [E1]) (ResultText "{}")
    (Object {| j_title := Some (JStr "A better headline");
               j_description := Some (JArr (replicate 501 (JStr "x"))) |}).

(* The text of the reply has its braces, but json.loads rejects it *)
Definition env_bad_json : Env :=
  env_with (λ _ _, Some [E1]) (ResultText "Sure: {title: A better headline,}")
    JSONDecodeError.

Definition env_short_title : Env :=
  env_with (λ _ _, Some [E1]) (ResultText "{}") (Object short_candidate).

Definition env_good_candidate : Env :=
  env_with (λ _ _, Some [E1]) (ResultText "{}") (Object good_candidate).

Definition env_request_error : Env :=
  env_with (λ _ _, Some [E1]) RequestException JSONDecodeError.




(* The counters and timestamps a run has left behind *)
Definition stats_after_run : Stats :=
  {| start_time := Some 10; posts_sent := 4; last_check := Some 90;
     errors := 2; last_post := Some 80; yagpt_used := 1; yagpt_errors := 1;
     images_generated := 3 |}.

Definition stopped_after_run : Process :=
  {| controller :=
       {| is_running := false; worker_thread := Some 0; stop_event := true |};
     p_stats := stats_after_run; alive := []; next_thread := 1 |}.

(* --------------------------------------------------------------------- *)
(* More of Python's str                                                  *)
(* --------------------------------------------------------------------- *)

(* [c in s] for a character [c] *)
Fixpoint occurs (c : ascii) (s : string) : bool :=
  match s with
  | EmptyString => false
  | String a rest => if Ascii.eqb a c then true else occurs c rest
  end.

(* s.lstrip(chars), s.rstrip(chars) and s.strip(chars), with the set of
   characters given as a test *)
Fixpoint lstrip_by (f : ascii → bool) (s : string) : string :=
  match s with
  | EmptyString => EmptyString
  | String a rest => if f a then lstrip_by f rest else s
  end.

Fixpoint rstrip_by (f : ascii → bool) (s : string) : string :=
  match s with
  | EmptyString => EmptyString
  | String a rest =>
      match rstrip_by f rest with
      | EmptyString => if f a then EmptyString else String a EmptyString
      | kept => String a kept
      end
  end.

Definition strip_by (f : ascii → bool) (s : string) : string :=
  rstrip_by f (lstrip_by f s).

(* s.split(sep) for a one-character separator *)
Fixpoint split (sep : ascii) (s : string) : list string :=
  match s with
  | EmptyString => [EmptyString]
  | String a rest =>
      if Ascii.eqb a sep then EmptyString :: split sep rest
      else match split sep rest with
           | first :: others => String a first :: others
           | [] => [String a EmptyString]
           end
  end.

(* s.lower(), on the letters A to Z.  No other character becomes one of
   the letters of "true", "yes" or "y" when lowered, which is all the
   code uses the result for. *)
Definition lower_char (a : ascii) : ascii :=
  let n := nat_of_ascii a in
  if (65 <=? n) && (n <=? 90) then ascii_of_nat (n + 32) else a.

Fixpoint lower (s : string) : string :=
  match s with
  | EmptyString => EmptyString
  | String a rest => String (lower_char a) (lower rest)
  end.

(* What the code takes from Python itself: which characters str.strip()
   and str.split() treat as white space, and int() of a string (None:
   ValueError). *)
Record Builtins := {
  isspace : ascii → bool;
  int_of_str : string → option Z
}.

(* s.strip() *)
Definition strip (py : Builtins) (s : string) : string :=
  strip_by (isspace py) s.

(* --------------------------------------------------------------------- *)
(* get_env_var                                                           *)
(* --------------------------------------------------------------------- *)

(* The values that go in and out of get_env_var *)
Inductive PyVal :=
| PNone
| PStr (s : string)
| PInt (z : Z)
| PBool (b : bool)
| PList (l : list string).

Inductive VarType := TStr | TInt | TBool | TList.

Inductive Outcome :=
| Exit (code : Z)        (* exit(1) *)
| Return (v : PyVal).

(* os.getenv(name, default) *)
Definition getenv (environ : gmap string string) (name : string)
    (default : PyVal) : PyVal :=
  match environ !! name with
  | Some s => PStr s
  | None => default
  end.

(* bool(v) *)
Definition py_bool (v : PyVal) : bool :=
  match v with
  | PNone => false
  | PStr s => nonempty s
  | PInt z => negb (z =? 0)%Z
  | PBool b => b
  | PList l => match l with [] => false | _ => true end
  end.

(* int(v); None: TypeError or ValueError *)
Definition py_int (py : Builtins) (v : PyVal) : option Z :=
  match v with
  | PNone => None
  | PStr s => int_of_str py s
  | PInt z => Some z
  | PBool b => Some (if b then 1 else 0)%Z
  | PList _ => None
  end.

Definition is_bracket (a : ascii) : bool :=
  Ascii.eqb a "[" || Ascii.eqb a "]".

Definition is_quote (a : ascii) : bool :=
  Ascii.eqb a "'" || Ascii.eqb a (ascii_of_nat 34).

(* The list comprehension of the list branch: split at the commas, keep
   the pieces that are not blank, strip white space and then the two
   quote characters from each. *)
Definition parse_urls (py : Builtins) (value : string) : list string :=
  omap (λ url, if nonempty (strip py url)
               then Some (strip_by is_quote (strip py url)) else None)
       (split "," (strip_by is_bracket value)).

Definition get_env_var (py : Builtins) (environ : gmap string string)
    (name : string) (default : PyVal) (required : bool) (var_type : VarType)
  : Outcome :=
  let value := getenv environ name default in
  match required, value with
  | true, PNone => Exit 1
  | _, _ =>
      match var_type with
      | TInt =>
          match value with
          | PNone => Return default
          | _ => match py_int py value with
                 | Some z => Return (PInt z)
                 | None => Return default
                 end
          end
      | TList =>
          match value with
          | PStr s =>
              if nonempty s then Return (PList (parse_urls py s))
              else Return (match default with PNone => PList [] | d => d end)
          | _ => Return (match default with PNone => PList [] | d => d end)
          end
      | TBool =>
          match value with
          | PStr s =>
              Return (PBool (bool_decide (lower s ∈ ["true"; "1"; "yes"; "y"])))
          | _ => Return (PBool (py_bool value))
          end
      | TStr => Return value
      end
  end.

(* --------------------------------------------------------------------- *)
(* Reports and command handlers                                          *)
(* --------------------------------------------------------------------- *)

(* list_sources; str(i+1) is the decimal numeral *)
Definition list_sources (cfg : Config) : string :=
  let sources :=
    String.concat nl
      (imap (λ i url, "• " +:+ pretty (i + 1) +:+ ". " +:+ url)
            (RSS_URLS cfg)) in
  "📚 <b>Источники новостей</b> (" +:+ pretty (length (RSS_URLS cfg))
  +:+ "):" +:+ nl +:+ sources.

Definition yagpt_hint : string :=
  nl +:+ nl +:+ "ℹ️ Для активации установите переменные окружения:" +:+ nl
  +:+ "YANDEX_API_KEY и YANDEX_FOLDER_ID".

(* bool(YANDEX_API_KEY) *)
Definition key_set (cfg : Config) : bool :=
  match YANDEX_API_KEY cfg with Some k => nonempty k | None => false end.

(* get_yagpt_status *)
Definition get_yagpt_status (cfg : Config) (s : Stats) : string :=
  let status :=
    if negb (DISABLE_YAGPT cfg) then "🟢 Активна" else "🔴 Отключена" in
  let key_status :=
    if key_set cfg then "🟢 Установлен" else "🔴 Отсутствует" in
  let folder_status :=
    if nonempty (YANDEX_FOLDER_ID cfg) then "🟢 Указан" else "⚠️ Не указан" in
  let report :=
    "🧠 <b>Статус YandexGPT</b>" +:+ nl +:+ nl
    +:+ "• Интеграция: " +:+ status +:+ nl
    +:+ "• API ключ: " +:+ key_status +:+ nl
    +:+ "• Каталог: " +:+ folder_status +:+ nl
    +:+ "• Использовано: " +:+ pretty (yagpt_used s) +:+ " раз" +:+ nl
    +:+ "• Ошибки: " +:+ pretty (yagpt_errors s) in
  if DISABLE_YAGPT cfg || negb (key_set cfg)
     || negb (nonempty (YANDEX_FOLDER_ID cfg))
  then report +:+ yagpt_hint
  else report.

(* message.from_user.id and message.text of a text message *)
Record Message := { from_user_id : Z; msg_text : string }.

(* bot.reply_to(message, text, parse_mode=..., reply_markup=...); the
   markup is given by its rows of button labels. *)
Record Reply := {
  reply_text : string;
  parse_mode : option string;
  reply_markup : list (list string)
}.

(* create_reply_keyboard: row_width is 2 and every add() has two buttons,
   so each add() is one row. *)
Definition create_reply_keyboard (p : Process) : list (list string) :=
  [ if status p then ["⏸️ Приостановить"; "🛑 Остановить"]
    else ["▶️ Запустить"; "🔄 Перезапустить"];
    ["📊 Статистика"; "📝 Источники"];
    ["❓ Помощь"; "ℹ️ Инфо"] ].

(* What the handlers use and this development leaves open: the owner, the
   three message constants, and the two reports that format dates and
   floating-point numbers (they read the clock, [stats] and the
   controller). *)
Record Bot := {
  OWNER_ID : Z;
  bot_cfg : Config;
  bot_py : Builtins;
  BOT_DESCRIPTION : string;
  COMMANDS_LIST : string;
  INFO_MESSAGE : string;
  generate_status_report : nat → Process → string;
  generate_stats_report : nat → Process → string
}.

(* generate_combined_report *)
Definition generate_combined_report (b : Bot) (now : nat) (p : Process)
  : string :=
  generate_status_report b now p +:+ nl +:+ nl
  +:+ generate_stats_report b now p.

Definition reply_html (text : string) (p : Process) : option Reply :=
  Some {| reply_text := text; parse_mode := Some "HTML";
          reply_markup := create_reply_keyboard p |}.

(* A handler gets the clock reading [now], the outcome of the join in
   stop() should it call stop(), the message and the state; it gives the
   new state and the reply, if it sends one. *)
Definition is_owner (b : Bot) (m : Message) : bool :=
  (from_user_id m =? OWNER_ID b)%Z.

Definition send_welcome (b : Bot) (now : nat) (exits_in_time : bool)
    (m : Message) (p : Process) : Process * option Reply :=
  if negb (is_owner b m) then (p, None)
  else (p, reply_html
             (BOT_DESCRIPTION b +:+ nl +:+ nl +:+ COMMANDS_LIST b) p).

Definition send_status (b : Bot) (now : nat) (exits_in_time : bool)
    (m : Message) (p : Process) : Process * option Reply :=
  if negb (is_owner b m) then (p, None)
  else (p, reply_html (generate_status_report b now p) p).

Definition send_stats (b : Bot) (now : nat) (exits_in_time : bool)
    (m : Message) (p : Process) : Process * option Reply :=
  if negb (is_owner b m) then (p, None)
  else (p, reply_html (generate_combined_report b now p) p).

Definition start_command (b : Bot) (now : nat) (exits_in_time : bool)
    (m : Message) (p : Process) : Process * option Reply :=
  if negb (is_owner b m) then (p, None)
  else
    match start now p with
    | (true, p) => (p, reply_html "✅ Публикация начата! 🚀" p)
    | (false, p) => (p, reply_html "⚠️ Бот уже запущен!" p)
    end.

Definition stop_command (b : Bot) (now : nat) (exits_in_time : bool)
    (m : Message) (p : Process) : Process * option Reply :=
  if negb (is_owner b m) then (p, None)
  else
    match stop exits_in_time p with
    | (true, p) => (p, reply_html "🛑 Публикация остановлена! ⏸️" p)
    | (false, p) => (p, reply_html "⚠️ Бот уже остановлен!" p)
    end.

(* controller.stop(); time.sleep(1); controller.start() *)
Definition restart_command (b : Bot) (now : nat) (exits_in_time : bool)
    (m : Message) (p : Process) : Process * option Reply :=
  if negb (is_owner b m) then (p, None)
  else
    let p := (stop exits_in_time p).2 in
    match start now p with
    | (true, p) => (p, reply_html "🔄 Бот успешно перезапущен! 🔄" p)
    | (false, p) => (p, reply_html "⚠️ Ошибка при перезапуске!" p)
    end.

Definition sources_command (b : Bot) (now : nat) (exits_in_time : bool)
    (m : Message) (p : Process) : Process * option Reply :=
  if negb (is_owner b m) then (p, None)
  else (p, reply_html (list_sources (bot_cfg b)) p).

Definition yagpt_status_command (b : Bot) (now : nat) (exits_in_time : bool)
    (m : Message) (p : Process) : Process * option Reply :=
  if negb (is_owner b m) then (p, None)
  else (p, reply_html (get_yagpt_status (bot_cfg b) (p_stats p)) p).

Definition unknown_command : string :=
  "⚠️ Неизвестная команда. Используйте /help для списка команд".

(* The handler of every other text message: the buttons *)
Definition handle_text_messages (b : Bot) (now : nat) (exits_in_time : bool)
    (m : Message) (p : Process) : Process * option Reply :=
  if negb (is_owner b m) then (p, None)
  else
    let text := strip (bot_py b) (msg_text m) in
    if String.eqb text "▶️ Запустить" then
      start_command b now exits_in_time m p
    else if String.eqb text "⏸️ Приостановить"
            || String.eqb text "🛑 Остановить" then
      stop_command b now exits_in_time m p
    else if String.eqb text "🔄 Перезапустить" then
      restart_command b now exits_in_time m p
    else if String.eqb text "📊 Статистика" then
      (p, reply_html (generate_combined_report b now p) p)
    else if String.eqb text "📝 Источники" then
      sources_command b now exits_in_time m p
    else if String.eqb text "❓ Помощь" then
      send_welcome b now exits_in_time m p
    else if String.eqb text "ℹ️ Инфо" then
      (p, reply_html (INFO_MESSAGE b) p)
    else
      (p, Some {| reply_text := unknown_command; parse_mode := None;
                  reply_markup := create_reply_keyboard p |}).

(* The handlers, as telebot's decorators register them *)
Inductive Handler :=
| HWelcome | HStatus | HStats | HStartBot | HStop | HRestart | HSources
| HYagptStatus | HText.

Definition handler (h : Handler)
  : Bot → nat → bool → Message → Process → Process * option Reply :=
  match h with
  | HWelcome => send_welcome
  | HStatus => send_status
  | HStats => send_stats
  | HStartBot => start_command
  | HStop => stop_command
  | HRestart => restart_command
  | HSources => sources_command
  | HYagptStatus => yagpt_status_command
  | HText => handle_text_messages
  end.

(* The reply wraps its object in other text; the object has a title and
   no description *)
Definition env_wrapped_reply : Env :=
  env_with (λ _ _, Some [E1])
    (ResultText "Here you are: {title: A better headline} Enjoy!")
    (Object {| j_title := Some (JStr "A better headline");
               j_description := None |}).

(* The object of the reply is nested too deep for json.loads *)
Definition env_deep_reply : Env :=
  env_with (λ _ _, Some [E1]) (ResultText "{{{{{{{{{{ }}}}}}}}}}")
    ParseException.

(* The reply holds no object at all *)
Definition env_no_object : Env :=
  env_with (λ _ _, Some [E1]) (ResultText "Sorry, I cannot help with that.")
    JSONDecodeError.

(* [w'] is a state the worker can be in after [w]: nothing is taken
   back, and the posts counted are the links recorded. *)
Definition later (w w' : World) : Prop :=
  sent_entries w ⊆ sent_entries w'
  ∧ events w `suffix_of` events w'
  ∧ clock w ≤ clock w'
  ∧ posts_sent (stats w) ≤ posts_sent (stats w')
  ∧ errors (stats w) ≤ errors (stats w')
  ∧ yagpt_used (stats w) ≤ yagpt_used (stats w')
  ∧ yagpt_errors (stats w) ≤ yagpt_errors (stats w')
  ∧ images_generated (stats w) ≤ images_generated (stats w')
  ∧ posts_sent (stats w') + size (sent_entries w)
    = posts_sent (stats w) + size (sent_entries w').

(* Nothing has been recorded as posted between [w] and [w'] *)
Definition nothing_posted (w w' : World) : Prop :=
  sent_entries w' = sent_entries w
  ∧ posts_sent (stats w') = posts_sent (stats w)
  ∧ last_post (stats w') = last_post (stats w)
  ∧ ∀ l, Log INFO (MsgPosted l) ∈ events w' →
         Log INFO (MsgPosted l) ∈ events w.

(* Every call of the Telegram API raises *)
Definition env_outage : Env :=
  {| stop_is_set := λ _, false;
     running_flag := λ _, true;
     feed_parse := λ _ _, Some [E1; E2];
     fetch_time := λ _ _, 1;
     yagpt_post := λ _ _ _, RequestException;
     json_loads := λ _, JSONDecodeError;
     str_of := sample_repr;
     render := λ _ _, Some "temp_images/post_1.jpg";
     path_exists := λ _ _, true;
     open_ok := λ _ _, true;
     send_photo_ok := λ _, false;
     remove_ok := λ _ _, true;
     send_message_ok := λ _, false;
     loop_fault := λ _, false;
     TIMEOUT_MAX := 9223372036 |}.

(* The photo goes out, but the image file cannot be removed *)
Definition env_remove_fails : Env :=
  {| stop_is_set := λ _, false;
     running_flag := λ _, true;
     feed_parse := λ _ _, Some [E1];
     fetch_time := λ _ _, 1;
     yagpt_post := λ _ _ _, RequestException;
     json_loads := λ _, JSONDecodeError;
     str_of := sample_repr;
     render := λ _ _, Some "temp_images/post_1.jpg";
     path_exists := λ _ _, true;
     open_ok := λ _ _, true;
     send_photo_ok := λ _, true;
     remove_ok := λ _ _, false;
     send_message_ok := λ _, true;
     loop_fault := λ _, false;
     TIMEOUT_MAX := 9223372036 |}.

(* stop() has been called before the worker looks *)
Definition env_stopped : Env :=
  {| stop_is_set := λ _, true;
     running_flag := λ _, false;
     feed_parse := λ _ _, Some [E1];
     fetch_time := λ _ _, 1;
     yagpt_post := λ _ _ _, RequestException;
     json_loads := λ _, JSONDecodeError;
     str_of := sample_repr;
     render := λ _ _, None;
     path_exists := λ _ _, false;
     open_ok := λ _ _, false;
     send_photo_ok := λ _, false;
     remove_ok := λ _ _, false;
     send_message_ok := λ _, true;
     loop_fault := λ _, false;
     TIMEOUT_MAX := 9223372036 |}.

(* How many stop() calls of the list gave up their join *)
Fixpoint timeouts (actions : list Action) : nat :=
  match actions with
  | [] => 0
  | DoStop false :: rest => S (timeouts rest)
  | _ :: rest => timeouts rest
  end.

(* What holds of the threads after any sequence of actions that has seen
   [k] joins time out *)
Definition threads_ok (k : nat) (p : Process) : Prop :=
  NoDup (alive p)
  ∧ (∀ t, t ∈ alive p → t < next_thread p)
  ∧ if is_running (controller p)
    then stop_event (controller p) = false
         ∧ (∃ tid, worker_thread (controller p) = Some tid ∧ tid ∈ alive p)
         ∧ length (alive p) ≤ S k
    else length (alive p) ≤ k.

(* Every character of the string passes the test *)
Fixpoint all_chars (f : ascii → bool) (s : string) : bool :=
  match s with
  | EmptyString => true
  | String a rest => f a && all_chars f rest
  end.

(* A list item that needs no cleaning: not empty, and without commas,
   white space, quotes and square brackets *)
Definition plain (py : Builtins) (u : string) : bool :=
  nonempty u
  && all_chars (λ a, negb (Ascii.eqb a "," || isspace py a || is_quote a
                           || is_bracket a)) u.

(* White space as bytes.isspace has it; int() reads 300 and nothing
   else *)
Definition py_sample : Builtins :=
  {| isspace := λ a, let n := nat_of_ascii a in
                     ((9 <=? n) && (n <=? 13)) || (n =? 32);
     int_of_str := λ s, if String.eqb s "300" then Some 300%Z else None |}.

Definition bot_sample : Bot :=
  {| OWNER_ID := 42; bot_cfg := cfg_plain; bot_py := py_sample;
     BOT_DESCRIPTION := "description"; COMMANDS_LIST := "commands";
     INFO_MESSAGE := "info";
     generate_status_report := λ _ _, "status";
     generate_stats_report := λ _ _, "stats" |}.

Definition from_owner (text : string) : Message :=
  {| from_user_id := 42; msg_text := text |}.

Definition from_stranger (text : string) : Message :=
  {| from_user_id := 7; msg_text := text |}.

(* A process environment with the feed list and an interval that is not
   a number *)
Definition environ_sample : gmap string string :=
  <[ "RSS_URLS" := "https://a/rss,https://b/rss" ]>
    (<[ "CHECK_INTERVAL" := "soon" ]> ∅).

(* What the result of get_env_var may be for the type asked for, apart
   from the default *)
Definition of_type (environ : gmap string string) (name : string)
    (var_type : VarType) (v : PyVal) : Prop :=
  match var_type with
  | TStr => ∃ s, environ !! name = Some s ∧ v = PStr s
  | TInt => ∃ z, v = PInt z
  | TBool => ∃ b, v = PBool b
  | TList => ∃ l, v = PList l
  end.

(* --------------------------------------------------------------------- *)
(* ImageGenerator.generate_image: breaking the title into lines          *)
(* --------------------------------------------------------------------- *)

(* The pieces of [s] between the characters that pass the test *)
Fixpoint split_when (f : ascii → bool) (s : string) : list string :=
  match s with
  | EmptyString => [EmptyString]
  | String a rest =>
      if f a then EmptyString :: split_when f rest
      else match split_when f rest with
           | first :: others => String a first :: others
           | [] => [String a EmptyString]
           end
  end.

(* title.split(): the runs of characters that are not white space *)
Definition words (py : Builtins) (title : string) : list string :=
  filter (λ w, nonempty w = true) (split_when (isspace py) title).

(* What the drawing library decides: the width of a text in the font,
   text_bbox[2] - text_bbox[0], and the width to stay within,
   img.width - 100 *)
Record Canvas := {
  measure : string → Z;
  max_width : Z
}.

(* The loop "for word in words", with [lines] and [current_line] *)
Fixpoint wrap_loop (py : Builtins) (cv : Canvas) (ws : list string)
    (lines : list string) (current_line : string) : list string * string :=
  match ws with
  | [] => (lines, current_line)
  | word :: rest =>
      let test_line := current_line +:+ word +:+ " " in
      if (measure cv test_line <=? max_width cv)%Z
      then wrap_loop py cv rest lines test_line
      else
        let lines :=
          if nonempty current_line
          then lines ++ [strip py current_line] else lines in
        wrap_loop py cv rest lines (word +:+ " ")
  end.

(* The lines before they are limited *)
Definition wrap_title (py : Builtins) (cv : Canvas) (title : string)
  : list string :=
  let '(lines, current_line) := wrap_loop py cv (words py title) [] "" in
  if nonempty current_line then lines ++ [strip py current_line] else lines.

Definition max_lines : nat := 3.

(* "if len(lines) > max_lines": keep the first lines; a last line of
   more than 15 characters gets three dots for its last three
   characters. *)
Definition limit_lines (lines : list string) : list string :=
  if max_lines <? length lines then
    let lines := take max_lines lines in
    match last lines with
    | Some l =>
        if 15 <? String.length l
        then <[ length lines - 1 :=
                  substring 0 (String.length l - 3) l +:+ "..." ]> lines
        else lines
    | None => lines
    end
  else lines.

(* The words of a line under construction, each followed by a blank *)
Definition line_of (ws : list string) : string :=
  foldr (λ w acc, w +:+ " " +:+ acc) "" ws.

(* A word as title.split() gives it: not empty and without white space *)
Definition is_word (py : Builtins) (w : string) : Prop :=
  nonempty w = true ∧ all_chars (λ a, negb (isspace py a)) w = true.

(* A canvas on which a character is 10 wide and a line 200 *)
Definition canvas_sample : Canvas :=
  {| measure := λ s, (10 * Z.of_nat (String.length s))%Z;
     max_width := 200 |}.


(* ===================================================================== *)
(* The controller                                                        *)
(* ===================================================================== *)

Section Lifecycle.

Lemma start_when_running now p :
  is_running (controller p) = true → start now p = (false, p).
Proof. intros Hrun. unfold start. by rewrite Hrun. Qed.

Lemma start_when_stopped now p :
  is_running (controller p) = false →
  ∃ p', start now p = (true, p')
        ∧ is_running (controller p') = true
        ∧ stop_event (controller p') = false
        ∧ worker_thread (controller p') = Some (next_thread p)
        ∧ alive p' = next_thread p :: alive p.
Proof. intros Hrun. unfold start. rewrite Hrun. eexists. by repeat split. Qed.

Lemma stop_when_stopped exits p :
  is_running (controller p) = false → stop exits p = (false, p).
Proof. intros Hrun. unfold stop. by rewrite Hrun. Qed.

Lemma stop_when_running exits p :
  is_running (controller p) = true →
  ∃ p', stop exits p = (true, p')
        ∧ is_running (controller p') = false
        ∧ stop_event (controller p') = true.
Proof. intros Hrun. unfold stop. rewrite Hrun. eexists. by repeat split. Qed.

Lemma one_worker_act a p : joined a → one_worker p → one_worker (act a p).
Proof.
  unfold one_worker.
  destruct a as [now | exits | tid]; simpl; intros Hj Hp.
  - unfold start. destruct (is_running (controller p)) eqn:Hrun; simpl.
    + by rewrite Hrun.
    + rewrite Hp. eauto.
  - subst exits. unfold stop.
    destruct (is_running (controller p)) eqn:Hrun; simpl.
    + destruct Hp as (_ & tid & -> & ->).
      rewrite bool_decide_eq_true_2 by set_solver.
      simpl. rewrite filter_cons_False by naive_solver. done.
    + by rewrite Hrun.
  - unfold worker_checks.
    destruct (is_running (controller p)) eqn:Hrun; simpl.
    + destruct Hp as (Hs & Hp). rewrite Hs. simpl. rewrite Hrun. eauto.
    + rewrite Hrun. by rewrite Hp.
Qed.

Lemma one_worker_run actions p :
  Forall joined actions → one_worker p → one_worker (run actions p).
Proof.
  intros Hall. revert p.
  induction Hall as [| a actions Ha _ IH]; intros p Hp; [done |].
  apply IH. by apply one_worker_act.
Qed.

Lemma one_worker_alive p : one_worker p → length (alive p) ≤ 1.
Proof.
  unfold one_worker. destruct (is_running (controller p)).
  - intros (_ & tid & _ & ->). done.
  - intros ->. simpl. lia.
Qed.

(** C2, as amended.  start() on a running controller returns False and
    changes nothing, so no second worker is spawned; on a stopped
    controller it returns True, sets is_running, clears the stop event
    and spawns exactly one worker.  stop() on a stopped controller
    returns False and changes nothing; on a running one it returns True
    with the stop event set.  As long as every stop() sees the worker
    leave within the join timeout, at most one worker is alive after any
    sequence of start(), stop() and worker steps. *)
Theorem start_stop_exclusive :
  (∀ now p, is_running (controller p) = true → start now p = (false, p))
  ∧ (∀ now p, is_running (controller p) = false →
       ∃ p', start now p = (true, p')
             ∧ is_running (controller p') = true
             ∧ stop_event (controller p') = false
             ∧ alive p' = next_thread p :: alive p)
  ∧ (∀ exits p, is_running (controller p) = false →
       stop exits p = (false, p))
  ∧ (∀ exits p, is_running (controller p) = true →
       ∃ p', stop exits p = (true, p')
             ∧ is_running (controller p') = false
             ∧ stop_event (controller p') = true)
  ∧ (∀ actions, Forall joined actions →
       length (alive (run actions process0)) ≤ 1).
Proof.
  split; [apply start_when_running |].
  split.
  { intros now p Hrun.
    destruct (start_when_stopped now p Hrun) as (p' & ? & ? & ? & ? & ?).
    eauto 6. }
  split; [apply stop_when_stopped |].
  split; [apply stop_when_running |].
  intros actions Hall. apply one_worker_alive, one_worker_run; [done |].
  unfold one_worker. done.
Qed.

Lemma start_stop_exclusive_witness :
  start 7 (start 0 process0).2 = (false, (start 0 process0).2)
  ∧ length (alive (run [DoStart 0; DoStart 7; DoStop true; DoStart 9]
                       process0)) ≤ 1.
Proof.
  destruct start_stop_exclusive as (Hrunning & _ & _ & _ & Hone).
  split.
  - apply Hrunning. reflexivity.
  - apply Hone. repeat constructor.
Defined.

(** C2, as stated, fails: when stop() gives up the join after its
    timeout and start() follows, the old worker and the new one are both
    alive. *)
Lemma second_worker_after_timeout :
  ¬ (length (alive (run [DoStart 0; DoStop false; DoStart 6] process0)) ≤ 1).
Proof. vm_compute. lia. Qed.

(* The old worker does not leave afterwards either: start() has cleared
   the stop event and set is_running again. *)
Lemma old_worker_stays :
  alive (run [DoStart 0; DoStop false; DoStart 6; WorkerChecks 0] process0)
  = [1; 0].
Proof. reflexivity. Qed.

(* ------------------------- statistics -------------------------------- *)

Lemma record_start_fields now s :
  let s' := record_start now s in
  start_time s' = Some now ∧ last_check s' = None ∧ posts_sent s' = 0
  ∧ errors s' = 0 ∧ yagpt_used s' = 0 ∧ yagpt_errors s' = 0
  ∧ images_generated s' = 0 ∧ last_post s' = last_post s.
Proof. by repeat split. Qed.

Lemma start_resets_counters now p :
  is_running (controller p) = false →
  let s' := p_stats (start now p).2 in
  start_time s' = Some now ∧ last_check s' = None ∧ posts_sent s' = 0
  ∧ errors s' = 0 ∧ yagpt_used s' = 0 ∧ yagpt_errors s' = 0
  ∧ images_generated s' = 0.
Proof. intros Hrun. unfold start. rewrite Hrun. by repeat split. Qed.

(** C5: start() on a stopped controller whose previous run has posted
    returns True and resets the five counters, start_time and
    last_check, but last_post still holds the time of the previous run's
    last post. *)
Theorem start_keeps_last_post :
  (start 100 stopped_after_run).1 = true
  ∧ posts_sent (p_stats (start 100 stopped_after_run).2) = 0
  ∧ errors (p_stats (start 100 stopped_after_run).2) = 0
  ∧ images_generated (p_stats (start 100 stopped_after_run).2) = 0
  ∧ yagpt_used (p_stats (start 100 stopped_after_run).2) = 0
  ∧ yagpt_errors (p_stats (start 100 stopped_after_run).2) = 0
  ∧ start_time (p_stats (start 100 stopped_after_run).2) = Some 100
  ∧ last_check (p_stats (start 100 stopped_after_run).2) = None
  ∧ last_post (p_stats (start 100 stopped_after_run).2) = Some 80.
Proof. by repeat split. Qed.

End Lifecycle.

(* ===================================================================== *)
(* The worker                                                            *)
(* ===================================================================== *)

(* Splits off the events a step has put in front of the old ones. *)
Ltac new_events :=
  split; [reflexivity |];
  first [ by exists []
        | eexists [_]; split; [reflexivity | by repeat constructor]
        | eexists [_; _]; split; [reflexivity | by repeat constructor]
        | eexists [_; _; _]; split; [reflexivity | by repeat constructor] ].

(* Turns what a case analysis has learnt about [negb b] into a fact
   about [b], and uses it. *)
Ltac flip_negb :=
  repeat match goal with
         | H : negb ?b = false |- _ =>
             apply negb_false_iff in H; try rewrite H
         | H : negb ?b = true |- _ =>
             apply negb_true_iff in H; try rewrite H
         end.

Section Frames.

Context (env : Env) (cfg : Config).

Lemma extends_refl P w : extends P w w.
Proof. split; [done |]. by exists []. Qed.

Lemma extends_trans P w1 w2 w3 :
  extends P w1 w2 → extends P w2 w3 → extends P w1 w3.
Proof.
  intros (Hs1 & new1 & He1 & Hn1) (Hs2 & new2 & He2 & Hn2).
  split; [congruence |].
  exists (new2 ++ new1). split.
  - rewrite He2, He1. by rewrite app_assoc.
  - by apply Forall_app.
Qed.

Lemma extends_weaken (P Q : Event → Prop) w w' :
  (∀ e, P e → Q e) → extends P w w' → extends Q w w'.
Proof.
  intros HPQ (Hs & new & He & Hn). split; [done |].
  exists new. split; [done |]. eapply Forall_impl; eauto.
Qed.

Lemma silent_attempt l e : silent e → attempt l e.
Proof. by left. Qed.

Lemma generate_image_extends title w :
  extends silent w (generate_image env title w).2.
Proof. unfold generate_image. case_match; simpl; new_events. Qed.

Lemma enhance_with_yagpt_extends title description w :
  extends silent w (enhance_with_yagpt env cfg title description w).2.
Proof. unfold enhance_with_yagpt. repeat case_match; simpl; new_events. Qed.

Lemma enhance_step_extends title description w :
  extends silent w (enhance_step env cfg title description w).2.
Proof.
  unfold enhance_step.
  destruct (yagpt_configured cfg); [| apply extends_refl].
  pose proof (enhance_with_yagpt_extends title description w) as Hx.
  destruct (enhance_with_yagpt env cfg title description w) as [[enh |] w1];
    simpl in Hx; [| done].
  eapply extends_trans; [exact Hx |].
  case_match; simpl; new_events.
Qed.

Lemma image_step_extends title original_title w :
  extends silent w (image_step env title original_title w).2.
Proof.
  unfold image_step. case_match; [| apply extends_refl].
  match goal with |- context [generate_image env ?t w] =>
    pose proof (generate_image_extends t w) as Hx;
    destruct (generate_image env t w) as [[p |] w1] end;
    simpl in Hx; (eapply extends_trans; [exact Hx |]);
    repeat case_match; simpl; new_events.
Qed.

Lemma format_message_extends entry w :
  extends silent w (format_message env cfg entry w).2.
Proof.
  unfold format_message.
  match goal with |- context [enhance_step env cfg ?t ?d w] =>
    pose proof (enhance_step_extends t d w) as H1;
    destruct (enhance_step env cfg t d w) as [[t' d'] w1] end.
  destruct (shorten d') as [d'' |]; [| done].
  match goal with |- context [image_step env ?t ?o w1] =>
    pose proof (image_step_extends t o w1) as H2;
    destruct (image_step env t o w1) as [ip w2] end.
  simpl in *. by eapply extends_trans.
Qed.

Lemma format_message_stats entry w :
  let w' := (format_message env cfg entry w).2 in
  errors (stats w') = errors (stats w)
  ∧ posts_sent (stats w') = posts_sent (stats w)
  ∧ last_post (stats w') = last_post (stats w).
Proof.
  unfold format_message, enhance_step, enhance_with_yagpt, image_step,
    generate_image.
  repeat (case_match; simplify_eq/=); done.
Qed.

Lemma sends_app new old : sends (new ++ old) = sends old ++ sends new.
Proof.
  induction new as [| e new IH]; simpl; [by rewrite app_nil_r |].
  destruct e; rewrite ?IH, ?app_assoc; done.
Qed.

Lemma sends_silent new : Forall silent new → sends new = [].
Proof.
  induction 1 as [| e new He _ IH]; [done |].
  destruct e; simpl in *; done.
Qed.

Lemma extends_silent_sends w w' :
  extends silent w w' → sends (events w') = sends (events w).
Proof.
  intros (_ & new & -> & Hn).
  by rewrite sends_app, (sends_silent new), app_nil_r.
Qed.

Lemma publish_extends l message image_path w :
  extends (attempt l) w (publish env cfg l message image_path w).2.
Proof.
  unfold publish, try_send_photo, send_message.
  repeat (case_match; simplify_eq/=);
    (split; [reflexivity |]);
    first [ eexists [_]; split; [reflexivity |]
          | eexists [_; _]; split; [reflexivity |]
          | eexists [_; _; _]; split; [reflexivity |] ];
    repeat constructor; by (left + right).
Qed.

Lemma publish_stats l message image_path w :
  stats (publish env cfg l message image_path w).2 = stats w.
Proof.
  unfold publish, try_send_photo, send_message.
  repeat (case_match; simplify_eq/=); done.
Qed.

(* One entry takes one Telegram call, or two: a photo and then a text *)
Lemma publish_sends l message image_path w :
  ∃ calls, (calls = [l] ∨ calls = [l; l])
    ∧ sends (events (publish env cfg l message image_path w).2)
      = sends (events w) ++ calls.
Proof.
  unfold publish, try_send_photo, send_message.
  repeat (case_match; simplify_eq/=); rewrite <- ?app_assoc; simpl; eauto.
Qed.

(* When the sending part completes, one of its calls has returned *)
Lemma publish_delivered l message image_path w :
  (publish env cfg l message image_path w).1 = true →
  ∃ new, events (publish env cfg l message image_path w).2 = new ++ events w
         ∧ Exists (delivered l) new.
Proof.
  unfold publish, try_send_photo, send_message.
  repeat (case_match; simplify_eq/=); intros Hok; flip_negb;
    first [ eexists [_]; split; [reflexivity |]
          | eexists [_; _]; split; [reflexivity |]
          | eexists [_; _; _]; split; [reflexivity |] ];
    rewrite ?Hok;
    first [ by apply Exists_cons_hd
          | by apply Exists_cons_tl, Exists_cons_hd ].
Qed.

Lemma publish_completes l message image_path w :
  (∀ t, send_message_ok env t = true) →
  (publish env cfg l message image_path w).1 = true.
Proof.
  intros Hsend. unfold publish, try_send_photo, send_message.
  repeat (case_match; simplify_eq/=); rewrite ?Hsend; done.
Qed.

(* ------------------------- de-duplication ---------------------------- *)

Lemma attempt_not_posted l l' e : attempt l e → e ≠ Log INFO (MsgPosted l').
Proof. intros [Hs | Hp] ->; simpl in *; done. Qed.

Lemma attempt_concerns l l' e : attempt l e → concerns l' e → l' = l.
Proof.
  intros Ha [Hp | ->].
  - destruct Ha as [Hs | Hl]; destruct e; simpl in *;
      first [done | congruence].
  - by destruct (attempt_not_posted l l' _ Ha).
Qed.

Lemma posted_in_attempts l l' new old :
  Forall (attempt l) new →
  Log INFO (MsgPosted l') ∈ new ++ old → Log INFO (MsgPosted l') ∈ old.
Proof.
  intros Hnew [Hin | Hin]%elem_of_app; [| done].
  rewrite Forall_forall in Hnew.
  by destruct (attempt_not_posted l l' _ (Hnew _ Hin)).
Qed.

Lemma well_ordered_attempts l new old :
  Forall (attempt l) new → Log INFO (MsgPosted l) ∉ old →
  well_ordered old → well_ordered (new ++ old).
Proof.
  intros Hnew Hfresh Hold.
  induction Hnew as [| e new He Hnew IH]; simpl; [done |].
  split; [| done]. split.
  - intros l' Hc Hin. rewrite (attempt_concerns l l' e He Hc) in Hin.
    by apply Hfresh, (posted_in_attempts l l new old).
  - intros l' ->. by destruct (attempt_not_posted l l' _ He).
Qed.

Lemma well_ordered_silent new old :
  Forall silent new → well_ordered old → well_ordered (new ++ old).
Proof.
  intros Hnew Hold.
  induction Hnew as [| e new He Hnew IH]; simpl; [done |].
  split; [| done]. split.
  - intros l [Hp | ->]; [destruct e |]; simpl in *; done.
  - intros l ->. done.
Qed.

Lemma dedup_same w w' :
  sent_entries w' = sent_entries w → events w' = events w →
  dedup w → dedup w'.
Proof. unfold dedup. by intros -> ->. Qed.

Lemma dedup_silent w w' : extends silent w w' → dedup w → dedup w'.
Proof.
  intros (Hs & new & He & Hnew) [Hiff Hord]. unfold dedup.
  rewrite Hs, He. split.
  - intros l. rewrite Hiff. split.
    + intros Hin. apply elem_of_app. by right.
    + apply (posted_in_attempts l l new).
      eapply Forall_impl; [exact Hnew |]. apply silent_attempt.
  - by apply well_ordered_silent.
Qed.

Lemma dedup_attempts l w w' :
  l ∉ sent_entries w → extends (attempt l) w w' → dedup w → dedup w'.
Proof.
  intros Hfresh (Hs & new & He & Hnew) [Hiff Hord]. unfold dedup.
  rewrite Hs, He. split.
  - intros l'. rewrite Hiff. split.
    + intros Hin. apply elem_of_app. by right.
    + by apply (posted_in_attempts l l' new).
  - apply (well_ordered_attempts l); [done | | done]. by rewrite <- Hiff.
Qed.

(* The step that records an entry: its calls, then the "Posted" line *)
Lemma dedup_posted l w w2 w3 :
  l ∉ sent_entries w → extends (attempt l) w w2 →
  (∃ new, events w2 = new ++ events w ∧ Exists (delivered l) new) →
  sent_entries w3 = {[ l ]} ∪ sent_entries w2 →
  events w3 = Log INFO (MsgPosted l) :: events w2 →
  dedup w → dedup w3.
Proof.
  intros Hfresh Hext (new' & He' & Hdel) Hs3 He3 Hw.
  pose proof (dedup_attempts l w w2 Hfresh Hext Hw) as [Hiff2 Hord2].
  destruct Hext as (Hs2 & new & He2 & Hnew). destruct Hw as [Hiff Hord].
  unfold dedup. rewrite Hs3, He3. split.
  - intros l'. rewrite elem_of_union, elem_of_singleton, elem_of_cons, Hiff2.
    split; intros [Heq | Hin]; auto; [by left; subst | left; congruence].
  - simpl. split; [| done]. split.
    + intros l' [[] | Heq]. simplify_eq. rewrite <- Hiff2, Hs2. done.
    + intros l' Heq. simplify_eq. rewrite He'.
      apply Exists_app. by left.
Qed.

Lemma format_message_clock entry w :
  clock w ≤ clock (format_message env cfg entry w).2.
Proof.
  unfold format_message, enhance_step, enhance_with_yagpt, image_step,
    generate_image.
  repeat (case_match; simplify_eq/=); lia.
Qed.

(* A wait that returns has only let time pass *)
Lemma stop_event_wait_some timeout w w' :
  stop_event_wait env timeout w = Some w' →
  w' = advance (wait_elapsed env (Z.to_nat timeout) (clock w)) w.
Proof. unfold stop_event_wait. case_match; congruence. Qed.

Lemma publish_clock l message image_path w :
  clock w ≤ clock (publish env cfg l message image_path w).2.
Proof.
  unfold publish, try_send_photo, send_message.
  repeat (case_match; simplify_eq/=); lia.
Qed.

(* The try of an entry either comes to its end, after a Telegram call
   that returned, or is left for its except. *)
Lemma post_entry_cases l entry w :
  ∃ w2,
    extends (attempt l) w w2
    ∧ clock w ≤ clock w2
    ∧ errors (stats w2) = errors (stats w)
    ∧ posts_sent (stats w2) = posts_sent (stats w)
    ∧ last_post (stats w2) = last_post (stats w)
    ∧ ((post_entry env cfg l entry w = record_post l w2
        ∧ ∃ new, events w2 = new ++ events w ∧ Exists (delivered l) new)
       ∨ post_entry env cfg l entry w
         = set_stats incr_errors (logger ERROR MsgSendError w2)).
Proof.
  unfold post_entry.
  pose proof (format_message_extends entry w) as Hf.
  pose proof (format_message_stats entry w) as (Herr & Hposts & Hlast).
  pose proof (format_message_clock entry w) as Hclock.
  destruct (format_message env cfg entry w) as [[[message image_path] |] w1];
    simpl in *.
  - pose proof (publish_extends l message image_path w1) as Hp.
    pose proof (publish_delivered l message image_path w1) as Hd.
    pose proof (publish_stats l message image_path w1) as Hst.
    pose proof (publish_clock l message image_path w1) as Hc.
    destruct (publish env cfg l message image_path w1) as [ok w2].
    simpl in *. exists w2. rewrite Hst.
    split.
    { eapply extends_trans; [| exact Hp].
      eapply extends_weaken; [| exact Hf]. apply silent_attempt. }
    split; [lia |]. do 3 (split; [done |]).
    destruct ok; [left | by right]. split; [done |].
    destruct Hf as (_ & new1 & He1 & _).
    destruct (Hd eq_refl) as (new2 & He2 & Hdel).
    exists (new2 ++ new1). split.
    + rewrite He2, He1. by rewrite app_assoc.
    + apply Exists_app. by left.
  - exists w1. split.
    { eapply extends_weaken; [| exact Hf]. apply silent_attempt. }
    do 4 (split; [done |]). by right.
Qed.

Lemma process_entry_skip entry w :
  (e_link entry = None ∨ ∃ l, e_link entry = Some l ∧ l ∈ sent_entries w) →
  process_entry env cfg entry w = w.
Proof.
  unfold process_entry. intros [-> | (l & -> & Hin)]; [done |].
  by rewrite decide_True.
Qed.

Lemma process_entry_new entry l w :
  e_link entry = Some l → l ∉ sent_entries w →
  process_entry env cfg entry w = post_entry env cfg l entry w.
Proof. intros Hl Hfresh. unfold process_entry. by rewrite Hl, decide_False. Qed.

Lemma post_entry_dedup l entry w :
  l ∉ sent_entries w → dedup w → dedup (post_entry env cfg l entry w).
Proof.
  intros Hfresh Hw.
  destruct (post_entry_cases l entry w)
    as (w2 & Hext & _ & _ & _ & _ & [[-> Hdel] | ->]).
  - by apply (dedup_posted l w w2).
  - apply (dedup_attempts l w); [done | | done].
    eapply extends_trans; [exact Hext |]. simpl. new_events.
Qed.

Lemma process_entry_dedup entry w :
  dedup w → dedup (process_entry env cfg entry w).
Proof.
  intros Hw. unfold process_entry.
  destruct (e_link entry) as [l |]; [| done].
  destruct (decide (l ∈ sent_entries w)) as [| Hfresh]; [done |].
  by apply post_entry_dedup.
Qed.

End Frames.

(* A step that only logs, counts or waits keeps the invariant. *)
Ltac keeps_dedup w :=
  apply (dedup_silent w); [simpl; new_events | done].

Section Loops.

Context (env : Env) (cfg : Config).

Lemma process_entries_dedup entries w :
  dedup w → dedup (process_entries env cfg entries w).
Proof.
  revert w. induction entries as [| entry rest IH]; intros w Hw; simpl.
  - done.
  - case_match; [done |]. by apply IH, process_entry_dedup.
Qed.

Lemma process_feed_dedup url w : dedup w → dedup (process_feed env cfg url w).
Proof.
  intros Hw. unfold process_feed.
  destruct (feed_parse env (clock w) url) as [[| e entries] |].
  - keeps_dedup w.
  - apply process_entries_dedup. keeps_dedup w.
  - keeps_dedup w.
Qed.

Lemma process_feeds_dedup urls w :
  dedup w → dedup (process_feeds env cfg urls w).
Proof.
  revert w. induction urls as [| url rest IH]; intros w Hw; simpl.
  - done.
  - case_match; [done |]. by apply IH, process_feed_dedup.
Qed.

Lemma cycle_dedup w : dedup w → dedup (cycle env cfg w).
Proof.
  intros Hw. unfold cycle.
  case_match; [keeps_dedup w |].
  match goal with |- context [process_feeds env cfg ?us ?w0] =>
    assert (dedup (process_feeds env cfg us w0)) as Hsweep
      by (apply process_feeds_dedup; keeps_dedup w);
    set (ws := process_feeds env cfg us w0) in * end.
  case_match; [unfold cooldown; keeps_dedup ws |].
  destruct (stop_event_wait env _ _) as [w' |] eqn:Hwait;
    [apply stop_event_wait_some in Hwait as -> | unfold cooldown];
    keeps_dedup ws.
Qed.

Lemma rss_while_dedup fuel w :
  dedup w → dedup (rss_while env cfg fuel w).1.
Proof.
  revert w. induction fuel as [| fuel IH]; intros w Hw; simpl.
  - case_match; [done | keeps_dedup w].
  - case_match; [by apply IH, cycle_dedup | keeps_dedup w].
Qed.

Lemma rss_loop_dedup fuel w : dedup w → dedup (rss_loop env cfg fuel w).1.
Proof.
  intros Hw. apply rss_while_dedup. keeps_dedup w.
Qed.

End Loops.

Lemma world0_dedup : dedup world0.
Proof. split; [| done]. intros l. simpl. set_solver. Qed.

Lemma lifetime_dedup cfg activations w :
  dedup w → dedup (lifetime cfg activations w).
Proof.
  revert w. induction activations as [| [env fuel] rest IH]; intros w Hw.
  - done.
  - apply IH. by apply rss_loop_dedup.
Qed.

(* The invariant, read along the list of events *)
Lemma well_ordered_split evs newer e older :
  well_ordered evs → evs = newer ++ e :: older →
  in_order e older ∧ ∀ e', e' ∈ newer → ∃ between, in_order e' (between ++ e :: older).
Proof.
  revert evs. induction newer as [| n newer IH]; intros evs Hord ->.
  - destruct Hord as [He _]. split; [done |]. intros e' Hin. set_solver.
  - destruct Hord as [Hn Hord].
    destruct (IH _ Hord eq_refl) as [He Hnewer].
    split; [done |]. intros e' [-> | Hin]%elem_of_cons; eauto.
Qed.

Section Entries.

Context (env : Env) (cfg : Config).

(* The Telegram calls of the try: none when the formatting raises, else
   one, or two (a photo and then a text) *)
Lemma post_entry_sends l entry w :
  ∃ calls, (calls = [] ∨ calls = [l] ∨ calls = [l; l])
    ∧ sends (events (post_entry env cfg l entry w))
      = sends (events w) ++ calls
    ∧ ((format_message env cfg entry w).1 = None ↔ calls = []).
Proof.
  unfold post_entry.
  pose proof (format_message_extends env cfg entry w) as Hf.
  destruct (format_message env cfg entry w) as [[[message image_path] |] w1];
    simpl in Hf; apply extends_silent_sends in Hf; simpl.
  - destruct (publish_sends env cfg l message image_path w1)
      as (calls & Hcalls & Hs).
    exists calls. split; [by right |].
    split; [| by destruct Hcalls as [-> | ->]].
    destruct (publish env cfg l message image_path w1) as [[] w2];
      simpl in *; by rewrite Hs, Hf.
  - exists []. split; [by left |]. by rewrite app_nil_r, Hf.
Qed.

Lemma process_entry_sends entry l w :
  e_link entry = Some l → l ∉ sent_entries w →
  ∃ calls, (calls = [] ∨ calls = [l] ∨ calls = [l; l])
    ∧ sends (events (process_entry env cfg entry w))
      = sends (events w) ++ calls
    ∧ ((format_message env cfg entry w).1 = None ↔ calls = []).
Proof.
  intros Hl Hfresh. rewrite (process_entry_new env cfg entry l w) by done.
  apply post_entry_sends.
Qed.

(* sent_entries grows by the link of the entry at most *)
Lemma post_entry_sent l entry w :
  sent_entries (post_entry env cfg l entry w) = sent_entries w
  ∨ sent_entries (post_entry env cfg l entry w) = {[ l ]} ∪ sent_entries w.
Proof.
  destruct (post_entry_cases env cfg l entry w)
    as (w2 & (Hs & _) & _ & _ & _ & _ & [[-> _] | ->]); simpl; rewrite Hs;
    by (left + right).
Qed.

Lemma process_entry_sent entry w l :
  l ∈ sent_entries (process_entry env cfg entry w) →
  l ∈ sent_entries w ∨ e_link entry = Some l.
Proof.
  unfold process_entry.
  destruct (e_link entry) as [l0 |]; [| by left].
  destruct (decide (l0 ∈ sent_entries w)); [by left |].
  destruct (post_entry_sent l0 entry w) as [-> | ->]; [by left |].
  rewrite elem_of_union, elem_of_singleton.
  intros [-> | Hin]; [by right | by left].
Qed.

(* With a formatting that returns and a Telegram text call that never
   raises, the try comes to its end *)
Lemma post_entry_posts l entry w :
  (∀ t, send_message_ok env t = true) →
  (format_message env cfg entry w).1 ≠ None →
  ∃ w2, post_entry env cfg l entry w = record_post l w2
    ∧ extends (attempt l) w w2
    ∧ errors (stats w2) = errors (stats w)
    ∧ posts_sent (stats w2) = posts_sent (stats w)
    ∧ ∃ new, events w2 = new ++ events w ∧ Exists (delivered l) new.
Proof.
  intros Hsend Hformat.
  destruct (post_entry_cases env cfg l entry w)
    as (w2 & Hext & _ & Herr & Hposts & _ & [[Hp Hdel] | Hfail]).
  { exists w2. do 4 (split; [done |]). done. }
  exfalso. revert Hfail Hformat. unfold post_entry.
  destruct (format_message env cfg entry w) as [[[message image_path] |] w1];
    [| done].
  intros Hfail _.
  pose proof (publish_completes env cfg l message image_path w1 Hsend) as Hok.
  destruct (publish env cfg l message image_path w1) as [ok w3].
  simpl in Hok. subst ok.
  apply (f_equal events) in Hfail. simpl in Hfail. discriminate.
Qed.

Lemma process_entry_posts entry l w :
  (∀ t, send_message_ok env t = true) →
  (format_message env cfg entry w).1 ≠ None →
  e_link entry = Some l → l ∉ sent_entries w →
  let w' := process_entry env cfg entry w in
  errors (stats w') = errors (stats w)
  ∧ posts_sent (stats w') = S (posts_sent (stats w))
  ∧ l ∈ sent_entries w'
  ∧ ∃ new, events w' = Log INFO (MsgPosted l) :: new ++ events w
           ∧ Exists (delivered l) new.
Proof.
  intros Hsend Hformat Hl Hfresh.
  rewrite (process_entry_new env cfg entry l w) by done.
  destruct (post_entry_posts l entry w Hsend Hformat)
    as (w2 & -> & _ & Herr & Hposts & new & Hev & Hdel).
  simpl. rewrite Herr, Hposts. repeat split; [set_solver |].
  exists new. by rewrite Hev.
Qed.

End Entries.

(* ------------------------- C1 ---------------------------------------- *)

(** C1, as amended.  While the activations of the worker follow one
    another (any number of them, in any environment): a link is in
    sent_entries exactly when its "Posted" line has been logged; that
    line comes after a Telegram call for the entry that returned, and
    after it there is no further call for the entry and no second
    "Posted" line.  An entry without a link, or whose link is in
    sent_entries, is skipped without any effect; a new entry takes no
    Telegram call when the formatting raises, and otherwise one, or two
    (the photo and then the text). *)
Theorem recorded_entries_not_republished cfg activations :
  let w := lifetime cfg activations world0 in
  (∀ l, l ∈ sent_entries w ↔ Log INFO (MsgPosted l) ∈ events w)
  ∧ (∀ l newer older,
       events w = newer ++ Log INFO (MsgPosted l) :: older →
       Exists (delivered l) older ∧ ∀ e, e ∈ newer → ¬ concerns l e)
  ∧ (∀ env entry w0,
       (e_link entry = None
        ∨ ∃ l, e_link entry = Some l ∧ l ∈ sent_entries w0) →
       process_entry env cfg entry w0 = w0)
  ∧ (∀ env entry l w0,
       e_link entry = Some l → l ∉ sent_entries w0 →
       ∃ calls, (calls = [] ∨ calls = [l] ∨ calls = [l; l])
         ∧ sends (events (process_entry env cfg entry w0))
           = sends (events w0) ++ calls
         ∧ ((format_message env cfg entry w0).1 = None ↔ calls = [])).
Proof.
  intros w.
  destruct (lifetime_dedup cfg activations world0 world0_dedup)
    as [Hiff Hord].
  split; [done |]. split; [| split].
  - intros l newer older Hsplit.
    destruct (well_ordered_split _ _ _ _ Hord Hsplit) as [[_ Hdel] Hnewer].
    split; [by apply Hdel |].
    intros e Hin Hc. destruct (Hnewer e Hin) as (between & Hfinal & _).
    apply (Hfinal l Hc). apply elem_of_app. right. by apply elem_of_cons; left.
  - intros env entry w0. apply process_entry_skip.
  - intros env entry l w0. apply process_entry_sends.
Qed.

Lemma recorded_entries_not_republished_witness :
  "https://a/1" ∈ sent_entries (lifetime cfg_plain [(env_three, 1)] world0)
  ∧ process_entry env_three cfg_plain E1
      (process_entry env_three cfg_plain E1 world0)
    = process_entry env_three cfg_plain E1 world0
  ∧ ∃ calls,
      (calls = [] ∨ calls = ["https://a/1"]
       ∨ calls = ["https://a/1"; "https://a/1"])
      ∧ sends (events (process_entry env_photo_fails cfg_plain E1 world0))
        = sends (events world0) ++ calls
      ∧ ((format_message env_photo_fails cfg_plain E1 world0).1 = None
         ↔ calls = []).
Proof.
  destruct (recorded_entries_not_republished cfg_plain [(env_three, 1)])
    as (Hrecorded & _ & Hskip & Hnew).
  split; [| split].
  - apply Hrecorded. vm_compute. repeat constructor.
  - apply Hskip. right. exists "https://a/1". split; [reflexivity |].
    refine (bool_decide_unpack _ _). vm_compute. exact I.
  - apply Hnew; [reflexivity | apply not_elem_of_empty].
Defined.

(* When the photo call raises, the text call that follows is a second
   publish of the same entry. *)
Lemma photo_then_text_publishes_twice :
  ¬ NoDup (sends (events (process_entry env_photo_fails cfg_plain E1 world0))).
Proof.
  assert (sends (events (process_entry env_photo_fails cfg_plain E1 world0))
          = ["https://a/1"; "https://a/1"]) as -> by (vm_compute; reflexivity).
  intros Hnd. apply NoDup_cons in Hnd as [Hnotin _]. set_solver.
Qed.

(* ------------------------- two workers ------------------------------- *)

Section Race.

Context (env : Env) (cfg : Config).

Lemma interleave_idle n b w :
  interleave env cfg (replicate n true) (begin_pass []) b w
  = (begin_pass [], b, w).
Proof. induction n as [| n IH]; simpl; [done | exact IH]. Qed.

Lemma interleave_first n a b w :
  interleave env cfg (replicate (S n) true) a b w
  = interleave env cfg (replicate n true) (step_pass env cfg a w).1 b
      (step_pass env cfg a w).2.
Proof. simpl. by destruct (step_pass env cfg a w). Qed.

(* A worker that is not interrupted goes through its entries as
   process_entries has it. *)
Lemma alone_is_process_entries entries b w n :
  2 * length entries ≤ n →
  interleave env cfg (replicate n true) (begin_pass entries) b w
  = (begin_pass [], b, process_entries env cfg entries w).
Proof.
  revert w n. induction entries as [| entry rest IH]; intros w n Hn.
  - apply interleave_idle.
  - destruct n as [| [| n]]; simpl in Hn; [lia.. |].
    rewrite interleave_first. unfold step_pass at 1 2.
    cbn [todo tested begin_pass process_entries].
    destruct (stop_is_set env (clock w)); [apply interleave_idle |].
    unfold process_entry.
    destruct (e_link entry) as [l |]; [| apply IH; lia].
    destruct (decide (l ∈ sent_entries w)); [apply IH; lia |].
    cbn [fst snd]. rewrite interleave_first. unfold step_pass at 1 2.
    cbn [todo tested fst snd]. apply IH. lia.
Qed.

End Race.

(* Both workers test the link of E1 before either has recorded it: the
   second publish comes after the "Posted" line of the first, two posts
   are counted and one link is recorded. *)
Lemma two_workers_publish_after_record :
  let w := (interleave env_three cfg_plain [true; false; true; false]
              (begin_pass [E1]) (begin_pass [E1]) world0).2 in
  (∃ e newer older,
     events w = newer ++ Log INFO (MsgPosted "https://a/1") :: older
     ∧ e ∈ newer ∧ publishes "https://a/1" e)
  ∧ sends (events w) = ["https://a/1"; "https://a/1"]
  ∧ posts_sent (stats w) = 2
  ∧ size (sent_entries w) = 1.
Proof.
  split; [| by vm_compute].
  eexists _, [_; _; _; _; _], [_; _; _; _].
  split; [vm_compute; reflexivity |].
  split; [apply elem_of_cons; right; apply elem_of_cons; by left |].
  reflexivity.
Qed.

(** C1, as stated, fails, in two ways.  Within one entry: when the photo
    call raises, the text call that follows is a second publish of the
    same entry.  Within one process: when two workers are alive and both
    test a link before either has recorded it, the link is published
    again after its "Posted" line. *)
Lemma entry_published_twice :
  ¬ NoDup (sends (events (process_entry env_photo_fails cfg_plain E1 world0)))
  ∧ ∃ e newer older,
      events (interleave env_three cfg_plain [true; false; true; false]
                (begin_pass [E1]) (begin_pass [E1]) world0).2
      = newer ++ Log INFO (MsgPosted "https://a/1") :: older
      ∧ e ∈ newer ∧ publishes "https://a/1" e.
Proof.
  split; [apply photo_then_text_publishes_twice |].
  apply two_workers_publish_after_record.
Qed.

(* ------------------------- one feed ---------------------------------- *)

Section Feeds.

Context (env : Env) (cfg : Config).

(* Without the enhancer the formatting returns *)
Lemma format_message_plain entry w :
  yagpt_configured cfg = false → (format_message env cfg entry w).1 ≠ None.
Proof.
  intros Hcfg. unfold format_message, enhance_step. rewrite Hcfg. simpl.
  by destruct (image_step env _ _ w).
Qed.

Lemma process_entry_keeps entry w :
  sent_entries w ⊆ sent_entries (process_entry env cfg entry w).
Proof.
  unfold process_entry.
  destruct (e_link entry) as [l |]; [| done].
  destruct (decide (l ∈ sent_entries w)); [done |].
  destruct (post_entry_sent env cfg l entry w) as [-> | ->];
    [done | apply union_subseteq_r].
Qed.

Lemma no_calls seen (batch : list Entry) :
  Forall2 (calls_of seen) batch (replicate (length batch) [])
  ∧ concat (replicate (length batch) ([] : list string)) = [].
Proof.
  induction batch as [| entry rest [IH1 IH2]]; simpl; [by split |].
  split; [| done]. constructor; [by left | done].
Qed.

(* Whatever the stop event, the enhancer and the Telegram API do: the
   calls of a pass are those of its entries, entry after entry. *)
Lemma process_entries_calls seen batch w :
  seen ⊆ sent_entries w →
  ∃ calls, Forall2 (calls_of seen) batch calls
    ∧ sends (events (process_entries env cfg batch w))
      = sends (events w) ++ concat calls.
Proof.
  revert w. induction batch as [| entry rest IH]; intros w Hseen.
  - exists []. split; [constructor | by rewrite app_nil_r].
  - cbn [process_entries]. destruct (stop_is_set env (clock w)).
    { destruct (no_calls seen (entry :: rest)) as [Hnone Hconcat].
      eexists. split; [exact Hnone |]. by rewrite Hconcat, app_nil_r. }
    destruct (e_link entry) as [l |] eqn:Hl.
    2: { destruct (IH w Hseen) as (calls & Hcalls & Hs).
         rewrite process_entry_skip by (by left).
         exists ([] :: calls). split; [constructor; [by left | done] | done]. }
    destruct (decide (l ∈ sent_entries w)) as [Hin | Hfresh].
    { destruct (IH w Hseen) as (calls & Hcalls & Hs).
      rewrite process_entry_skip by (right; eauto).
      exists ([] :: calls). split; [constructor; [by left | done] | done]. }
    destruct (IH (process_entry env cfg entry w)) as (calls & Hcalls & Hs).
    { etrans; [exact Hseen | apply process_entry_keeps]. }
    destruct (process_entry_sends env cfg entry l w Hl Hfresh)
      as (c & Hc & Hsc & _).
    exists (c :: calls). split.
    + constructor; [| done].
      destruct Hc as [-> | Hc]; [by left | right].
      exists l. split; [done |]. split; [| done].
      intros Hin. by apply Hfresh, Hseen.
    + rewrite Hs, Hsc. simpl. by rewrite app_assoc.
Qed.

Lemma posted_app new old : posted (new ++ old) = posted old ++ posted new.
Proof.
  induction new as [| e new IH]; simpl; [by rewrite app_nil_r |].
  destruct e as [lvl [] | |]; rewrite ?IH, ?app_assoc; done.
Qed.

Lemma posted_attempts l new : Forall (attempt l) new → posted new = [].
Proof.
  induction 1 as [| e new He _ IH]; [done |].
  destruct He as [He | He]; destruct e as [lvl [] | |]; simpl in *; done.
Qed.

(* With the stop event clear, a formatting that returns and a text call
   that goes through, the entries that are new when their turn comes
   are posted, one after the other. *)
Lemma process_entries_posts batch w :
  (∀ t, stop_is_set env t = false) →
  (∀ t, send_message_ok env t = true) →
  (∀ entry w0, (format_message env cfg entry w0).1 ≠ None) →
  let w' := process_entries env cfg batch w in
  posted (events w') = posted (events w) ++ new_links (sent_entries w) batch
  ∧ sent_entries w'
    = sent_entries w ∪ list_to_set (new_links (sent_entries w) batch)
  ∧ ∃ calls,
      Forall2 (λ l c, c = [l] ∨ c = [l; l])
        (new_links (sent_entries w) batch) calls
      ∧ sends (events w') = sends (events w) ++ concat calls.
Proof.
  intros Hstop Hsend Hformat. revert w.
  induction batch as [| entry rest IH]; intros w; cbn zeta.
  - simpl. rewrite app_nil_r. split; [done |].
    split; [by rewrite (right_id_L ∅ (∪)) |].
    exists []. split; [constructor | by rewrite app_nil_r].
  - cbn [process_entries new_links]. rewrite Hstop.
    destruct (e_link entry) as [l |] eqn:Hl.
    2: { rewrite process_entry_skip by (by left). apply IH. }
    destruct (decide (l ∈ sent_entries w)) as [Hin | Hfresh].
    { rewrite process_entry_skip by (right; eauto). apply IH. }
    destruct (process_entry_sends env cfg entry l w Hl Hfresh)
      as (c & Hc & Hsc & Hnone).
    rewrite (process_entry_new env cfg entry l w Hl Hfresh) in *.
    destruct (post_entry_posts env cfg l entry w Hsend (Hformat entry w))
      as (w2 & Hpost & (Hs2 & new & He2 & Hnew) & _).
    specialize (IH (post_entry env cfg l entry w)).
    destruct IH as (Hp & Hs & calls & Hcalls & Hsends).
    assert (sent_entries (post_entry env cfg l entry w)
            = {[ l ]} ∪ sent_entries w) as Hsent
      by (by rewrite Hpost; simpl; rewrite Hs2).
    assert (posted (events (post_entry env cfg l entry w))
            = posted (events w) ++ [l]) as Hposted.
    { rewrite Hpost. simpl. rewrite He2, posted_app.
      by rewrite (posted_attempts l new), app_nil_r. }
    rewrite Hsent in Hp, Hs, Hcalls.
    split; [by rewrite Hp, Hposted, <- app_assoc |].
    split.
    { rewrite Hs. simpl.
      rewrite (comm_L (∪) {[ l ]} (sent_entries w)).
      by rewrite <- (assoc_L (∪)). }
    exists (c :: calls). split.
    + constructor; [| done].
      destruct Hc as [-> | Hc]; [| done].
      destruct (Hformat entry w). by apply Hnone.
    + rewrite Hsends, Hsc. simpl. by rewrite app_assoc.
Qed.

(** C3: a feed pass considers the first 10 entries of the list the
    parser returns, last one first, whatever is recorded already and
    whatever the stop event, the enhancer and the Telegram API do: its
    Telegram calls are those of these entries, entry after entry in
    reverse list order, each entry giving none, or one or two (photo,
    then text) for its own link, and none when its link was recorded
    before the pass.  When the stop event stays clear, formatting
    returns and the text call goes through, the entries posted are
    exactly those whose link is new when their turn comes, in that
    order. *)
Theorem entries_published_oldest_first url entries w :
  feed_parse env (clock w) url = Some entries →
  let batch := rev (take 10 entries) in
  let w' := process_feed env cfg url w in
  (∃ calls, Forall2 (calls_of (sent_entries w)) batch calls
     ∧ sends (events w') = sends (events w) ++ concat calls)
  ∧ ((∀ t, stop_is_set env t = false) →
     (∀ t, send_message_ok env t = true) →
     (∀ entry w0, (format_message env cfg entry w0).1 ≠ None) →
     posted (events w') = posted (events w) ++ new_links (sent_entries w) batch
     ∧ sent_entries w'
       = sent_entries w ∪ list_to_set (new_links (sent_entries w) batch)
     ∧ ∃ calls,
         Forall2 (λ l c, c = [l] ∨ c = [l; l])
           (new_links (sent_entries w) batch) calls
         ∧ sends (events w') = sends (events w) ++ concat calls).
Proof.
  intros Hfeed batch w'. subst batch w'. unfold process_feed. rewrite Hfeed.
  destruct entries as [| e entries].
  - simpl. split.
    + exists []. split; [constructor | by rewrite app_nil_r].
    + intros _ _ _. rewrite app_nil_r. split; [done |].
      split; [by rewrite (right_id_L ∅ (∪)) |].
      exists []. split; [constructor | by rewrite app_nil_r].
  - split.
    + apply (process_entries_calls (sent_entries w) _
               (advance (fetch_time env (clock w) url) w)).
      done.
    + intros Hstop Hsend Hformat.
      apply (process_entries_posts _
               (advance (fetch_time env (clock w) url) w)); done.
Qed.

Lemma process_feed_raises url w :
  feed_parse env (clock w) url = None →
  process_feed env cfg url w
  = set_stats incr_errors
      (logger ERROR (MsgFeedError url)
         (advance (fetch_time env (clock w) url) w)).
Proof. intros Hfeed. unfold process_feed. by rewrite Hfeed. Qed.

Lemma process_feed_empty url w :
  feed_parse env (clock w) url = Some [] →
  process_feed env cfg url w
  = logger WARNING (MsgEmptyFeed url)
      (advance (fetch_time env (clock w) url) w).
Proof. intros Hfeed. unfold process_feed. by rewrite Hfeed. Qed.

(** C4: when feedparser raises for a feed, the failure is logged, errors
    goes up by one, nothing else is counted or recorded, and the cycle
    goes on with the feeds that follow.  With two feeds, the first
    raising and the second returning one new entry with a link, a
    formatting that returns and a text call that goes through, the
    entry is posted and errors has gone up by exactly one. *)
Theorem feed_failure_isolated url rest w :
  stop_is_set env (clock w) = false →
  feed_parse env (clock w) url = None →
  let w1 := process_feed env cfg url w in
  events w1 = Log ERROR (MsgFeedError url) :: events w
  ∧ errors (stats w1) = S (errors (stats w))
  ∧ posts_sent (stats w1) = posts_sent (stats w)
  ∧ sent_entries w1 = sent_entries w
  ∧ process_feeds env cfg (url :: rest) w = process_feeds env cfg rest w1
  ∧ ∀ url2 entry l,
      (∀ t, stop_is_set env t = false) →
      (∀ t, send_message_ok env t = true) →
      (∀ w0, (format_message env cfg entry w0).1 ≠ None) →
      feed_parse env (clock w1) url2 = Some [entry] →
      e_link entry = Some l → l ∉ sent_entries w →
      let w2 := process_feeds env cfg [url; url2] w in
      errors (stats w2) = S (errors (stats w))
      ∧ posts_sent (stats w2) = S (posts_sent (stats w))
      ∧ l ∈ sent_entries w2
      ∧ ∃ new, events w2 = Log INFO (MsgPosted l) :: new ++ events w1
               ∧ Exists (delivered l) new.
Proof.
  intros Hstop Hfeed w1. subst w1. rewrite (process_feed_raises url w Hfeed).
  do 4 (split; [done |]).
  split; [by simpl; rewrite Hstop, (process_feed_raises url w Hfeed) |].
  intros url2 entry l Hnever Hsend Hformat Hfeed2 Hl Hfresh w2.
  set (w1 := set_stats incr_errors
               (logger ERROR (MsgFeedError url)
                  (advance (fetch_time env (clock w) url) w))) in *.
  set (w1' := advance (fetch_time env (clock w1) url2) w1).
  assert (w2 = process_entry env cfg entry w1') as ->.
  { subst w2. simpl. rewrite !Hnever, (process_feed_raises url w Hfeed).
    fold w1. unfold process_feed. rewrite Hfeed2. simpl. by rewrite Hnever. }
  destruct (process_entry_posts env cfg entry l w1' Hsend (Hformat w1') Hl
              Hfresh) as (Herr & Hposts & Hin & new & Hev & Hdel).
  rewrite Herr, Hposts. do 3 (split; [done |]).
  exists new. by rewrite Hev.
Qed.

(** C9, as amended: a feed without entries is logged with a warning and
    skipped; the errors counter, like every other counter, stays as it
    is, nothing is recorded, and the cycle goes on with the feeds that
    follow. *)
Theorem empty_feed_skipped url rest w :
  stop_is_set env (clock w) = false →
  feed_parse env (clock w) url = Some [] →
  let w1 := process_feed env cfg url w in
  events w1 = Log WARNING (MsgEmptyFeed url) :: events w
  ∧ stats w1 = stats w
  ∧ sent_entries w1 = sent_entries w
  ∧ process_feeds env cfg (url :: rest) w = process_feeds env cfg rest w1.
Proof.
  intros Hstop Hfeed w1. subst w1. rewrite (process_feed_empty url w Hfeed).
  repeat split. by simpl; rewrite Hstop, (process_feed_empty url w Hfeed).
Qed.

End Feeds.

Lemma entries_published_oldest_first_witness :
  posted (events (process_feed env_three cfg_plain "https://a/rss" world0))
  = ["https://a/3"; "https://a/2"; "https://a/1"]
  ∧ posted (events (process_feed env_three cfg_plain "https://a/rss"
                      (process_feed env_three cfg_plain "https://a/rss"
                         world0)))
    = ["https://a/3"; "https://a/2"; "https://a/1"].
Proof.
  destruct (entries_published_oldest_first env_three cfg_plain
              "https://a/rss" [E1; E2; E3] world0 eq_refl) as [_ Hfirst].
  destruct (Hfirst (λ _, eq_refl) (λ _, eq_refl)
              (λ entry w0,
                 format_message_plain env_three cfg_plain entry w0 eq_refl))
    as (Hposted & _).
  destruct (entries_published_oldest_first env_three cfg_plain
              "https://a/rss" [E1; E2; E3]
              (process_feed env_three cfg_plain "https://a/rss" world0)
              eq_refl) as [_ Hsecond].
  destruct (Hsecond (λ _, eq_refl) (λ _, eq_refl)
              (λ entry w0,
                 format_message_plain env_three cfg_plain entry w0 eq_refl))
    as (Hagain & _).
  split; [rewrite Hposted | rewrite Hagain, Hposted]; vm_compute; reflexivity.
Defined.

(* The publish sequence of the feed [E1; E2; E3] is E3, E2, E1. *)
Example three_entries_order :
  sends (events (process_feed env_three cfg_plain "https://a/rss" world0))
  = ["https://a/3"; "https://a/2"; "https://a/1"].
Proof. vm_compute. reflexivity. Qed.

Lemma feed_failure_isolated_witness :
  errors (stats (process_feeds env_first_fails cfg_plain
                   ["https://a/rss"; "https://b/rss"] world0)) = 1
  ∧ "https://a/1"
    ∈ sent_entries (process_feeds env_first_fails cfg_plain
                      ["https://a/rss"; "https://b/rss"] world0).
Proof.
  destruct (feed_failure_isolated env_first_fails cfg_plain "https://a/rss"
              ["https://b/rss"] world0 eq_refl eq_refl)
    as (_ & _ & _ & _ & _ & Htwo).
  destruct (Htwo "https://b/rss" E1 "https://a/1"
              (λ _, eq_refl) (λ _, eq_refl)
              (λ w0, format_message_plain env_first_fails cfg_plain E1 w0
                       eq_refl)
              eq_refl eq_refl (not_elem_of_empty _))
    as (Herr & _ & Hin & _).
  split; [exact Herr | exact Hin].
Defined.

Lemma empty_feed_skipped_witness :
  errors (stats (process_feed env_empty_feed cfg_plain "https://a/rss" world0))
  = 0
  ∧ process_feeds env_empty_feed cfg_plain ["https://a/rss"; "https://b/rss"]
      world0
    = process_feeds env_empty_feed cfg_plain ["https://b/rss"]
        (process_feed env_empty_feed cfg_plain "https://a/rss" world0).
Proof.
  destruct (empty_feed_skipped env_empty_feed cfg_plain "https://a/rss"
              ["https://b/rss"] world0 eq_refl eq_refl)
    as (_ & Hstats & _ & Hnext).
  split; [by rewrite Hstats | exact Hnext].
Defined.

(** C9, as stated, fails: after a feed without entries the errors
    counter has not gone up. *)
Lemma empty_feed_not_counted :
  ¬ (errors (stats (process_feed env_empty_feed cfg_plain "https://a/rss"
                      world0))
     = S (errors (stats world0))).
Proof. vm_compute. discriminate. Qed.

(* ------------------------- waiting ----------------------------------- *)

Section Waiting.

Context (env : Env) (cfg : Config).







End Waiting.





(* ===================================================================== *)
(* Formatting and enhancement                                            *)
(* ===================================================================== *)

Section Formatting.

Context (env : Env) (cfg : Config).

(* A value with more than nothing in it is true *)
Lemma sized_truthy v n : sized v = Some n → 0 < n → truthy v = true.
Proof.
  destruct v as [| | | | s | items | members]; simpl; try done;
    intros [= <-] Hn;
    [destruct s | destruct items | destruct members]; simpl in *;
    done || lia.
Qed.

Lemma validate_accept t d :
  validate t d = Accept ↔ in_bounds 10 120 t ∧ in_bounds 30 600 d.
Proof.
  unfold validate, in_bounds. split.
  - intros Hv.
    destruct (truthy t); [| done]. simpl in Hv.
    destruct (sized t) as [n |]; [| done].
    destruct (Nat.ltb_spec 10 n); [| done]. simpl in Hv.
    destruct (truthy d); [| done]. simpl in Hv.
    destruct (sized d) as [m |]; [| done].
    destruct (Nat.ltb_spec 30 m); [| done]. simpl in Hv.
    destruct (Nat.ltb_spec n 120); [| done]. simpl in Hv.
    destruct (Nat.ltb_spec m 600); [| done].
    split; eexists; (split; [reflexivity | lia]).
  - intros [(n & Hn & Hbn) (m & Hm & Hbm)].
    rewrite (sized_truthy t n), (sized_truthy d m), Hn, Hm by (done || lia).
    simpl.
    destruct (Nat.ltb_spec 10 n); [| lia].
    destruct (Nat.ltb_spec 30 m); [| lia].
    destruct (Nat.ltb_spec n 120); [| lia].
    destruct (Nat.ltb_spec m 600); [| lia].
    done.
Qed.

(* A call of the enhancer that returns a candidate has only taken time *)
Lemma enhance_with_yagpt_some title description w enhanced w1 :
  enhance_with_yagpt env cfg title description w = (Some enhanced, w1) →
  stats w1 = stats w ∧ events w1 = events w.
Proof.
  unfold enhance_with_yagpt. intros He.
  repeat (case_match; simplify_eq/=); done.
Qed.

Lemma enhance_with_yagpt_used title description w :
  yagpt_used (stats (enhance_with_yagpt env cfg title description w).2)
  = yagpt_used (stats w).
Proof.
  unfold enhance_with_yagpt. repeat (case_match; simplify_eq/=); done.
Qed.

Lemma image_step_yagpt title original_title w :
  yagpt_used (stats (image_step env title original_title w).2)
  = yagpt_used (stats w)
  ∧ yagpt_errors (stats (image_step env title original_title w).2)
    = yagpt_errors (stats w).
Proof.
  unfold image_step, generate_image.
  repeat (case_match; simplify_eq/=); done.
Qed.

(* format_message in terms of its steps *)
Lemma format_message_steps entry w t d w1 :
  enhance_step env cfg (clean (default "No title" (e_title entry)))
    (clean (default "" (e_description entry))) w = (t, d, w1) →
  format_message env cfg entry w
  = match shorten d with
    | Some d' =>
        (Some (render_message (text env t) (text env d')
                 (default "" (e_link entry)),
               (image_step env t (clean (default "No title" (e_title entry)))
                  w1).1),
         (image_step env t (clean (default "No title" (e_title entry))) w1).2)
    | None => (None, w1)
    end.
Proof.
  intros He. unfold format_message. rewrite He.
  destruct (shorten d); [| done]. by destruct (image_step env t _ w1).
Qed.

(* The candidate of the reply and what the check makes of it *)
Lemma enhance_step_candidate title description w enhanced w1 :
  yagpt_configured cfg = true →
  enhance_with_yagpt env cfg title description w = (Some enhanced, w1) →
  let r := enhance_step env cfg title description w in
  match validate (enh_title enhanced) (enh_description enhanced) with
  | Accept =>
      r.1 = (enh_title enhanced, enh_description enhanced)
      ∧ yagpt_used (stats r.2) = S (yagpt_used (stats w))
      ∧ yagpt_errors (stats r.2) = yagpt_errors (stats w)
      ∧ events r.2 = Log INFO MsgYagptApplied :: events w
  | Reject =>
      r.1 = (JStr title, JStr description)
      ∧ yagpt_used (stats r.2) = yagpt_used (stats w)
      ∧ yagpt_errors (stats r.2) = yagpt_errors (stats w)
      ∧ events r.2 = Log WARNING MsgYagptValidationFailed :: events w
  | TypeError =>
      r.1 = (JStr title, JStr description)
      ∧ yagpt_used (stats r.2) = yagpt_used (stats w)
      ∧ yagpt_errors (stats r.2) = S (yagpt_errors (stats w))
      ∧ events r.2 = Log ERROR MsgYagptIntegrationError :: events w
  end.
Proof.
  intros Hcfg Henh r. subst r. unfold enhance_step. rewrite Hcfg, Henh.
  destruct (enhance_with_yagpt_some _ _ _ _ _ Henh) as [Hstats Hev].
  destruct (validate (enh_title enhanced) (enh_description enhanced));
    simpl; by rewrite Hstats, Hev.
Qed.

(* A candidate whose title and description are strs is taken over exactly
   when the title has more than 10 and fewer than 120 characters and the
   description more than 30 and fewer than 600. *)
Lemma str_candidate_checked entry w new_title new_description w1 :
  let title := clean (default "No title" (e_title entry)) in
  let description := clean (default "" (e_description entry)) in
  let link := default "" (e_link entry) in
  yagpt_configured cfg = true →
  enhance_with_yagpt env cfg title description w
  = (Some {| enh_title := JStr new_title;
             enh_description := JStr new_description |}, w1) →
  let r := format_message env cfg entry w in
  (¬ (10 < String.length new_title < 120
      ∧ 30 < String.length new_description < 600) →
   (∃ image_path,
      r.1 = Some (render_message title (truncate 500 description) link,
                  image_path))
   ∧ yagpt_used (stats r.2) = yagpt_used (stats w))
  ∧ (10 < String.length new_title < 120
     ∧ 30 < String.length new_description < 600 →
     (∃ image_path,
        r.1 = Some (render_message new_title (truncate 500 new_description)
                      link, image_path))
     ∧ yagpt_used (stats r.2) = S (yagpt_used (stats w))).
Proof.
  intros title description link Hcfg Henh r.
  pose proof (enhance_step_candidate title description w _ w1 Hcfg Henh)
    as Hstep.
  pose proof (validate_accept (JStr new_title) (JStr new_description))
    as Hacc.
  cbn [enh_title enh_description] in Hstep.
  destruct (enhance_step env cfg title description w) as [[t d] w2] eqn:He.
  subst r. rewrite (format_message_steps entry w t d w2 He).
  pose proof (image_step_yagpt t title w2) as [Hused _].
  unfold title in Hused.
  assert (in_bounds 10 120 (JStr new_title)
          ∧ in_bounds 30 600 (JStr new_description)
          ↔ 10 < String.length new_title < 120
            ∧ 30 < String.length new_description < 600) as Hbounds.
  { unfold in_bounds. simpl. split.
    - intros [(n & [= <-] & ?) (m & [= <-] & ?)]. done.
    - intros [? ?]. split; eexists; eauto. }
  destruct (validate (JStr new_title) (JStr new_description)) eqn:Hv;
    simpl in Hstep; destruct Hstep as (Hr & Hu & _); injection Hr as -> ->;
    simpl; rewrite Hused, Hu.
  - split; [intros Hout; destruct Hout; by apply Hbounds, Hacc |].
    intros _. eauto.
  - split; [intros _; eauto |].
    intros Hin. apply Hbounds, Hacc in Hin. done.
  - split; [intros _; eauto |].
    intros Hin. apply Hbounds, Hacc in Hin. done.
Qed.

(** C7, as amended.  A request that fails with a network error, or with
    any other exception while the response is read, adds one to
    yagpt_errors; so does an exception other than JSONDecodeError that
    json.loads raises, and so does an exception raised while the
    candidate is checked.  A reply text without an object in it and a
    text that json.loads rejects with JSONDecodeError are logged as
    errors, and a candidate that the check rejects is logged with a
    warning: in these three cases yagpt_errors stays as it is.  In each
    of these cases, and whenever no candidate is taken over, the
    original title and description are kept. *)
Theorem enhancement_failures title description w :
  yagpt_configured cfg = true →
  let r := enhance_step env cfg title description w in
  let reply :=
    yagpt_post env (clock w) title (truncate MAX_INPUT_LENGTH description) in
  ((reply = RequestException ∨ reply = OtherException) →
   r.1 = (JStr title, JStr description)
   ∧ yagpt_errors (stats r.2) = S (yagpt_errors (stats w)))
  ∧ (∀ result_text,
       reply = ResultText result_text →
       let json_start := find "{" result_text in
       let json_end := (rfind "}" result_text + 1)%Z in
       (json_start = (-1)%Z ∨ json_end = 0%Z →
        r = (JStr title, JStr description,
             logger ERROR MsgYagptFormatError (tick w)))
       ∧ (json_start ≠ (-1)%Z → json_end ≠ 0%Z →
          let parsed :=
            json_loads env (slice json_start json_end result_text) in
          (parsed = JSONDecodeError →
           r = (JStr title, JStr description,
                logger ERROR MsgYagptJsonError (tick w)))
          ∧ (parsed = ParseException →
             r.1 = (JStr title, JStr description)
             ∧ yagpt_errors (stats r.2) = S (yagpt_errors (stats w)))))
  ∧ (∀ enhanced w1,
       enhance_with_yagpt env cfg title description w = (Some enhanced, w1) →
       let verdict :=
         validate (enh_title enhanced) (enh_description enhanced) in
       (verdict = Reject →
        r.1 = (JStr title, JStr description)
        ∧ yagpt_errors (stats r.2) = yagpt_errors (stats w)
        ∧ events r.2 = Log WARNING MsgYagptValidationFailed :: events w)
       ∧ (verdict = TypeError →
          r.1 = (JStr title, JStr description)
          ∧ yagpt_errors (stats r.2) = S (yagpt_errors (stats w))))
  ∧ (r.1 = (JStr title, JStr description)
     ∨ ∃ enhanced w1,
         enhance_with_yagpt env cfg title description w = (Some enhanced, w1)
         ∧ validate (enh_title enhanced) (enh_description enhanced) = Accept
         ∧ r.1 = (enh_title enhanced, enh_description enhanced)).
Proof.
  intros Hcfg r reply. subst r reply.
  split; [| split; [| split]].
  - unfold enhance_step, enhance_with_yagpt. rewrite Hcfg. simpl.
    intros [Hr | Hr]; rewrite Hr; done.
  - intros result_text Hreply json_start json_end.
    unfold enhance_step, enhance_with_yagpt. rewrite Hcfg.
    cbn [negb]. cbv zeta. cbn [clock tick advance]. rewrite Hreply.
    fold json_start json_end. split.
    + intros [Hnone | Hnone]; rewrite Hnone; [done | by rewrite orb_true_r].
    + intros Hstart Hend.
      apply Z.eqb_neq in Hstart, Hend. rewrite Hstart, Hend. cbn [orb].
      split; intros ->; done.
  - intros enhanced w1 Henh verdict. subst verdict.
    pose proof (enhance_step_candidate title description w enhanced w1 Hcfg
                  Henh) as Hstep.
    split; intros Hv; rewrite Hv in Hstep; simpl in Hstep;
      by destruct Hstep as (? & ? & ? & ?).
  - unfold enhance_step. rewrite Hcfg.
    destruct (enhance_with_yagpt env cfg title description w)
      as [[enhanced |] w1] eqn:Henh; [| by left].
    destruct (validate (enh_title enhanced) (enh_description enhanced))
      eqn:Hv; [right | by left | by left].
    eauto.
Qed.

(** X26: format_message takes "No title" for a title the entry does not
    have and the empty string for a missing description or link.  It
    comes back with a message and an optional image path in every case
    but one: it raises exactly when the enhancer's candidate has been
    taken over with a description that is not a str and has more than
    500 items.  The message is made of the title and the description
    that the enhancer step has left, the description cut, and the link;
    without the enhancer these are the cleaned title and the cleaned
    description of the entry, and format_message always returns. *)
Theorem format_message_defaults entry w :
  let title :=
    clean (match e_title entry with Some t => t | None => "No title" end) in
  let description :=
    clean (match e_description entry with Some d => d | None => "" end) in
  let link := match e_link entry with Some l => l | None => "" end in
  let message (t d : string) :=
    "<b>" +:+ t +:+ "</b>" +:+ nl +:+ nl +:+ d +:+ nl +:+ nl
    +:+ "<a href='" +:+ link +:+ "'>" +:+ "🔗 Читать полностью" +:+ "</a>" in
  let step := enhance_step env cfg title description w in
  ((format_message env cfg entry w).1 = None
   ↔ as_str step.1.2 = None ∧ ∀ n, sized step.1.2 = Some n → 500 < n)
  ∧ (∀ d, shorten step.1.2 = Some d →
       ∃ image_path w',
         format_message env cfg entry w
         = (Some (message (text env step.1.1) (text env d), image_path), w'))
  ∧ (yagpt_configured cfg = false →
     ∃ image_path w',
       format_message env cfg entry w
       = (Some (message title (truncate 500 description), image_path), w')).
Proof.
  intros title description link message step.
  assert (format_message env cfg entry w
          = match shorten step.1.2 with
            | Some d =>
                (Some (message (text env step.1.1) (text env d),
                       (image_step env step.1.1 title step.2).1),
                 (image_step env step.1.1 title step.2).2)
            | None => (None, step.2)
            end) as Hformat.
  { destruct step as [[t d] w1] eqn:He.
    by rewrite (format_message_steps entry w t d w1 He). }
  split; [| split].
  - rewrite Hformat. unfold shorten.
    destruct (step.1.2) as [| | | | s | items | members]; simpl;
      try (split; [by intros _ | done]);
      try (split; [done | by intros [[=] _]]).
    + destruct (Nat.ltb_spec 500 (length items)) as [Hlt | Hge]; simpl.
      * split; [| done]. intros _. split; [done |]. by intros n [= <-].
      * split; [done |]. intros [_ Hn]. specialize (Hn _ eq_refl). lia.
    + destruct (Nat.ltb_spec 500 (length members)) as [Hlt | Hge]; simpl.
      * split; [| done]. intros _. split; [done |]. by intros n [= <-].
      * split; [done |]. intros [_ Hn]. specialize (Hn _ eq_refl). lia.
  - intros d Hd. rewrite Hformat, Hd. eauto.
  - intros Hcfg. rewrite Hformat. subst step. unfold enhance_step.
    rewrite Hcfg. simpl. eauto.
Qed.

End Formatting.

(* The enhancer answers with a five-character title: the original text
   stays *)
Example short_candidate_rejected :
  (format_message env_short_title cfg_yagpt E1 world0).1
  = Some (render_message "First" "one" "https://a/1", None)
  ∧ yagpt_used (stats (format_message env_short_title cfg_yagpt E1 world0).2)
    = 0.
Proof. split; reflexivity. Qed.

(* A candidate within the bounds is taken over *)
Example good_candidate_applied :
  (format_message env_good_candidate cfg_yagpt E1 world0).1
  = Some (render_message "A better headline"
            "A description that is long enough to pass the check"
            "https://a/1", None)
  ∧ yagpt_used (stats (format_message env_good_candidate cfg_yagpt E1 world0).2)
    = 1.
Proof. split; reflexivity. Qed.

(** C6: the reply holds a title that is a list of 11 strs and a
    description that is a list of 31 strs.  Neither is a text within the
    bounds (printed, the title has 187 characters and the description
    3224), yet the check lets both pass, because len() counts their
    items: the candidate is taken over, yagpt_used goes up and the
    message is made of the two lists as Python prints them, with nothing
    left of the original title.  With a description of 501 items the
    candidate passes as well, and format_message raises. *)
Theorem list_candidate_accepted :
  let r := format_message env_list_candidate cfg_yagpt E1 world0 in
  validate title_items description_items = Accept
  ∧ r.1 = Some (render_message (sample_repr title_items)
                  (sample_repr description_items) "https://a/1", None)
  ∧ String.length (sample_repr title_items) = 187
  ∧ String.length (sample_repr description_items) = 3224
  ∧ yagpt_used (stats r.2) = 1
  ∧ Log INFO MsgYagptApplied ∈ events r.2
  ∧ r.1 ≠ Some (render_message "First" "one" "https://a/1", None)
  ∧ (format_message env_long_list cfg_yagpt E1 world0).1 = None
  ∧ yagpt_used (stats (format_message env_long_list cfg_yagpt E1 world0).2)
    = 1.
Proof.
  cbv zeta.
  assert ((format_message env_list_candidate cfg_yagpt E1 world0).1
          = Some (render_message (sample_repr title_items)
                    (sample_repr description_items) "https://a/1", None))
    as Hmessage by (vm_compute; reflexivity).
  split; [by vm_compute |]. split; [exact Hmessage |].
  split; [by vm_compute |]. split; [by vm_compute |].
  split; [by vm_compute |].
  split; [vm_compute; repeat constructor |].
  split; [| split; by vm_compute].
  rewrite Hmessage. vm_compute. discriminate.
Qed.

(** C10: the entry has no title, no description and no link, and the
    enhancer answers with a title within the bounds and a description
    that is a list of 501 items.  The check lets the candidate pass
    (501 is below 600), the statement that shortens the description
    cannot cut a list, and format_message raises instead of returning
    a message; in the worker the entry is then counted as an error and
    not recorded. *)
Theorem format_message_raises :
  validate (JStr "A better headline") (JArr (replicate 501 (JStr "x")))
  = Accept
  ∧ shorten (JArr (replicate 501 (JStr "x"))) = None
  ∧ (format_message env_long_list cfg_yagpt bare_entry world0).1 = None
  ∧ errors (stats (process_entry env_long_list cfg_yagpt E1 world0)) = 1
  ∧ sent_entries (process_entry env_long_list cfg_yagpt E1 world0) = ∅.
Proof. repeat split; by vm_compute. Qed.

Lemma enhancement_failures_witness :
  (enhance_step env_request_error cfg_yagpt "First" "one" world0).1
  = (JStr "First", JStr "one")
  ∧ yagpt_errors
      (stats (enhance_step env_request_error cfg_yagpt "First" "one" world0).2)
    = 1.
Proof.
  destruct (enhancement_failures env_request_error cfg_yagpt "First" "one"
              world0 eq_refl) as (Hrequest & _).
  apply Hrequest. left. reflexivity.
Defined.

(* The five-character title is rejected by the check, the warning is
   logged, and yagpt_errors has not gone up. *)
Lemma rejection_not_counted :
  ¬ (Log WARNING MsgYagptValidationFailed
       ∈ events (format_message env_short_title cfg_yagpt E1 world0).2 →
     yagpt_errors (stats (format_message env_short_title cfg_yagpt E1 world0).2)
     = S (yagpt_errors (stats world0))).
Proof.
  intros Hclaim.
  assert (yagpt_errors
            (stats (format_message env_short_title cfg_yagpt E1 world0).2)
          = 1) as Hcount.
  { apply Hclaim. vm_compute. repeat constructor. }
  vm_compute in Hcount. discriminate.
Qed.

(* json.loads rejects the text of the reply, the error is logged, and
   yagpt_errors has not gone up. *)
Lemma decode_error_not_counted :
  ¬ (Log ERROR MsgYagptJsonError
       ∈ events (format_message env_bad_json cfg_yagpt E1 world0).2 →
     yagpt_errors (stats (format_message env_bad_json cfg_yagpt E1 world0).2)
     = S (yagpt_errors (stats world0))).
Proof.
  intros Hclaim.
  assert (yagpt_errors
            (stats (format_message env_bad_json cfg_yagpt E1 world0).2)
          = 1) as Hcount.
  { apply Hclaim. vm_compute. repeat constructor. }
  vm_compute in Hcount. discriminate.
Qed.

(** C7, as stated, fails for two of its three kinds of failure: neither
    a reply that json.loads rejects nor a candidate that the check
    rejects adds to yagpt_errors. *)
Lemma parse_and_validation_not_counted :
  ¬ (Log ERROR MsgYagptJsonError
       ∈ events (format_message env_bad_json cfg_yagpt E1 world0).2 →
     yagpt_errors (stats (format_message env_bad_json cfg_yagpt E1 world0).2)
     = S (yagpt_errors (stats world0)))
  ∧ ¬ (Log WARNING MsgYagptValidationFailed
         ∈ events (format_message env_short_title cfg_yagpt E1 world0).2 →
       yagpt_errors
         (stats (format_message env_short_title cfg_yagpt E1 world0).2)
       = S (yagpt_errors (stats world0))).
Proof. split; [apply decode_error_not_counted | apply rejection_not_counted]. Qed.

Lemma format_message_defaults_witness :
  ∃ image_path,
    (format_message env_three cfg_plain bare_entry world0).1
    = Some ("<b>No title</b>" +:+ nl +:+ nl +:+ nl +:+ nl
            +:+ "<a href=''>🔗 Читать полностью</a>", image_path).
Proof.
  destruct (format_message_defaults env_three cfg_plain bare_entry world0)
    as (_ & _ & Hplain).
  destruct (Hplain eq_refl) as (image_path & w' & Hf).
  exists image_path. rewrite Hf. reflexivity.
Defined.

(* ===================================================================== *)
(* Further properties: text                                              *)
(* ===================================================================== *)

Lemma append_cons a (s t : string) : String a s +:+ t = String a (s +:+ t).
Proof. reflexivity. Qed.

Lemma append_nil_l (t : string) : "" +:+ t = t.
Proof. reflexivity. Qed.

(* Pushes the appends under the leading characters, then computes. *)
Ltac str_simpl := rewrite ?append_cons, ?append_nil_l; simpl.
Ltac str_simpl_in H := rewrite ?append_cons, ?append_nil_l in H; simpl in H.

Lemma length_append (s1 s2 : string) :
  String.length (s1 +:+ s2) = String.length s1 + String.length s2.
Proof. induction s1 as [| a s1 IH]; str_simpl; [done | by f_equal]. Qed.

Lemma append_nil_r (s : string) : s +:+ "" = s.
Proof. induction s as [| a s IH]; str_simpl; [done | by f_equal]. Qed.

Lemma append_assoc (s1 s2 s3 : string) :
  (s1 +:+ s2) +:+ s3 = s1 +:+ s2 +:+ s3.
Proof. induction s1 as [| a s1 IH]; str_simpl; [done | by f_equal]. Qed.

Lemma substring_whole (s : string) : substring 0 (String.length s) s = s.
Proof. induction s as [| a s IH]; simpl; [done | by f_equal]. Qed.

Lemma substring_prefix (s1 s2 : string) :
  substring 0 (String.length s1) (s1 +:+ s2) = s1.
Proof.
  induction s1 as [| a s1 IH]; str_simpl; [by destruct s2 | by f_equal].
Qed.

Lemma substring_skip (s1 s2 : string) n :
  substring (String.length s1) n (s1 +:+ s2) = substring 0 n s2.
Proof. induction s1 as [| a s1 IH]; str_simpl; done. Qed.

Lemma length_substring n (s : string) :
  n ≤ String.length s → String.length (substring 0 n s) = n.
Proof.
  revert n. induction s as [| a s IH]; intros [| n] Hn; simpl in *;
    try done; [lia |]. rewrite IH; [done | lia].
Qed.

Lemma has_gt_occurs s : has_gt s = occurs ">" s.
Proof. induction s as [| a s IH]; simpl; [done | by rewrite IH]. Qed.

Lemma occurs_append c (s1 s2 : string) :
  occurs c (s1 +:+ s2) = occurs c s1 || occurs c s2.
Proof.
  induction s1 as [| a s1 IH]; str_simpl; [done |].
  by destruct (Ascii.eqb a c).
Qed.

Lemma clean_strip_tags s : clean s = strip_tags false s.
Proof. by destruct s. Qed.

Lemma opens_tag_closed s : has_gt s = false → opens_tag s = false.
Proof.
  destruct s as [| a s]; simpl; [done |].
  destruct (Ascii.eqb a ">"); [done |]. by intros ->.
Qed.

(* What is left of a text without ">" has no ">" *)
Lemma strip_tags_no_gt b s :
  has_gt s = false → has_gt (strip_tags b s) = false.
Proof.
  revert b. induction s as [| a s IH]; intros b Hs; simpl in *; [done |].
  destruct (Ascii.eqb a ">") eqn:Ha; [done |].
  destruct b; [by apply IH |].
  destruct (Ascii.eqb a "<" && opens_tag s); [by apply IH |].
  simpl. rewrite Ha. by apply IH.
Qed.

(* A "<" that does not open a tag does not open one in the result *)
Lemma strip_tags_closed s :
  opens_tag s = false → opens_tag (strip_tags false s) = false.
Proof.
  destruct s as [| a s]; [done |]. simpl.
  destruct (Ascii.eqb a ">") eqn:Ha; simpl.
  - intros _. assert (Ascii.eqb a "<" = false) as ->.
    { apply Ascii.eqb_eq in Ha as ->. done. }
    simpl. by rewrite Ha.
  - intros Hs. apply opens_tag_closed, (strip_tags_no_gt false (String a s)).
    simpl. by rewrite Ha.
Qed.

Lemma strip_tags_idempotent b s :
  strip_tags false (strip_tags b s) = strip_tags b s.
Proof.
  revert b. induction s as [| a s IH]; intros b; simpl; [done |].
  destruct b.
  - destruct (Ascii.eqb a ">"); apply IH.
  - destruct (Ascii.eqb a "<") eqn:Ha; simpl.
    + destruct (opens_tag s) eqn:Hs; [apply IH |]. simpl.
      by rewrite Ha, (strip_tags_closed s Hs), IH.
    + by rewrite Ha, IH.
Qed.

(** X1: stripping the markup is idempotent: the cleaned text holds no
    tag, so cleaning it again changes nothing. *)
Theorem clean_idempotent s : clean (clean s) = clean s.
Proof. rewrite !clean_strip_tags. apply strip_tags_idempotent. Qed.

Lemma strip_tags_plain s :
  occurs "<" s = false ∨ occurs ">" s = false → strip_tags false s = s.
Proof.
  induction s as [| a s IH]; simpl; [done |].
  destruct (Ascii.eqb a "<") eqn:Hlt; simpl.
  - intros [? | Hgt]; [done |].
    destruct (Ascii.eqb a ">"); [done |].
    rewrite opens_tag_closed by by rewrite has_gt_occurs.
    rewrite IH; auto.
  - intros Hs. rewrite IH; [done |].
    destruct Hs as [? | Hgt]; [by left | right].
    by destruct (Ascii.eqb a ">").
Qed.

Lemma strip_tags_in_tag (tag post : string) :
  occurs ">" tag = false →
  strip_tags true (tag +:+ ">" +:+ post) = strip_tags false post.
Proof.
  induction tag as [| a tag IH]; str_simpl; [done |].
  destruct (Ascii.eqb a ">"); [done |]. apply IH.
Qed.

Lemma strip_tags_prefix (pre rest : string) :
  occurs "<" pre = false →
  strip_tags false (pre +:+ rest) = pre +:+ strip_tags false rest.
Proof.
  induction pre as [| a pre IH]; str_simpl; [done |].
  destruct (Ascii.eqb a "<"); [done |]. intros Hpre. simpl.
  by rewrite IH.
Qed.

(** X2: a text in which "<" or ">" does not occur comes back from
    clean unchanged; in general clean never makes a text longer. *)
Theorem clean_plain_text s :
  (occurs "<" s = false ∨ occurs ">" s = false → clean s = s)
  ∧ String.length (clean s) ≤ String.length s.
Proof.
  rewrite clean_strip_tags. split; [apply strip_tags_plain |].
  generalize false. induction s as [| a s IH]; intros b; simpl; [done |].
  destruct b.
  - destruct (Ascii.eqb a ">"); [specialize (IH false) | specialize (IH true)];
      lia.
  - destruct (Ascii.eqb a "<" && opens_tag s); simpl.
    + specialize (IH true). lia.
    + specialize (IH false). lia.
Qed.

Lemma clean_plain_text_witness : clean "Rates up 5 > 4" = "Rates up 5 > 4".
Proof.
  destruct (clean_plain_text "Rates up 5 > 4") as [Hplain _].
  apply Hplain. left. reflexivity.
Defined.

(** X3: a tag, that is "<", one or more characters other than ">", and
    ">", is removed whole, whatever it holds (a "<" or a line break as
    well), and the text before it, when it has no "<", is kept; an
    empty pair "<>" is not a tag and stays. *)
Theorem clean_removes_tag (pre tag post : string) :
  (occurs "<" pre = false → tag ≠ "" → occurs ">" tag = false →
   clean (pre +:+ "<" +:+ tag +:+ ">" +:+ post) = pre +:+ clean post)
  ∧ clean ("<>" +:+ post) = "<>" +:+ clean post.
Proof.
  rewrite !clean_strip_tags. split.
  - intros Hpre Htag Hgt. rewrite strip_tags_prefix by done. f_equal.
    str_simpl.
    assert (opens_tag (tag +:+ String ">" post) = true) as ->.
    { destruct tag as [| a tag]; [done |]. str_simpl_in Hgt. str_simpl.
      destruct (Ascii.eqb a ">"); [done |]. simpl.
      rewrite has_gt_occurs, occurs_append. simpl.
      by rewrite orb_true_r. }
    exact (strip_tags_in_tag tag post Hgt).
  - reflexivity.
Qed.

Lemma clean_removes_tag_witness :
  clean ("Read " +:+ "<" +:+ "a href='x'" +:+ ">" +:+ "more")
  = "Read " +:+ clean "more".
Proof.
  destruct (clean_removes_tag "Read " "a href='x'" "more") as [Htag _].
  apply Htag; [reflexivity | discriminate | reflexivity].
Defined.

Lemma truncate_length n s :
  String.length (truncate n s) ≤ n + 3
  ∧ (String.length s ≤ n → truncate n s = s)
  ∧ (n < String.length s →
     truncate n s = substring 0 n s +:+ "..."
     ∧ String.length (truncate n s) = n + 3).
Proof.
  unfold truncate.
  destruct (Nat.ltb_spec n (String.length s)) as [Hlt | Hge].
  - rewrite length_append, length_substring by lia. simpl.
    split; [lia |]. split; [lia |]. intros _. split; [done | lia].
  - split; [lia |]. split; [done |]. intros. lia.
Qed.

(* ===================================================================== *)
(* Further properties: the message and the enhancer                      *)
(* ===================================================================== *)

Section MoreFormatting.

Context (env : Env) (cfg : Config).

(** X4: a candidate whose title and description are strs is taken over
    exactly when the title has more than 10 and fewer than 120
    characters and the description more than 30 and fewer than 600;
    otherwise the message is made of the original title and
    description and yagpt_used stays as it is.  Either way the
    description that goes into the message is cut to 500 characters and
    three dots, so it has at most 503 characters. *)
Theorem string_candidate_checked entry w new_title new_description w1 :
  let title := clean (default "No title" (e_title entry)) in
  let description := clean (default "" (e_description entry)) in
  let link := default "" (e_link entry) in
  let message (t d : string) :=
    "<b>" +:+ t +:+ "</b>" +:+ nl +:+ nl +:+ truncate 500 d +:+ nl +:+ nl
    +:+ "<a href='" +:+ link +:+ "'>" +:+ "🔗 Читать полностью" +:+ "</a>" in
  let within :=
    10 < String.length new_title < 120
    ∧ 30 < String.length new_description < 600 in
  yagpt_configured cfg = true →
  enhance_with_yagpt env cfg title description w
  = (Some {| enh_title := JStr new_title;
             enh_description := JStr new_description |}, w1) →
  let r := format_message env cfg entry w in
  (within →
   (∃ image_path, r.1 = Some (message new_title new_description, image_path))
   ∧ yagpt_used (stats r.2) = S (yagpt_used (stats w)))
  ∧ (¬ within →
     (∃ image_path, r.1 = Some (message title description, image_path))
     ∧ yagpt_used (stats r.2) = yagpt_used (stats w))
  ∧ String.length (truncate 500 new_description) ≤ 503
  ∧ String.length (truncate 500 description) ≤ 503.
Proof.
  intros title description link message within Hcfg Henh r.
  destruct (str_candidate_checked env cfg entry w new_title new_description
              w1 Hcfg Henh) as [Hout Hin].
  split; [exact Hin |]. split; [exact Hout |].
  split; apply truncate_length.
Qed.

Lemma format_message_effect entry w :
  let r := format_message env cfg entry w in
  ((yagpt_used (stats r.2) = S (yagpt_used (stats w))
    ∧ yagpt_errors (stats r.2) = yagpt_errors (stats w))
   ∨ (yagpt_used (stats r.2) = yagpt_used (stats w)
      ∧ (yagpt_errors (stats r.2) = yagpt_errors (stats w)
         ∨ yagpt_errors (stats r.2) = S (yagpt_errors (stats w)))))
  ∧ images_generated (stats r.2)
    = images_generated (stats w)
      + match r.1 with Some (_, Some _) => 1 | _ => 0 end
  ∧ errors (stats r.2) = errors (stats w)
  ∧ posts_sent (stats r.2) = posts_sent (stats w)
  ∧ last_post (stats r.2) = last_post (stats w)
  ∧ sent_entries r.2 = sent_entries w.
Proof.
  unfold format_message, enhance_step, enhance_with_yagpt, image_step,
    generate_image.
  repeat (case_match; simplify_eq/=);
    (split; [auto |]); (split; [lia |]); done.
Qed.

(** X5: formatting one entry touches only the enhancer and image
    counters, whether it returns or raises.  Either yagpt_used goes up
    by one and yagpt_errors stays, or yagpt_used stays and yagpt_errors
    goes up by at most one; images_generated goes up by one exactly when
    an image path comes back; errors, posts_sent, last_post and
    sent_entries stay as they are. *)
Theorem format_message_counters entry w :
  let r := format_message env cfg entry w in
  ((yagpt_used (stats r.2) = S (yagpt_used (stats w))
    ∧ yagpt_errors (stats r.2) = yagpt_errors (stats w))
   ∨ (yagpt_used (stats r.2) = yagpt_used (stats w)
      ∧ (yagpt_errors (stats r.2) = yagpt_errors (stats w)
         ∨ yagpt_errors (stats r.2) = S (yagpt_errors (stats w)))))
  ∧ images_generated (stats r.2)
    = images_generated (stats w)
      + match r.1 with Some (_, Some _) => 1 | _ => 0 end
  ∧ errors (stats r.2) = errors (stats w)
  ∧ posts_sent (stats r.2) = posts_sent (stats w)
  ∧ last_post (stats r.2) = last_post (stats w)
  ∧ sent_entries r.2 = sent_entries w.
Proof. apply format_message_effect. Qed.

Lemma find_from_absent c s i :
  occurs c s = false → find_from c s i = (-1)%Z.
Proof.
  revert i. induction s as [| a s IH]; intros i; simpl; [done |].
  destruct (Ascii.eqb a c); [done |]. apply IH.
Qed.

Lemma find_from_first c (pre rest : string) i :
  occurs c pre = false →
  find_from c (pre +:+ String c rest) i = (i + Z.of_nat (String.length pre))%Z.
Proof.
  revert i. induction pre as [| a pre IH]; intros i; str_simpl.
  - intros _. rewrite Ascii.eqb_refl. lia.
  - destruct (Ascii.eqb a c); [done |]. intros Hpre. rewrite IH by done. lia.
Qed.

Lemma rfind_from_absent c s i last :
  occurs c s = false → rfind_from c s i last = last.
Proof.
  revert i last. induction s as [| a s IH]; intros i last; simpl; [done |].
  destruct (Ascii.eqb a c); [done |]. apply IH.
Qed.

Lemma rfind_from_last c (s post : string) i last :
  occurs c post = false →
  rfind_from c (s +:+ String c post) i last
  = (i + Z.of_nat (String.length s))%Z.
Proof.
  intros Hpost. revert i last.
  induction s as [| a s IH]; intros i last; str_simpl.
  - rewrite Ascii.eqb_refl, rfind_from_absent by done. lia.
  - rewrite IH. lia.
Qed.

(* The text between the first "{" and the last "}" *)
Lemma json_slice (pre body post : string) :
  occurs "{" pre = false → occurs "}" post = false →
  let text := pre +:+ "{" +:+ body +:+ "}" +:+ post in
  find "{" text = Z.of_nat (String.length pre)
  ∧ (rfind "}" text + 1)%Z
    = Z.of_nat (String.length pre + String.length body + 2)
  ∧ slice (find "{" text) (rfind "}" text + 1) text = "{" +:+ body +:+ "}".
Proof.
  intros Hpre Hpost text.
  assert (find "{" text = Z.of_nat (String.length pre)) as Hfind.
  { unfold find, text. change ("{" +:+ body +:+ "}" +:+ post)
      with (String "{" (body +:+ "}" +:+ post)).
    by rewrite find_from_first. }
  assert ((rfind "}" text + 1)%Z
          = Z.of_nat (String.length pre + String.length body + 2)) as Hrfind.
  { unfold rfind, text.
    replace (pre +:+ "{" +:+ body +:+ "}" +:+ post)
      with ((pre +:+ "{" +:+ body) +:+ String "}" post)
      by (by rewrite !append_assoc).
    rewrite rfind_from_last by done. rewrite !length_append. simpl. lia. }
  split; [done |]. split; [done |].
  unfold slice. rewrite Hfind, Hrfind. rewrite Nat2Z.id.
  replace (Z.to_nat (Z.of_nat (String.length pre + String.length body + 2)
                     - Z.of_nat (String.length pre)))
    with (String.length ("{" +:+ body +:+ "}")).
  2: { rewrite !length_append. simpl. lia. }
  unfold text. rewrite substring_skip.
  replace ("{" +:+ body +:+ "}" +:+ post)
    with (("{" +:+ body +:+ "}") +:+ post) by (by rewrite !append_assoc).
  apply substring_prefix.
Qed.

Lemma enhance_with_yagpt_object title description w (pre body post : string) :
  yagpt_configured cfg = true →
  occurs "{" pre = false → occurs "}" post = false →
  yagpt_post env (clock w) title (truncate MAX_INPUT_LENGTH description)
  = ResultText (pre +:+ "{" +:+ body +:+ "}" +:+ post) →
  enhance_with_yagpt env cfg title description w
  = match json_loads env ("{" +:+ body +:+ "}") with
    | Object data =>
        (Some {| enh_title := default (JStr title) (j_title data);
                 enh_description :=
                   default (JStr (truncate MAX_INPUT_LENGTH description))
                     (j_description data) |},
         tick w)
    | JSONDecodeError => (None, logger ERROR MsgYagptJsonError (tick w))
    | ParseException =>
        (None,
         set_stats incr_yagpt_errors
           (logger ERROR MsgYagptProcessingError (tick w)))
    end.
Proof.
  intros Hcfg Hpre Hpost Hreply.
  destruct (json_slice pre body post Hpre Hpost) as (Hfind & Hrfind & Hslice).
  unfold enhance_with_yagpt. rewrite Hcfg. cbn [negb]. cbv zeta.
  cbn [clock tick advance]. rewrite Hreply.
  rewrite Hslice, Hfind, Hrfind.
  replace (Z.of_nat (String.length pre) =? -1)%Z with false
    by (symmetry; apply Z.eqb_neq; lia).
  replace (Z.of_nat (String.length pre + String.length body + 2) =? 0)%Z
    with false by (symmetry; apply Z.eqb_neq; lia).
  done.
Qed.

(** X6: when the text of the reply holds a JSON object with other text
    around it, only the part from the first "{" to the last "}" goes to
    the JSON parser; a member the object lacks is taken from the
    original title, or from the description as it was sent (cut to 3000
    characters and three dots when longer).  A JSONDecodeError of the
    parser is logged, any other exception is logged and counted. *)
Theorem reply_object_extracted title description w (pre body post : string) :
  yagpt_configured cfg = true →
  occurs "{" pre = false → occurs "}" post = false →
  yagpt_post env (clock w) title (truncate MAX_INPUT_LENGTH description)
  = ResultText (pre +:+ "{" +:+ body +:+ "}" +:+ post) →
  enhance_with_yagpt env cfg title description w
  = match json_loads env ("{" +:+ body +:+ "}") with
    | Object data =>
        (Some {| enh_title := default (JStr title) (j_title data);
                 enh_description :=
                   default (JStr (truncate MAX_INPUT_LENGTH description))
                     (j_description data) |},
         tick w)
    | JSONDecodeError => (None, logger ERROR MsgYagptJsonError (tick w))
    | ParseException =>
        (None,
         set_stats incr_yagpt_errors
           (logger ERROR MsgYagptProcessingError (tick w)))
    end.
Proof. apply enhance_with_yagpt_object. Qed.

Lemma find_absent s : occurs "{" s = false → find "{" s = (-1)%Z.
Proof. apply find_from_absent. Qed.

Lemma rfind_absent s : occurs "}" s = false → (rfind "}" s + 1)%Z = 0%Z.
Proof. intros Hs. unfold rfind. by rewrite rfind_from_absent. Qed.

(** X7: what becomes of a reply whose text has been read.  A text
    without "{" or without "}" gives no candidate and one error line in
    the log.  yagpt_errors is left as it is by enhance_with_yagpt unless
    json.loads raises something other than JSONDecodeError (a
    RecursionError on a text nested too deep), which is counted once.
    Whenever no candidate comes back, the original title and description
    are kept, and nothing more is counted after the call. *)
Theorem unreadable_reply_not_counted title description w result_text :
  yagpt_configured cfg = true →
  yagpt_post env (clock w) title (truncate MAX_INPUT_LENGTH description)
  = ResultText result_text →
  let r := enhance_with_yagpt env cfg title description w in
  let json_str :=
    slice (find "{" result_text) (rfind "}" result_text + 1) result_text in
  ((occurs "{" result_text = false ∨ occurs "}" result_text = false) →
   r = (None, logger ERROR MsgYagptFormatError (tick w)))
  ∧ (json_loads env json_str ≠ ParseException →
     yagpt_errors (stats r.2) = yagpt_errors (stats w))
  ∧ (find "{" result_text ≠ (-1)%Z → (rfind "}" result_text + 1)%Z ≠ 0%Z →
     json_loads env json_str = ParseException →
     r.1 = None ∧ yagpt_errors (stats r.2) = S (yagpt_errors (stats w)))
  ∧ (r.1 = None →
     let r' := enhance_step env cfg title description w in
     r'.1 = (JStr title, JStr description)
     ∧ yagpt_errors (stats r'.2) = yagpt_errors (stats r.2)
     ∧ yagpt_used (stats r'.2) = yagpt_used (stats w)).
Proof.
  intros Hcfg Hreply r json_str.
  assert (r = if (find "{" result_text =? -1)%Z
                 || (rfind "}" result_text + 1 =? 0)%Z
              then (None, logger ERROR MsgYagptFormatError (tick w))
              else match json_loads env json_str with
                   | Object data =>
                       (Some {| enh_title := default (JStr title) (j_title data);
                                enh_description :=
                                  default
                                    (JStr (truncate MAX_INPUT_LENGTH
                                             description))
                                    (j_description data) |},
                        tick w)
                   | JSONDecodeError =>
                       (None, logger ERROR MsgYagptJsonError (tick w))
                   | ParseException =>
                       (None,
                        set_stats incr_yagpt_errors
                          (logger ERROR MsgYagptProcessingError (tick w)))
                   end) as Hr.
  { subst r. unfold enhance_with_yagpt. rewrite Hcfg. cbn [negb]. cbv zeta.
    cbn [clock tick advance]. by rewrite Hreply. }
  split; [| split; [| split]].
  - intros Habsent. rewrite Hr. destruct Habsent as [Hno | Hno].
    + by rewrite (find_absent result_text Hno).
    + rewrite (rfind_absent result_text Hno). by rewrite orb_true_r.
  - intros Hparse. rewrite Hr.
    destruct (_ || _); [done |].
    by destruct (json_loads env json_str).
  - intros Hstart Hend Hparse. rewrite Hr.
    apply Z.eqb_neq in Hstart, Hend. rewrite Hstart, Hend, Hparse. done.
  - intros Hnone r'. subst r'. unfold enhance_step. rewrite Hcfg.
    pose proof (enhance_with_yagpt_used env cfg title description w) as Hused.
    fold r in Hused |- *. clear Hr. clearbody r.
    by destruct r as [[enhanced |] w1].
Qed.

(** X8: a reply whose object has a title within the bounds and no
    description is judged on the original description: the new title is
    taken over, with the original description, exactly when that
    description has more than 30 and fewer than 600 characters;
    otherwise the original title stays as well. *)
Theorem missing_description_kept title description w new_title
    (pre body post : string) :
  yagpt_configured cfg = true →
  occurs "{" pre = false → occurs "}" post = false →
  yagpt_post env (clock w) title (truncate MAX_INPUT_LENGTH description)
  = ResultText (pre +:+ "{" +:+ body +:+ "}" +:+ post) →
  json_loads env ("{" +:+ body +:+ "}")
  = Object {| j_title := Some (JStr new_title); j_description := None |} →
  10 < String.length new_title < 120 →
  let r := enhance_step env cfg title description w in
  (30 < String.length description < 600 →
   r.1 = (JStr new_title, JStr description)
   ∧ yagpt_used (stats r.2) = S (yagpt_used (stats w)))
  ∧ (¬ (30 < String.length description < 600) →
     r.1 = (JStr title, JStr description)
     ∧ yagpt_used (stats r.2) = yagpt_used (stats w)).
Proof.
  intros Hcfg Hpre Hpost Hreply Hjson Htitle r. subst r.
  unfold enhance_step. rewrite Hcfg.
  rewrite (enhance_with_yagpt_object title description w pre body post)
    by done.
  rewrite Hjson. cbn [default j_title j_description enh_title
                        enh_description]. unfold id.
  destruct (truncate_length MAX_INPUT_LENGTH description)
    as (_ & Hshort & Hlong).
  split.
  - intros Hd. rewrite Hshort by (unfold MAX_INPUT_LENGTH; lia).
    assert (validate (JStr new_title) (JStr description) = Accept) as ->.
    { apply validate_accept. split; eexists; (split; [reflexivity | done]). }
    done.
  - intros Hd.
    destruct (validate (JStr new_title)
                (JStr (truncate MAX_INPUT_LENGTH description)))
      eqn:Hv; [| done | done].
    apply validate_accept in Hv as (_ & n & [= <-] & Hlen). exfalso.
    destruct (Nat.le_gt_cases (String.length description) MAX_INPUT_LENGTH)
      as [Hle | Hgt].
    + rewrite Hshort in Hlen by done. lia.
    + destruct (Hlong Hgt) as [_ Hlen']. unfold MAX_INPUT_LENGTH in *. lia.
Qed.

End MoreFormatting.

Lemma string_candidate_checked_witness :
  (∃ image_path,
     (format_message env_good_candidate cfg_yagpt E1 world0).1
     = Some ("<b>A better headline</b>" +:+ nl +:+ nl
             +:+ "A description that is long enough to pass the check"
             +:+ nl +:+ nl
             +:+ "<a href='https://a/1'>🔗 Читать полностью</a>",
             image_path))
  ∧ yagpt_used (stats (format_message env_good_candidate cfg_yagpt E1 world0).2)
    = 1.
Proof.
  destruct (string_candidate_checked env_good_candidate cfg_yagpt E1 world0
              "A better headline"
              "A description that is long enough to pass the check"
              (tick world0) eq_refl eq_refl) as (Htaken & _).
  destruct Htaken as [(image_path & Hmessage) Hused]; [simpl; lia |].
  split; [| exact Hused]. exists image_path. rewrite Hmessage. reflexivity.
Defined.

Lemma reply_object_extracted_witness :
  (enhance_with_yagpt env_wrapped_reply cfg_yagpt "First" "one" world0).1
  = Some {| enh_title := JStr "A better headline";
            enh_description := JStr "one" |}.
Proof.
  rewrite (reply_object_extracted env_wrapped_reply cfg_yagpt "First" "one"
             world0 "Here you are: " "title: A better headline" " Enjoy!");
    reflexivity.
Defined.

Lemma unreadable_reply_not_counted_witness :
  enhance_with_yagpt env_no_object cfg_yagpt "First" "one" world0
  = (None, logger ERROR MsgYagptFormatError (tick world0))
  ∧ yagpt_errors
      (stats (enhance_with_yagpt env_deep_reply cfg_yagpt "First" "one"
                world0).2)
    = 1.
Proof.
  split.
  - destruct (unreadable_reply_not_counted env_no_object cfg_yagpt "First"
                "one" world0 "Sorry, I cannot help with that." eq_refl
                eq_refl) as (Hformat & _).
    apply Hformat. left. reflexivity.
  - destruct (unreadable_reply_not_counted env_deep_reply cfg_yagpt "First"
                "one" world0 "{{{{{{{{{{ }}}}}}}}}}" eq_refl eq_refl)
      as (_ & _ & Hdeep & _).
    apply Hdeep; [discriminate | discriminate | reflexivity].
Defined.

Lemma missing_description_kept_witness :
  (enhance_step env_wrapped_reply cfg_yagpt "First"
     "A description that is long enough to pass the check" world0).1
  = (JStr "A better headline",
     JStr "A description that is long enough to pass the check").
Proof.
  destruct (missing_description_kept env_wrapped_reply cfg_yagpt "First"
              "A description that is long enough to pass the check" world0
              "A better headline" "Here you are: " "title: A better headline"
              " Enjoy!" eq_refl eq_refl eq_refl eq_refl eq_refl)
    as [Hkept _]; [simpl; lia |].
  apply Hkept. simpl. lia.
Defined.

(* ===================================================================== *)
(* Further properties: the worker                                        *)
(* ===================================================================== *)

Lemma later_refl w : later w w.
Proof. unfold later. repeat split; done. Qed.

Lemma later_trans w1 w2 w3 : later w1 w2 → later w2 w3 → later w1 w3.
Proof.
  unfold later.
  intros (Hs1 & He1 & ?) (Hs2 & He2 & ?).
  split; [by etrans |]. split; [by etrans |]. lia.
Qed.

(* A step that leaves sent_entries and posts_sent alone *)
Lemma later_quiet P w w' :
  extends P w w' → clock w ≤ clock w' →
  posts_sent (stats w') = posts_sent (stats w) →
  errors (stats w) ≤ errors (stats w') →
  yagpt_used (stats w) ≤ yagpt_used (stats w') →
  yagpt_errors (stats w) ≤ yagpt_errors (stats w') →
  images_generated (stats w) ≤ images_generated (stats w') →
  later w w'.
Proof.
  intros (Hs & new & He & _) ? ? ? ? ? ?. unfold later. rewrite Hs, He.
  split; [done |]. split; [by apply suffix_app_r |]. lia.
Qed.

(* The same for a step written out: it only logs, counts or waits. *)
Ltac later_step :=
  unfold later; simpl; repeat split; try lia; try done;
  repeat apply suffix_cons_r; reflexivity.

Section MoreWorker.

Context (env : Env) (cfg : Config).

Lemma format_message_later entry w :
  later w (format_message env cfg entry w).2.
Proof.
  pose proof (format_message_effect env cfg entry w) as (Hy & Hi & ? & ? & _).
  simpl in Hy, Hi.
  apply (later_quiet silent);
    [apply format_message_extends | apply format_message_clock | lia..].
Qed.

Lemma publish_later l message image_path w :
  later w (publish env cfg l message image_path w).2.
Proof.
  pose proof (publish_stats env cfg l message image_path w) as Hst.
  apply (later_quiet (attempt l));
    [apply publish_extends | apply publish_clock | by rewrite Hst..].
Qed.

Lemma process_entry_later entry w :
  later w (process_entry env cfg entry w).
Proof.
  unfold process_entry.
  destruct (e_link entry) as [l |]; [| apply later_refl].
  destruct (decide (l ∈ sent_entries w)) as [| Hfresh]; [apply later_refl |].
  unfold post_entry.
  pose proof (format_message_later entry w) as Hf.
  pose proof (format_message_extends env cfg entry w) as (Hs1 & _).
  destruct (format_message env cfg entry w) as [[[message image_path] |] w1].
  2: { simpl in *. eapply later_trans; [exact Hf |]. later_step. }
  pose proof (publish_later l message image_path w1) as Hp.
  pose proof (publish_extends env cfg l message image_path w1) as (Hs2 & _).
  destruct (publish env cfg l message image_path w1) as [ok w2].
  simpl in *.
  eapply later_trans; [exact Hf |]. eapply later_trans; [exact Hp |].
  destruct ok; [| later_step].
  unfold later. simpl.
  split; [apply union_subseteq_r |]. split; [by apply suffix_cons_r |].
  rewrite size_union, size_singleton
    by (apply disjoint_singleton_l; by rewrite Hs2, Hs1).
  lia.
Qed.

Lemma process_entries_later entries w :
  later w (process_entries env cfg entries w).
Proof.
  revert w. induction entries as [| entry rest IH]; intros w; simpl.
  - apply later_refl.
  - case_match; [apply later_refl |].
    eapply later_trans; [apply process_entry_later | apply IH].
Qed.

Lemma process_feed_later url w : later w (process_feed env cfg url w).
Proof.
  unfold process_feed.
  destruct (feed_parse env (clock w) url) as [[| e entries] |];
    [later_step | | later_step].
  eapply later_trans; [| apply process_entries_later]. later_step.
Qed.

Lemma process_feeds_later urls w : later w (process_feeds env cfg urls w).
Proof.
  revert w. induction urls as [| url rest IH]; intros w; simpl.
  - apply later_refl.
  - case_match; [apply later_refl |].
    eapply later_trans; [apply process_feed_later | apply IH].
Qed.

Lemma cycle_later w : later w (cycle env cfg w).
Proof.
  unfold cycle. case_match; [later_step |].
  match goal with |- context [process_feeds env cfg ?us ?w0] =>
    assert (later w (process_feeds env cfg us w0)) as Hsweep
      by (eapply later_trans; [| apply process_feeds_later]; later_step);
    set (ws := process_feeds env cfg us w0) in * end.
  eapply later_trans; [exact Hsweep |].
  case_match; [unfold cooldown; later_step |].
  destruct (stop_event_wait env _ _) as [w' |] eqn:Hwait;
    [apply (stop_event_wait_some env) in Hwait as -> | unfold cooldown];
    later_step.
Qed.

Lemma rss_while_later fuel w : later w (rss_while env cfg fuel w).1.
Proof.
  revert w. induction fuel as [| fuel IH]; intros w; simpl.
  - case_match; [apply later_refl | later_step].
  - case_match; [| later_step].
    eapply later_trans; [apply cycle_later | apply IH].
Qed.

Lemma rss_loop_later fuel w : later w (rss_loop env cfg fuel w).1.
Proof.
  unfold rss_loop. eapply later_trans; [| apply rss_while_later]. later_step.
Qed.

(** X9: whatever the feeds, the Telegram API and the stop event do, a
    run of the worker only adds: sent_entries keeps every link it had,
    the log is extended at its end, the clock does not go back and no
    counter goes down. *)
Theorem worker_only_adds fuel w :
  let w' := (rss_loop env cfg fuel w).1 in
  sent_entries w ⊆ sent_entries w'
  ∧ events w `suffix_of` events w'
  ∧ clock w ≤ clock w'
  ∧ posts_sent (stats w) ≤ posts_sent (stats w')
  ∧ errors (stats w) ≤ errors (stats w')
  ∧ yagpt_used (stats w) ≤ yagpt_used (stats w')
  ∧ yagpt_errors (stats w) ≤ yagpt_errors (stats w')
  ∧ images_generated (stats w) ≤ images_generated (stats w').
Proof.
  destruct (rss_loop_later fuel w) as (? & ? & ? & ? & ? & ? & ? & ? & _).
  repeat split; done.
Qed.

(** X10: a worker that runs alone, with no other worker alive beside
    it, counts one post for each link it records: over its run
    posts_sent goes up by exactly the number of links that are added to
    sent_entries.  (Two workers that run at the same time can both count
    the same link, as two_workers_publish_after_record shows.) *)
Theorem posts_counted_are_links_recorded fuel w :
  let w' := (rss_loop env cfg fuel w).1 in
  posts_sent (stats w') + size (sent_entries w)
  = posts_sent (stats w) + size (sent_entries w').
Proof.
  by destruct (rss_loop_later fuel w) as (_ & _ & _ & _ & _ & _ & _ & _ & ?).
Qed.

(* ------------------------- Telegram down ----------------------------- *)

Lemma nothing_posted_refl w : nothing_posted w w.
Proof. unfold nothing_posted. by repeat split. Qed.

Lemma nothing_posted_trans w1 w2 w3 :
  nothing_posted w1 w2 → nothing_posted w2 w3 → nothing_posted w1 w3.
Proof.
  unfold nothing_posted.
  intros (Hs1 & Hp1 & Hl1 & He1) (Hs2 & Hp2 & Hl2 & He2).
  repeat split; [congruence.. |]. intros l Hin. by apply He1, He2.
Qed.

Lemma nothing_posted_extends l w w' :
  extends (attempt l) w w' →
  posts_sent (stats w') = posts_sent (stats w) →
  last_post (stats w') = last_post (stats w) →
  nothing_posted w w'.
Proof.
  intros (Hs & new & He & Hnew) Hp Hl. unfold nothing_posted.
  repeat split; [done.. |]. intros l'. rewrite He.
  by apply (posted_in_attempts l l' new).
Qed.

(* A step that only logs something else, counts errors or waits *)
Ltac unposted_step :=
  unfold nothing_posted; simpl; repeat split; try done;
  let l := fresh "l" in let Hin := fresh "Hin" in
  intros l Hin;
  repeat (apply elem_of_cons in Hin as [Hin | Hin]; [discriminate |]);
  done.

Lemma publish_fails l message image_path w :
  (∀ t, send_message_ok env t = false) →
  (∀ t, send_photo_ok env t = false) →
  (publish env cfg l message image_path w).1 = false.
Proof.
  intros Htext Hphoto. unfold publish, try_send_photo, send_message.
  rewrite ?Hphoto. simpl.
  repeat (case_match; simplify_eq/=); rewrite ?Htext; done.
Qed.

Lemma process_entry_outage entry w :
  (∀ t, send_message_ok env t = false) →
  (∀ t, send_photo_ok env t = false) →
  nothing_posted w (process_entry env cfg entry w)
  ∧ ∀ l, e_link entry = Some l → l ∉ sent_entries w →
         errors (stats (process_entry env cfg entry w)) = S (errors (stats w)).
Proof.
  intros Htext Hphoto. unfold process_entry.
  destruct (e_link entry) as [l |]; [| split; [apply nothing_posted_refl | done]].
  destruct (decide (l ∈ sent_entries w)) as [| Hfresh];
    [split; [apply nothing_posted_refl | by intros ? [= <-]] |].
  unfold post_entry.
  pose proof (format_message_extends env cfg entry w) as Hf.
  pose proof (format_message_effect env cfg entry w)
    as (_ & _ & Herr & Hposts & Hlast & _).
  destruct (format_message env cfg entry w) as [[[message image_path] |] w1].
  2: { simpl in *. split; [| by intros l' _ _; simpl; rewrite Herr].
       apply (nothing_posted_extends l); simpl; [| done..].
       eapply extends_trans;
         [eapply extends_weaken; [apply silent_attempt | exact Hf] |].
       simpl. new_events. }
  pose proof (publish_extends env cfg l message image_path w1) as Hp.
  pose proof (publish_stats env cfg l message image_path w1) as Hst.
  pose proof (publish_fails l message image_path w1 Htext Hphoto) as Hfail.
  destruct (publish env cfg l message image_path w1) as [ok w2].
  simpl in *. subst ok. split.
  - apply (nothing_posted_extends l); simpl; [| by rewrite Hst..].
    eapply extends_trans;
      [eapply extends_weaken; [apply silent_attempt | exact Hf] |].
    eapply extends_trans; [exact Hp |]. simpl. new_events.
  - intros l' _ _. simpl. by rewrite Hst, Herr.
Qed.

Lemma process_entries_outage entries w :
  (∀ t, send_message_ok env t = false) →
  (∀ t, send_photo_ok env t = false) →
  nothing_posted w (process_entries env cfg entries w).
Proof.
  intros Htext Hphoto. revert w.
  induction entries as [| entry rest IH]; intros w; simpl.
  - apply nothing_posted_refl.
  - case_match; [apply nothing_posted_refl |].
    eapply nothing_posted_trans; [| apply IH].
    by apply process_entry_outage.
Qed.

Lemma process_feeds_outage urls w :
  (∀ t, send_message_ok env t = false) →
  (∀ t, send_photo_ok env t = false) →
  nothing_posted w (process_feeds env cfg urls w).
Proof.
  intros Htext Hphoto. revert w.
  induction urls as [| url rest IH]; intros w; simpl.
  - apply nothing_posted_refl.
  - case_match; [apply nothing_posted_refl |].
    eapply nothing_posted_trans; [| apply IH].
    unfold process_feed.
    destruct (feed_parse env (clock w) url) as [[| e entries] |];
      [unposted_step | | unposted_step].
    eapply nothing_posted_trans; [| by apply process_entries_outage].
    unposted_step.
Qed.

Lemma rss_while_outage fuel w :
  (∀ t, send_message_ok env t = false) →
  (∀ t, send_photo_ok env t = false) →
  nothing_posted w (rss_while env cfg fuel w).1.
Proof.
  intros Htext Hphoto. revert w.
  induction fuel as [| fuel IH]; intros w; simpl.
  - case_match; [apply nothing_posted_refl | unposted_step].
  - case_match; [| unposted_step].
    eapply nothing_posted_trans; [| apply IH].
    unfold cycle. case_match; [unposted_step |].
    match goal with |- context [process_feeds env cfg ?us ?w0] =>
      assert (nothing_posted w (process_feeds env cfg us w0)) as Hsweep
        by (eapply nothing_posted_trans;
            [| by apply process_feeds_outage]; unposted_step);
      set (ws := process_feeds env cfg us w0) in * end.
    eapply nothing_posted_trans; [exact Hsweep |].
    case_match; [unfold cooldown; unposted_step |].
    destruct (stop_event_wait env _ _) as [w' |] eqn:Hwait;
      [apply (stop_event_wait_some env) in Hwait as -> | unfold cooldown];
      unposted_step.
Qed.

(** X11: while every call of the Telegram API raises, a run of the
    worker records nothing as posted: sent_entries, posts_sent and
    last_post stay as they are and no "Posted" line is logged, so the
    entries are taken up again in a later cycle; each new entry that is
    tried adds one to errors. *)
Theorem telegram_outage_records_nothing fuel w :
  (∀ t, send_message_ok env t = false) →
  (∀ t, send_photo_ok env t = false) →
  let w' := (rss_loop env cfg fuel w).1 in
  (sent_entries w' = sent_entries w
   ∧ posts_sent (stats w') = posts_sent (stats w)
   ∧ last_post (stats w') = last_post (stats w)
   ∧ ∀ l, Log INFO (MsgPosted l) ∈ events w' →
          Log INFO (MsgPosted l) ∈ events w)
  ∧ ∀ entry l w0,
      e_link entry = Some l → l ∉ sent_entries w0 →
      errors (stats (process_entry env cfg entry w0)) = S (errors (stats w0))
      ∧ l ∉ sent_entries (process_entry env cfg entry w0).
Proof.
  intros Htext Hphoto w'. split.
  - subst w'. unfold rss_loop.
    eapply (nothing_posted_trans w); [| by apply rss_while_outage].
    unposted_step.
  - intros entry l w0 Hl Hfresh.
    destruct (process_entry_outage entry w0 Htext Hphoto)
      as [(Hs & _) Herr].
    split; [by apply (Herr l) | by rewrite Hs].
Qed.

(* ------------------------- which entries are sent -------------------- *)




(** X13: when the photo has gone out and removing the image file then
    raises, the text message is sent as well: the entry reaches the
    channel twice and is recorded once. *)
Theorem photo_sent_then_text_sent entry l message p w w1 :
  e_link entry = Some l → l ∉ sent_entries w →
  format_message env cfg entry w = (Some (message, Some p), w1) →
  nonempty p = true →
  (∀ t q, path_exists env t q = true) →
  (∀ t q, open_ok env t q = true) →
  (∀ t, send_photo_ok env t = true) →
  (∀ t q, remove_ok env t q = false) →
  (∀ t, send_message_ok env t = true) →
  events (process_entry env cfg entry w)
  = [ Log INFO (MsgPosted l);
      SendMessage (CHANNEL_ID cfg) l message true;
      Log ERROR MsgPhotoError;
      SendPhoto (CHANNEL_ID cfg) l message true ] ++ events w1
  ∧ posts_sent (stats (process_entry env cfg entry w))
    = S (posts_sent (stats w)).
Proof.
  intros Hl Hfresh Hf Hp Hexists Hopen Hphoto Hremove Htext.
  pose proof (format_message_effect env cfg entry w)
    as (_ & _ & _ & Hposts & _).
  rewrite Hf in Hposts. simpl in Hposts.
  unfold process_entry, post_entry. rewrite Hl, decide_False, Hf by done.
  unfold publish, try_send_photo, send_message.
  rewrite Hp, Hexists, Hopen. simpl.
  rewrite Hphoto. simpl. rewrite Hremove. simpl. rewrite Htext. simpl.
  by rewrite Hposts.
Qed.

(** X14: when the worker looks at its flags and finds is_running
    cleared or the stop event set, it leaves at once, whatever feeds
    are configured and however many passes it might still make: it
    fetches nothing, publishes nothing, counts nothing and only logs
    that it has stopped.  Inside a cycle, feeds and entries that come
    up while the stop event is set are left alone. *)
Theorem worker_leaves_when_told fuel urls entries w :
  (running_flag env (clock w) = false ∨ stop_is_set env (clock w) = true →
   rss_loop env cfg fuel w
   = (logger INFO MsgLoopStopped (logger INFO MsgLoopStarted w), true))
  ∧ (stop_is_set env (clock w) = true →
     process_feeds env cfg urls w = w
     ∧ process_entries env cfg entries w = w).
Proof.
  split.
  - intros Htold. unfold rss_loop.
    assert (running_flag env (clock w) && negb (stop_is_set env (clock w))
            = false) as Hcond.
    { destruct Htold as [-> | ->]; [done | by rewrite andb_false_r]. }
    destruct fuel; simpl; by rewrite Hcond.
  - intros Hstop. split.
    + destruct urls; simpl; [done | by rewrite Hstop].
    + destruct entries; simpl; [done | by rewrite Hstop].
Qed.

End MoreWorker.

Lemma telegram_outage_records_nothing_witness :
  sent_entries (rss_loop env_outage cfg_plain 2 world0).1 = ∅
  ∧ posts_sent (stats (rss_loop env_outage cfg_plain 2 world0).1) = 0.
Proof.
  destruct (telegram_outage_records_nothing env_outage cfg_plain 2 world0
              (λ _, eq_refl) (λ _, eq_refl)) as ((Hs & Hp & _) & _).
  split; [exact Hs | exact Hp].
Defined.


Lemma photo_sent_then_text_sent_witness :
  sends (events (process_entry env_remove_fails cfg_plain E1 world0))
  = ["https://a/1"; "https://a/1"]
  ∧ posts_sent (stats (process_entry env_remove_fails cfg_plain E1 world0))
    = 1.
Proof.
  destruct (photo_sent_then_text_sent env_remove_fails cfg_plain E1
              "https://a/1"
              (render_message "First" "one" "https://a/1")
              "temp_images/post_1.jpg" world0
              (format_message env_remove_fails cfg_plain E1 world0).2
              eq_refl (not_elem_of_empty _) eq_refl eq_refl
              (λ _ _, eq_refl) (λ _ _, eq_refl) (λ _, eq_refl)
              (λ _ _, eq_refl) (λ _, eq_refl)) as [Hev Hposts].
  split; [by rewrite Hev | exact Hposts].
Defined.

Lemma worker_leaves_when_told_witness :
  rss_loop env_stopped cfg_plain 7 world0
  = (logger INFO MsgLoopStopped (logger INFO MsgLoopStarted world0), true).
Proof.
  destruct (worker_leaves_when_told env_stopped cfg_plain 7 [] [] world0)
    as [Hleave _].
  apply Hleave. left. reflexivity.
Defined.

(* ===================================================================== *)
(* Further properties: the controller and the commands                   *)
(* ===================================================================== *)

Lemma length_filter_remove (tid : nat) (l : list nat) :
  tid ∈ l → length (filter (λ t, t ≠ tid) l) < length l.
Proof.
  induction l as [| a l IH]; [by intros ?%elem_of_nil |].
  intros Hin. destruct (decide (a = tid)) as [-> | Hne].
  - rewrite filter_cons_False by naive_solver. simpl.
    pose proof (length_filter (λ t, t ≠ tid) l). lia.
  - rewrite filter_cons_True by done. simpl.
    apply elem_of_cons in Hin as [-> | Hin]; [done |].
    specialize (IH Hin). lia.
Qed.

Lemma threads_ok_filter p (tid : nat) :
  NoDup (alive p) → (∀ t, t ∈ alive p → t < next_thread p) →
  NoDup (filter (λ t, t ≠ tid) (alive p))
  ∧ (∀ t, t ∈ filter (λ t, t ≠ tid) (alive p) → t < next_thread p)
  ∧ length (filter (λ t, t ≠ tid) (alive p)) ≤ length (alive p).
Proof.
  intros Hnd Hlt. split; [by apply NoDup_filter |]. split.
  - intros t [_ Hin]%list_elem_of_filter. by apply Hlt.
  - apply length_filter.
Qed.

Lemma threads_ok_act a k p :
  threads_ok k p → threads_ok (k + timeouts [a]) (act a p).
Proof.
  unfold threads_ok. intros (Hnd & Hlt & Hrun).
  destruct a as [now | exits | tid]; simpl.
  - unfold start. destruct (is_running (controller p)) eqn:Hr; simpl.
    + rewrite Hr. rewrite Nat.add_0_r. done.
    + split; [| split].
      * apply NoDup_cons. split; [| done].
        intros Hin. specialize (Hlt _ Hin). lia.
      * intros t [-> | Hin]%elem_of_cons; [lia |].
        specialize (Hlt _ Hin). lia.
      * split; [done |]. split; [| lia].
        eexists. split; [done |]. by left.
  - unfold stop. destruct (is_running (controller p)) eqn:Hr; simpl.
    + destruct Hrun as (_ & (tid & -> & Hin) & Hlen).
      rewrite bool_decide_eq_true_2 by done.
      destruct exits; simpl.
      * destruct (threads_ok_filter p tid Hnd Hlt) as (? & ? & _).
        pose proof (length_filter_remove tid (alive p) Hin).
        split; [done |]. split; [done |]. lia.
      * split; [done |]. split; [done |]. lia.
    + rewrite Hr. cbv beta iota in Hrun.
      destruct exits; (split; [done |]); (split; [done |]); lia.
  - unfold worker_checks.
    destruct (is_running (controller p)) eqn:Hr; simpl.
    + destruct Hrun as (Hs & Hw & Hlen). rewrite Hs. simpl. rewrite Hr.
      rewrite Nat.add_0_r. done.
    + rewrite Hr. cbv beta iota in Hrun.
      destruct (threads_ok_filter p tid Hnd Hlt) as (? & ? & ?).
      split; [done |]. split; [done |]. lia.
Qed.

Lemma timeouts_cons a actions :
  timeouts (a :: actions) = timeouts [a] + timeouts actions.
Proof. destruct a as [| [] |]; simpl; lia. Qed.

Lemma threads_ok_run actions k p :
  threads_ok k p → threads_ok (k + timeouts actions) (run actions p).
Proof.
  revert k p. induction actions as [| a actions IH]; intros k p Hp.
  - simpl. by rewrite Nat.add_0_r.
  - rewrite timeouts_cons, Nat.add_assoc. apply IH. by apply threads_ok_act.
Qed.

Lemma threads_ok_process0 : threads_ok 0 process0.
Proof.
  unfold threads_ok. simpl. split; [constructor |].
  split; [by intros t ?%elem_of_nil | lia].
Qed.

(** X15: after any sequence of start(), stop() and worker steps, the
    workers alive are at most one more than the stop() calls whose join
    has timed out. *)
Theorem workers_bounded_by_timeouts actions :
  length (alive (run actions process0)) ≤ 1 + timeouts actions.
Proof.
  destruct (threads_ok_run actions 0 process0 threads_ok_process0)
    as (_ & _ & Hrun).
  simpl in Hrun. destruct (is_running (controller (run actions process0)));
    [destruct Hrun as (_ & _ & ?) |]; lia.
Qed.

(** X16: after any sequence of start(), stop() and worker steps, no
    thread is counted twice and no thread number is used again, and
    while the controller is Running its stop event is clear and the
    worker it has spawned last is alive. *)
Theorem running_worker_is_alive actions :
  let p := run actions process0 in
  NoDup (alive p)
  ∧ (∀ t, t ∈ alive p → t < next_thread p)
  ∧ (is_running (controller p) = true →
     stop_event (controller p) = false
     ∧ ∃ tid, worker_thread (controller p) = Some tid ∧ tid ∈ alive p).
Proof.
  destruct (threads_ok_run actions 0 process0 threads_ok_process0)
    as (Hnd & Hlt & Hrun).
  split; [done |]. split; [done |]. intros Hr. rewrite Hr in Hrun.
  by destruct Hrun as (? & ? & _).
Qed.

Lemma running_worker_is_alive_witness :
  stop_event (controller (run [DoStart 0; DoStop false; DoStart 6] process0))
  = false
  ∧ ∃ tid,
      worker_thread
        (controller (run [DoStart 0; DoStop false; DoStart 6] process0))
      = Some tid
      ∧ tid ∈ alive (run [DoStart 0; DoStop false; DoStart 6] process0).
Proof.
  destruct (running_worker_is_alive [DoStart 0; DoStop false; DoStart 6])
    as (_ & _ & Hrun).
  apply Hrun. reflexivity.
Defined.

Section Commands.

Context (b : Bot) (now : nat) (exits_in_time : bool).

Lemma stop_then_start p :
  ∃ p', start now (stop exits_in_time p).2 = (true, p')
        ∧ is_running (controller p') = true
        ∧ stop_event (controller p') = false
        ∧ p_stats p' = record_start now (p_stats p)
        ∧ alive p' = next_thread p :: alive (stop exits_in_time p).2.
Proof.
  unfold stop. destruct (is_running (controller p)) eqn:Hr; simpl.
  - unfold start. simpl. eexists. by repeat split.
  - unfold start. rewrite Hr. eexists. by repeat split.
Qed.

(** X17: for the owner, restart always ends with the controller Running,
    its stop event clear, the counters at zero and one new worker
    started, whether the controller was Running or Stopped before and
    whether the old worker left in time or not; the reply is always the
    success message, never the restart error. *)
Theorem restart_always_succeeds m p :
  is_owner b m = true →
  ∃ p' r,
    restart_command b now exits_in_time m p = (p', Some r)
    ∧ reply_text r = "🔄 Бот успешно перезапущен! 🔄"
    ∧ is_running (controller p') = true
    ∧ stop_event (controller p') = false
    ∧ posts_sent (p_stats p') = 0 ∧ errors (p_stats p') = 0
    ∧ start_time (p_stats p') = Some now
    ∧ alive p' = next_thread p :: alive (stop exits_in_time p).2.
Proof.
  intros Howner. unfold restart_command. rewrite Howner. simpl.
  destruct (stop_then_start p) as (p' & -> & Hr & Hs & Hst & Ha).
  exists p'. eexists. split; [reflexivity |]. simpl.
  rewrite Hst. by repeat split.
Qed.

(** X18: a message that does not come from the owner is ignored by every
    handler: the controller, the statistics and the threads stay as they
    are and no reply is sent. *)
Theorem strangers_are_ignored h m p :
  from_user_id m ≠ OWNER_ID b →
  handler h b now exits_in_time m p = (p, None).
Proof.
  intros Hne.
  assert (is_owner b m = false) as Howner by (by apply Z.eqb_neq).
  destruct h; simpl;
    unfold send_welcome, send_status, send_stats, start_command,
      stop_command, restart_command, sources_command, yagpt_status_command,
      handle_text_messages;
    by rewrite Howner.
Qed.

(* The keyboard of a reply built by reply_html *)
Lemma reply_html_markup text p r :
  reply_html text p = Some r → reply_markup r = create_reply_keyboard p.
Proof. by intros [= <-]. Qed.

Lemma command_markup h m p p' r :
  h ≠ HText →
  handler h b now exits_in_time m p = (p', Some r) →
  reply_markup r = create_reply_keyboard p'.
Proof.
  intros Hh. destruct h; [..| done]; simpl;
    unfold send_welcome, send_status, send_stats, start_command,
      stop_command, restart_command, sources_command, yagpt_status_command;
    destruct (is_owner b m); simpl; try done;
    repeat case_match; intros [= <- <-]; done.
Qed.

(** X19: the keyboard that goes out with a reply is the one of the
    state after the command: after a start or restart it offers pause
    and stop, after a stop it offers start and restart. *)
Theorem reply_keyboard_matches_state h m p p' r :
  handler h b now exits_in_time m p = (p', Some r) →
  reply_markup r = create_reply_keyboard p'
  ∧ head (reply_markup r)
    = Some (if is_running (controller p')
            then ["⏸️ Приостановить"; "🛑 Остановить"]
            else ["▶️ Запустить"; "🔄 Перезапустить"]).
Proof.
  intros Hh.
  assert (reply_markup r = create_reply_keyboard p') as ->; [| done].
  assert (h = HText ∨ h ≠ HText) as [-> | Hne]
    by (destruct h; auto; by left).
  2: by apply (command_markup h m p).
  simpl in Hh. unfold handle_text_messages in Hh.
  destruct (is_owner b m) eqn:Howner; [| done]. simpl in Hh.
  repeat case_match;
    first [ by apply (command_markup HStartBot m p)
          | by apply (command_markup HStop m p)
          | by apply (command_markup HRestart m p)
          | by apply (command_markup HSources m p)
          | by apply (command_markup HWelcome m p)
          | by injection Hh as <- <- ].
Qed.

(** X20: every label the reply keyboard can show is understood when it
    comes back as a message from the owner: it is answered as a command,
    with an HTML reply.  Any other text is answered with the
    unknown-command notice, the only reply without a parse mode, and
    changes nothing. *)
Theorem buttons_are_understood m p :
  is_owner b m = true →
  let text := strip (bot_py b) (msg_text m) in
  ((∃ p0, text ∈ concat (create_reply_keyboard p0)) →
   ∃ r, (handle_text_messages b now exits_in_time m p).2 = Some r
        ∧ parse_mode r = Some "HTML")
  ∧ ((∀ p0, text ∉ concat (create_reply_keyboard p0)) →
     handle_text_messages b now exits_in_time m p
     = (p, Some {| reply_text := unknown_command; parse_mode := None;
                   reply_markup := create_reply_keyboard p |})).
Proof.
  intros Howner text. split.
  - intros [p0 Hin]. unfold handle_text_messages. rewrite Howner.
    cbn [negb]. fold text. unfold create_reply_keyboard in Hin.
    destruct (status p0); simpl in Hin;
      repeat (apply elem_of_cons in Hin as [-> | Hin]);
      try (by apply elem_of_nil in Hin);
      vm_compute String.eqb; cbn [orb];
      unfold start_command, stop_command, restart_command, sources_command,
        send_welcome; rewrite ?Howner; cbn [negb];
      repeat case_match; eexists; split; reflexivity.
  - intros Hnot. unfold handle_text_messages. rewrite Howner.
    cbn [negb]. fold text.
    assert (∀ label, (∃ p0, label ∈ concat (create_reply_keyboard p0)) →
                     String.eqb text label = false) as Hno.
    { intros label [p0 Hin]. apply String.eqb_neq. intros ->.
      by apply (Hnot p0). }
    rewrite !Hno; [done | ..];
      first [ by exists process0; simpl; repeat constructor
            | by exists (start 0 process0).2; simpl; repeat constructor ].
Qed.

End Commands.

Lemma restart_always_succeeds_witness :
  ∃ p' r,
    restart_command bot_sample 9 false (from_owner "/restart")
      (start 0 process0).2 = (p', Some r)
    ∧ reply_text r = "🔄 Бот успешно перезапущен! 🔄"
    ∧ is_running (controller p') = true.
Proof.
  destruct (restart_always_succeeds bot_sample 9 false
              (from_owner "/restart") (start 0 process0).2 eq_refl)
    as (p' & r & H1 & H2 & H3 & _).
  by exists p', r.
Defined.

Lemma strangers_are_ignored_witness :
  handler HText bot_sample 9 true (from_stranger "🛑 Остановить")
    (start 0 process0).2
  = ((start 0 process0).2, None).
Proof. apply strangers_are_ignored. simpl. lia. Defined.

Lemma reply_keyboard_matches_state_witness :
  head (reply_markup
          {| reply_text := "✅ Публикация начата! 🚀";
             parse_mode := Some "HTML";
             reply_markup := create_reply_keyboard (start 9 process0).2 |})
  = Some ["⏸️ Приостановить"; "🛑 Остановить"].
Proof.
  destruct (reply_keyboard_matches_state bot_sample 9 true HStartBot
              (from_owner "/start_bot") process0 (start 9 process0).2
              {| reply_text := "✅ Публикация начата! 🚀";
                 parse_mode := Some "HTML";
                 reply_markup := create_reply_keyboard (start 9 process0).2 |}
              eq_refl) as [_ Hhead].
  exact Hhead.
Defined.

Lemma buttons_are_understood_witness :
  ∃ r, (handle_text_messages bot_sample 9 true
          (from_owner " 🛑 Остановить ") (start 0 process0).2).2 = Some r
       ∧ parse_mode r = Some "HTML".
Proof.
  destruct (buttons_are_understood bot_sample 9 true
              (from_owner " 🛑 Остановить ") (start 0 process0).2 eq_refl)
    as [Hbutton _].
  apply Hbutton. exists (start 0 process0).2. vm_compute. repeat constructor.
Defined.

(* ===================================================================== *)
(* Further properties: get_env_var                                       *)
(* ===================================================================== *)

Section Environment.

Context (py : Builtins) (environ : gmap string string).

(** X21: get_env_var ends the process, with code 1, exactly when the
    variable is required, not set, and has no default.  Otherwise it
    returns the default or a value of the type asked for: the string as
    it is set, an integer, a boolean or a list; text that int() does not
    accept gives the default and not an error. *)
Theorem get_env_var_result name default required var_type :
  (get_env_var py environ name default required var_type = Exit 1
   ↔ required = true ∧ environ !! name = None ∧ default = PNone)
  ∧ (∀ out, get_env_var py environ name default required var_type = out →
       out = Exit 1
       ∨ ∃ v, out = Return v
              ∧ (v = default ∨ of_type environ name var_type v))
  ∧ (∀ s, var_type = TInt → environ !! name = Some s →
          int_of_str py s = None →
          get_env_var py environ name default required var_type
          = Return default).
Proof.
  unfold get_env_var, getenv, of_type. split; [| split].
  - destruct required, (environ !! name) as [s |], default, var_type;
      simpl; repeat case_match; split; try done;
      try (by intros (? & ? & ?)); naive_solver.
  - intros out <-.
    destruct required, (environ !! name) as [s |] eqn:Hs, default, var_type;
      simpl; repeat case_match; simplify_eq/=; eauto 8.
  - intros s -> -> Hint. destruct required; simpl; by rewrite Hint.
Qed.

Lemma lstrip_by_head f a r :
  f a = false → lstrip_by f (String a r) = String a r.
Proof. intros Ha. simpl. by rewrite Ha. Qed.

Lemma rstrip_by_clean f u :
  all_chars (λ a, negb (f a)) u = true → rstrip_by f u = u.
Proof.
  induction u as [| a u IH]; simpl; [done |].
  intros [Ha Hu]%andb_true_iff. rewrite IH by done.
  apply negb_true_iff in Ha. rewrite Ha. by destruct u.
Qed.

Lemma strip_by_clean f u :
  all_chars (λ a, negb (f a)) u = true → strip_by f u = u.
Proof.
  intros Hu. unfold strip_by.
  destruct u as [| a u]; [done |].
  assert (f a = false) as Ha.
  { simpl in Hu. apply andb_true_iff in Hu as [Ha _].
    by apply negb_true_iff in Ha. }
  rewrite lstrip_by_head by done. by apply rstrip_by_clean.
Qed.

Lemma rstrip_by_append f (s1 s2 : string) :
  s2 ≠ "" → rstrip_by f s2 = s2 → rstrip_by f (s1 +:+ s2) = s1 +:+ s2.
Proof.
  intros Hne Hs2. induction s1 as [| a s1 IH]; str_simpl; [done |].
  rewrite IH. destruct (s1 +:+ s2) eqn:Happ; [| done].
  destruct s1; [| done]. by rewrite append_nil_l in Happ.
Qed.

Lemma all_chars_impl (g h : ascii → bool) u :
  (∀ a, g a = true → h a = true) →
  all_chars g u = true → all_chars h u = true.
Proof.
  intros Hgh. induction u as [| a u IH]; simpl; [done |].
  intros [Ha Hu]%andb_true_iff. by rewrite (Hgh a Ha), IH.
Qed.

Lemma all_chars_occurs c (g : ascii → bool) u :
  g c = false → all_chars g u = true → occurs c u = false.
Proof.
  intros Hc. induction u as [| a u IH]; simpl; [done |].
  intros [Ha Hu]%andb_true_iff.
  destruct (Ascii.eqb_spec a c) as [-> | _]; [congruence | by apply IH].
Qed.

Lemma split_no_sep c u : occurs c u = false → split c u = [u].
Proof.
  induction u as [| a u IH]; simpl; [done |].
  destruct (Ascii.eqb a c); [done |]. intros Hu. by rewrite IH.
Qed.

Lemma split_append c (u rest : string) :
  occurs c u = false → split c (u +:+ String c rest) = u :: split c rest.
Proof.
  induction u as [| a u IH]; str_simpl.
  - intros _. by rewrite Ascii.eqb_refl.
  - destruct (Ascii.eqb a c); [done |]. intros Hu. by rewrite IH.
Qed.

Lemma concat_cons (sep u : string) us :
  us ≠ [] → String.concat sep (u :: us) = u +:+ sep +:+ String.concat sep us.
Proof. by destruct us. Qed.

Lemma split_concat (urls : list string) :
  urls ≠ [] → Forall (λ u, occurs "," u = false) urls →
  split "," (String.concat "," urls) = urls.
Proof.
  induction urls as [| u us IH]; [done |]. intros _ Hall.
  apply Forall_cons in Hall as [Hu Hus].
  destruct us as [| u' us]; [by apply split_no_sep |].
  rewrite concat_cons by done.
  change ("," +:+ String.concat "," (u' :: us))
    with (String "," (String.concat "," (u' :: us))).
  rewrite split_append by done. f_equal. by apply IH.
Qed.

Lemma rstrip_by_concat f (urls : list string) :
  urls ≠ [] →
  Forall (λ u, nonempty u = true ∧ all_chars (λ a, negb (f a)) u = true)
    urls →
  rstrip_by f (String.concat "," urls) = String.concat "," urls
  ∧ String.concat "," urls ≠ "".
Proof.
  induction urls as [| u us IH]; [done |]. intros _ Hall.
  apply Forall_cons in Hall as [[Hne Hu] Hus].
  destruct us as [| u' us].
  - simpl. split; [by apply rstrip_by_clean | by destruct u].
  - destruct (IH ltac:(done) Hus) as [Hr Hn].
    rewrite concat_cons by done. split.
    + apply rstrip_by_append; [done |].
      by apply (rstrip_by_append f ","%string).
    + by destruct u.
Qed.

Lemma plain_parts u :
  plain py u = true →
  nonempty u = true
  ∧ occurs "," u = false
  ∧ all_chars (λ a, negb (isspace py a)) u = true
  ∧ all_chars (λ a, negb (is_quote a)) u = true
  ∧ all_chars (λ a, negb (is_bracket a)) u = true.
Proof.
  unfold plain. intros [Hne Hall]%andb_true_iff. split; [done |].
  split; [refine (all_chars_occurs _ _ _ _ Hall); reflexivity |].
  repeat split; eapply all_chars_impl; try exact Hall;
    intros a Ha; apply negb_true_iff, orb_false_iff in Ha;
    destruct Ha as [Ha ?]; apply orb_false_iff in Ha as [Ha ?];
    apply orb_false_iff in Ha as [? ?]; by apply negb_true_iff.
Qed.

Lemma omap_cons_step {A B} (f : A → option B) x l :
  omap f (x :: l)
  = match f x with Some y => y :: omap f l | None => omap f l end.
Proof. reflexivity. Qed.

Lemma parse_urls_concat (urls : list string) :
  urls ≠ [] → Forall (λ u, plain py u = true) urls →
  parse_urls py (String.concat "," urls) = urls
  ∧ nonempty (String.concat "," urls) = true.
Proof.
  intros Hne Hall. unfold parse_urls.
  assert (strip_by is_bracket (String.concat "," urls)
          = String.concat "," urls
          ∧ nonempty (String.concat "," urls) = true) as [-> Hnonempty].
  { destruct (rstrip_by_concat is_bracket urls Hne) as [Hr Hn].
    { eapply Forall_impl; [exact Hall |]. intros u Hu.
      by destruct (plain_parts u Hu) as (? & _ & _ & _ & ?). }
    unfold strip_by. destruct urls as [| u us]; [done |].
    apply Forall_cons in Hall as [Hu _].
    destruct (plain_parts u Hu) as (Hne' & _ & _ & _ & Hb).
    destruct u as [| a u]; [done |].
    assert (is_bracket a = false) as Ha.
    { simpl in Hb. apply andb_true_iff in Hb as [Ha _].
      by apply negb_true_iff in Ha. }
    assert (∃ r, String.concat "," (String a u :: us) = String a r)
      as [r Hcat] by (destruct us; [by eexists | rewrite concat_cons by done;
                                               by eexists]).
    rewrite Hcat in Hr |- *. rewrite lstrip_by_head by done. done. }
  split; [| done].
  rewrite split_concat; [| done |].
  2: { eapply Forall_impl; [exact Hall |]. intros u Hu.
       by destruct (plain_parts u Hu) as (_ & ? & _). }
  clear Hne Hnonempty. induction Hall as [| u us Hu _ IH]; [done |].
  destruct (plain_parts u Hu) as (Hne & _ & Hspace & Hquote & _).
  rewrite omap_cons_step. unfold strip at 1 2.
  rewrite (strip_by_clean (isspace py) u Hspace).
  by rewrite Hne, (strip_by_clean is_quote u Hquote), IH.
Qed.

(** X22: a variable holding a comma-separated list of items that need no
    cleaning (not empty, without commas, white space, quotes and square
    brackets) is read back as exactly that list, item by item and in
    order. *)
Theorem url_list_read_back name default required (urls : list string) :
  urls ≠ [] → Forall (λ u, plain py u = true) urls →
  environ !! name = Some (String.concat "," urls) →
  get_env_var py environ name default required TList = Return (PList urls).
Proof.
  intros Hne Hall Hset.
  destruct (parse_urls_concat urls Hne Hall) as [Hparse Hnonempty].
  unfold get_env_var, getenv. rewrite Hset.
  destruct required; simpl; by rewrite Hnonempty, Hparse.
Qed.

End Environment.

Lemma get_env_var_result_witness :
  get_env_var py_sample environ_sample "TELEGRAM_TOKEN" PNone true TStr
  = Exit 1
  ∧ get_env_var py_sample environ_sample "CHECK_INTERVAL" (PInt 300) false TInt
    = Return (PInt 300).
Proof.
  destruct (get_env_var_result py_sample environ_sample "TELEGRAM_TOKEN"
              PNone true TStr) as (Hexit & _ & _).
  destruct (get_env_var_result py_sample environ_sample "CHECK_INTERVAL"
              (PInt 300) false TInt) as (_ & _ & Hint).
  split.
  - apply Hexit. by repeat split.
  - by apply (Hint "soon").
Defined.

Lemma url_list_read_back_witness :
  get_env_var py_sample environ_sample "RSS_URLS" PNone false TList
  = Return (PList ["https://a/rss"; "https://b/rss"]).
Proof.
  apply url_list_read_back; [done | by repeat constructor | reflexivity].
Defined.

(* The list may also come in brackets and quotes, with blanks *)
Example bracketed_list :
  parse_urls py_sample "['https://a/rss', 'https://b/rss']"
  = ["https://a/rss"; "https://b/rss"].
Proof. reflexivity. Qed.

(* ===================================================================== *)
(* Further properties: the lines of the image title                      *)
(* ===================================================================== *)

(** X23: limiting the lines leaves three lines or fewer alone; of more
    it keeps the first three, the first two as they are, and in the
    third, when it has more than 15 characters, three dots take the
    place of the last three characters, so that no line gets longer. *)
Theorem limit_lines_keeps_lengths (lines : list string) :
  length (limit_lines lines) = Nat.min (length lines) max_lines
  ∧ (length lines ≤ max_lines → limit_lines lines = lines)
  ∧ String.length <$> limit_lines lines
    = String.length <$> take max_lines lines
  ∧ (∀ i, S i < max_lines → limit_lines lines !! i = lines !! i)
  ∧ (∀ l, max_lines < length lines → lines !! 2 = Some l →
          limit_lines lines !! 2
          = Some (if 15 <? String.length l
                  then substring 0 (String.length l - 3) l +:+ "..."
                  else l)).
Proof.
  unfold limit_lines, max_lines.
  destruct lines as [| a [| b [| c [| d rest]]]]; simpl;
    try (repeat split; try done; intros; simpl in *; lia).
  destruct (15 <? String.length c) eqn:Hc; simpl.
  - apply Nat.ltb_lt in Hc as Hlong.
    split; [done |]. split; [intros; lia |]. split; [| split].
    + rewrite length_append, length_substring by lia. simpl.
      do 3 f_equal. lia.
    + intros [| [| i]] Hi; simpl; try done; lia.
    + intros l _ [= <-]. by rewrite Hc.
  - split; [done |]. split; [intros; lia |]. split; [done |]. split.
    + intros [| [| i]] Hi; simpl; try done; lia.
    + intros l _ [= <-]. by rewrite Hc.
Qed.

Lemma limit_lines_keeps_lengths_witness :
  limit_lines ["one line"; "another"] = ["one line"; "another"].
Proof.
  destruct (limit_lines_keeps_lengths ["one line"; "another"])
    as (_ & Hshort & _).
  apply Hshort. simpl. unfold max_lines. lia.
Defined.

Section Wrapping.

Context (py : Builtins) (cv : Canvas).
Hypothesis blank_is_space : isspace py " " = true.

Lemma split_when_clean u :
  all_chars (λ a, negb (isspace py a)) u = true →
  split_when (isspace py) u = [u].
Proof.
  induction u as [| a u IH]; simpl; [done |].
  intros [Ha Hu]%andb_true_iff. apply negb_true_iff in Ha.
  by rewrite Ha, IH.
Qed.

Lemma split_when_append (u rest : string) c :
  all_chars (λ a, negb (isspace py a)) u = true → isspace py c = true →
  split_when (isspace py) (u +:+ String c rest)
  = u :: split_when (isspace py) rest.
Proof.
  intros Hu Hc. induction u as [| a u IH]; str_simpl.
  - by rewrite Hc.
  - simpl in Hu. apply andb_true_iff in Hu as [Ha Hu].
    apply negb_true_iff in Ha. by rewrite Ha, IH.
Qed.

Lemma split_when_pieces s :
  Forall (λ u, all_chars (λ a, negb (isspace py a)) u = true)
    (split_when (isspace py) s).
Proof.
  induction s as [| a s IH]; simpl; [by repeat constructor |].
  destruct (isspace py a) eqn:Ha; [by constructor |].
  destruct (split_when (isspace py) s) as [| x xs].
  - repeat constructor. simpl. by rewrite Ha.
  - apply Forall_cons in IH as [Hx Hxs]. constructor; [| done].
    simpl. by rewrite Ha.
Qed.

(* What title.split() returns are words *)
Lemma words_are_words title : Forall (is_word py) (words py title).
Proof.
  unfold words. apply Forall_forall. intros w [Hne Hin]%list_elem_of_filter.
  split; [done |].
  pose proof (split_when_pieces title) as Hall.
  rewrite Forall_forall in Hall. by apply Hall.
Qed.

Lemma line_of_snoc ws w : line_of (ws ++ [w]) = line_of ws +:+ w +:+ " ".
Proof.
  induction ws as [| v ws IH]; simpl; [done |].
  by rewrite IH, !append_assoc.
Qed.

Lemma line_of_nonempty ws :
  Forall (is_word py) ws → nonempty (line_of ws) = negb (bool_decide (ws = [])).
Proof.
  destruct ws as [| w ws]; [done |]. intros [[Hw _] _]%Forall_cons.
  simpl. by destruct w.
Qed.

(* The words of a line and of what follows *)
Lemma words_line_of ws (rest : string) :
  Forall (is_word py) ws →
  words py (line_of ws +:+ rest) = ws ++ words py rest.
Proof.
  induction 1 as [| w ws [Hne Hw] _ IH]; [done |].
  simpl. rewrite !append_assoc. unfold words.
  change (" " +:+ line_of ws +:+ rest)
    with (String " " (line_of ws +:+ rest)).
  rewrite split_when_append by done.
  rewrite filter_cons_True by done. f_equal. apply IH.
Qed.

Lemma rstrip_by_blank f (s : string) c :
  f c = true → rstrip_by f (s +:+ String c "") = rstrip_by f s.
Proof.
  intros Hc. induction s as [| a s IH]; str_simpl; [by rewrite Hc |].
  by rewrite IH.
Qed.

(* strip() takes the blank off the end of a line under construction and
   nothing else *)
Lemma strip_line_of ws w :
  Forall (is_word py) (ws ++ [w]) →
  strip py (line_of (ws ++ [w])) = line_of ws +:+ w
  ∧ words py (line_of ws +:+ w) = ws ++ [w].
Proof.
  intros Hall. apply Forall_app in Hall as [Hws Hw].
  apply Forall_cons in Hw as [[Hne Hclean] _]. split.
  - unfold strip, strip_by.
    assert (lstrip_by (isspace py) (line_of (ws ++ [w]))
            = line_of (ws ++ [w])) as ->.
    { destruct ws as [| v ws]; simpl.
      - destruct w as [| a w]; [done |]. str_simpl.
        simpl in Hclean. apply andb_true_iff in Hclean as [Ha _].
        apply negb_true_iff in Ha. by rewrite Ha.
      - apply Forall_cons in Hws as [[Hv Hvc] _].
        destruct v as [| a v]; [done |]. str_simpl.
        simpl in Hvc. apply andb_true_iff in Hvc as [Ha _].
        apply negb_true_iff in Ha. by rewrite Ha. }
    rewrite line_of_snoc.
    replace (line_of ws +:+ w +:+ " ")
      with ((line_of ws +:+ w) +:+ String " " "")
      by (by rewrite append_assoc).
    rewrite rstrip_by_blank by done.
    apply rstrip_by_append; [by destruct w | by apply rstrip_by_clean].
  - rewrite words_line_of by done. f_equal.
    unfold words. rewrite split_when_clean by done.
    by rewrite filter_cons_True.
Qed.

(* What the loop keeps: the line under construction is made of words,
   the finished lines and it hold the words read so far, and a line of
   several words has passed the width check. *)
Lemma wrap_loop_invariant ws lines cur :
  Forall (is_word py) (cur ++ ws) →
  (cur = [] ∨ (∃ w, cur = [w])
   ∨ (measure cv (line_of cur) ≤ max_width cv)%Z) →
  Forall (λ l, words py l ≠ []
               ∧ ((∃ w, l = w ∧ words py l = [w])
                  ∨ (measure cv (l +:+ " ") ≤ max_width cv)%Z)) lines →
  ∃ lines' cur',
    wrap_loop py cv ws lines (line_of cur) = (lines', line_of cur')
    ∧ Forall (is_word py) cur'
    ∧ (cur' = [] ∨ (∃ w, cur' = [w])
       ∨ (measure cv (line_of cur') ≤ max_width cv)%Z)
    ∧ concat (words py <$> lines') ++ cur'
      = concat (words py <$> lines) ++ cur ++ ws
    ∧ Forall (λ l, words py l ≠ []
                   ∧ ((∃ w, l = w ∧ words py l = [w])
                      ∨ (measure cv (l +:+ " ") ≤ max_width cv)%Z)) lines'.
Proof.
  revert lines cur. induction ws as [| word rest IH];
    intros lines cur Hall Hcur Hlines.
  - exists lines, cur. rewrite app_nil_r in *. simpl. by repeat split.
  - simpl. rewrite <- line_of_snoc.
    destruct (measure cv (line_of (cur ++ [word])) <=? max_width cv)%Z
      eqn:Hfits.
    + apply Z.leb_le in Hfits.
      destruct (IH lines (cur ++ [word])) as (lines' & cur' & Hrun & ?);
        [by rewrite <- app_assoc | by auto | done |].
      exists lines', cur'. rewrite Hrun.
      by rewrite <- app_assoc in *.
    + assert (Forall (is_word py) cur ∧ is_word py word
              ∧ Forall (is_word py) rest) as (Hc & Hw & Hr).
      { apply Forall_app in Hall as [? [? ?]%Forall_cons]. done. }
      rewrite line_of_nonempty by done.
      destruct cur as [| c cur _] using rev_ind.
      * simpl. change (word +:+ " ") with (line_of [word]).
        destruct (IH lines [word]) as (lines' & cur' & Hrun & ?);
          [by constructor | by right; left; eexists | done |].
        exists lines', cur'. by rewrite Hrun.
      * rewrite bool_decide_eq_false_2 by (by destruct cur). simpl.
        destruct (strip_line_of cur c Hc) as [Hstrip Hwords].
        change (word +:+ " ") with (line_of [word]).
        destruct (IH (lines ++ [strip py (line_of (cur ++ [c]))]) [word])
          as (lines' & cur' & Hrun & Hc' & Hm' & Hcat & Hl');
          [by constructor | by right; left; eexists | |].
        { apply Forall_app. split; [done |]. apply Forall_singleton. split.
          - rewrite Hstrip, Hwords. by destruct cur.
          - rewrite Hstrip.
            destruct Hcur as [Hnil | [[w Hone] | Hfit]].
            + by destruct cur.
            + left. apply app_singleton in Hone as [[-> [= <-]] | [_ ?]];
                [| done].
              exists c. by rewrite Hwords.
            + right. rewrite line_of_snoc in Hfit.
              by rewrite append_assoc. }
        exists lines', cur'. rewrite Hrun. repeat split; try done.
        rewrite Hcat, fmap_app, concat_app. simpl.
        rewrite Hstrip, Hwords, app_nil_r. by rewrite <- !app_assoc.
Qed.

Lemma wrap_title_lines title :
  concat (words py <$> wrap_title py cv title) = words py title
  ∧ Forall (λ l, words py l ≠ []
                 ∧ ((∃ w, l = w ∧ words py l = [w])
                    ∨ (measure cv (l +:+ " ") ≤ max_width cv)%Z))
      (wrap_title py cv title).
Proof.
  unfold wrap_title.
  destruct (wrap_loop_invariant (words py title) [] [])
    as (lines' & cur' & Hrun & Hc' & Hm' & Hcat & Hl');
    [apply words_are_words | by left | done |].
  change (line_of []) with "" in Hrun. rewrite Hrun.
  simpl in Hcat. rewrite line_of_nonempty by done.
  destruct cur' as [| c cur _] using rev_ind.
  - simpl. by rewrite app_nil_r in Hcat.
  - rewrite bool_decide_eq_false_2 by (by destruct cur). simpl.
    destruct (strip_line_of cur c Hc') as [Hstrip Hwords]. split.
    + by rewrite fmap_app, concat_app, <- Hcat; simpl;
        rewrite Hstrip, Hwords, app_nil_r.
    + apply Forall_app. split; [done |]. apply Forall_singleton. split.
      * rewrite Hstrip, Hwords. by destruct cur.
      * rewrite Hstrip. destruct Hm' as [Hnil | [[w Hone] | Hfit]].
        -- by destruct cur.
        -- left. apply app_singleton in Hone as [[-> [= <-]] | [_ ?]];
             [| done].
           exists c. by rewrite Hwords.
        -- right. rewrite line_of_snoc in Hfit. by rewrite append_assoc.
Qed.

(** X24: breaking the title into lines loses no word and changes no
    order: the words of the lines, read line after line, are the words
    of the title, and no line is without a word. *)
Theorem wrap_title_keeps_words title :
  concat (words py <$> wrap_title py cv title) = words py title
  ∧ Forall (λ l, words py l ≠ []) (wrap_title py cv title).
Proof.
  destruct (wrap_title_lines title) as [Hcat Hall]. split; [done |].
  eapply Forall_impl; [exact Hall |]. by intros l [? _].
Qed.

(** X25: a line of the broken title either is a single word, which is
    never split however wide it is, or, measured with the blank that
    followed its last word, is no wider than the width allowed. *)
Theorem wrap_title_fits_width title :
  Forall (λ l, words py l = [l]
               ∨ (measure cv (l +:+ " ") ≤ max_width cv)%Z)
    (wrap_title py cv title).
Proof.
  destruct (wrap_title_lines title) as [_ Hall].
  eapply Forall_impl; [exact Hall |].
  intros l [_ [(w & <- & Hw) | Hfit]]; [by left | by right].
Qed.

End Wrapping.

Lemma wrap_title_keeps_words_witness :
  concat (words py_sample
            <$> wrap_title py_sample canvas_sample
                  "Rates rise  again as markets   reopen today")
  = words py_sample "Rates rise  again as markets   reopen today".
Proof.
  by destruct (wrap_title_keeps_words py_sample canvas_sample eq_refl
                 "Rates rise  again as markets   reopen today") as [Hcat _].
Defined.

Lemma wrap_title_fits_width_witness :
  Forall (λ l, words py_sample l = [l]
               ∨ (measure canvas_sample (l +:+ " ")
                  ≤ max_width canvas_sample)%Z)
    (wrap_title py_sample canvas_sample
       "Rates rise  again as markets   reopen today").
Proof.
  exact (wrap_title_fits_width py_sample canvas_sample eq_refl
           "Rates rise  again as markets   reopen today").
Defined.

(* The lines of that title on the sample canvas *)
Example wrapped_lines :
  wrap_title py_sample canvas_sample
    "Rates rise  again as markets   reopen today"
  = ["Rates rise again as"; "markets reopen"; "today"].
Proof. vm_compute. reflexivity. Qed.
